(** * Request governance and retrieval pipeline of the restaurant chat backend

    A shallow embedding of [src/lambda.js] (the retrieval-augmented revision,
    the second [index.js] of the file): the per-client rate limiter, the spam
    guard, the in-flight guard, the response cache, the line-packing chunker,
    the cosine ranking, the context assembly and the two delivery handlers.

    Conventions.
    - A JavaScript string is the list of its UTF-16 code units ([list N]);
      [.length] is [length], [.slice(0, n)] is [take n].
    - A millisecond timestamp ([Date.now()]) and every counter is an integer
      [Z]; the arithmetic of the code on them is exact on doubles.
    - An embedding component and a similarity score is an IEEE-754 binary64
      number, Rocq's primitive [float], whose operations round as JavaScript's.
    - The process-wide [Map]s are finite maps ([gmap]) keyed by strings. *)

From Stdlib Require Import ZArith Lia Bool Sorting.Sorted.
From Stdlib Require Import Strings.String Strings.Ascii DecimalNat.
From Stdlib Require Import Floats.PrimFloat.
From stdpp Require Import gmap list.

Set Warnings "-abstract-large-number".
Local Open Scope Z_scope.

(** ** JavaScript strings *)

Module Js.

(** [lit "abc"] is the JavaScript string literal of an ASCII text. *)
Definition lit (s : string) : list N :=
  map N_of_ascii (list_ascii_of_string s).

Definition LF : N := 10%N.
Definition CR : N := 13%N.

(** The code units [String.prototype.trim] strips: WhiteSpace and
    LineTerminator of ECMA-262. *)
Definition isWhiteSpace (c : N) : bool :=
  ((9 <=? c) && (c <=? 13) || (c =? 32) || (c =? 160) || (c =? 5760)
   || (8192 <=? c) && (c <=? 8202) || (c =? 8232) || (c =? 8233)
   || (c =? 8239) || (c =? 8287) || (c =? 12288) || (c =? 65279))%N.

Fixpoint trimStart (s : list N) : list N :=
  match s with
  | c :: r => if isWhiteSpace c then trimStart r else s
  | [] => []
  end.

Definition trimEnd (s : list N) : list N := rev (trimStart (rev s)).

Definition trim (s : list N) : list N := trimEnd (trimStart s).

(** [Array.prototype.join]. *)
Fixpoint join (sep : list N) (parts : list (list N)) : list N :=
  match parts with
  | [] => []
  | [p] => p
  | p :: rest => p ++ sep ++ join sep rest
  end.

(** A string is truthy when it is not empty. *)
Definition truthy (s : list N) : bool :=
  match s with [] => false | _ => true end.

(** [x || fallback] on strings. *)
Definition orElse (s fallback : list N) : list N :=
  if truthy s then s else fallback.

(** [arr.slice(-n)]: the last [n] elements. *)
Definition lastN {A} (n : nat) (l : list A) : list A :=
  drop (length l - n)%nat l.

Definition digit (d : N) : N := (48 + d)%N.

Fixpoint digitsOfUint (u : Decimal.uint) : list N :=
  match u with
  | Decimal.Nil => []
  | Decimal.D0 r => digit 0 :: digitsOfUint r
  | Decimal.D1 r => digit 1 :: digitsOfUint r
  | Decimal.D2 r => digit 2 :: digitsOfUint r
  | Decimal.D3 r => digit 3 :: digitsOfUint r
  | Decimal.D4 r => digit 4 :: digitsOfUint r
  | Decimal.D5 r => digit 5 :: digitsOfUint r
  | Decimal.D6 r => digit 6 :: digitsOfUint r
  | Decimal.D7 r => digit 7 :: digitsOfUint r
  | Decimal.D8 r => digit 8 :: digitsOfUint r
  | Decimal.D9 r => digit 9 :: digitsOfUint r
  end.

(** The decimal rendering of a natural number in a template literal. *)
Definition decimal (n : nat) : list N := digitsOfUint (Nat.to_uint n).

(** [toUpperCase] on the ASCII letters; the section keys it is applied to
    are ASCII words. *)
Definition upperUnit (c : N) : N :=
  if ((97 <=? c) && (c <=? 122))%N then (c - 32)%N else c.

Definition toUpperCase (s : list N) : list N := map upperUnit s.

End Js.

(** ** Tuning constants *)

Definition MAX_MENU_CHUNK : nat := 15000.
Definition MAX_EMBED_CHUNK_CHARS : nat := 1400.
Definition RETRIEVAL_TOP_K_DEFAULT : nat := 4.
Definition RETRIEVAL_TOP_K_BROAD : nat := 7.

Definition CACHE_TTL : Z := 6 * 60 * 60 * 1000.

Definition RL_WINDOW_MS : Z := 60 * 1000.
Definition RL_LIMIT : Z := 12.

Definition SPAM_WINDOW_MS : Z := 5 * 60 * 1000.
Definition SPAM_LIMIT : Z := 30.
Definition SPAM_BLOCK_MS : Z := 3 * 60 * 1000.
Definition MIN_INTERVAL_MS : Z := 650.

(** [Math.ceil(ms / 1000)] for an integer number of milliseconds. *)
Definition ceilSeconds (ms : Z) : Z := - ((- ms) / 1000).

(** [Math.max(1, Math.ceil(ms / 1000))]. *)
Definition retryAfter (ms : Z) : Z := Z.max 1 (ceilSeconds ms).

(** ** Process state *)

Module Rate.
Record state : Type := mk { windowStart : Z; count : Z; resetAt : Z }.
End Rate.

Module Spam.
Record state : Type :=
  mk { windowStart : Z; count : Z; blockedUntil : Z; lastAt : Z }.
End Spam.

Record CacheEntry : Type := { ts : Z; reply : list N }.

(** What was written to the response stream, one entry per [write] call.
    [BodyEvent n] is the body of a JSON response on a stream to which
    [HttpResponseStream.from] has just given the status [n].
    [BareBodyEvent] is the body of the NO_MESSAGE response of
    [handleChatStream], written to the stream as it was passed in: no call of
    [HttpResponseStream.from] comes before it, so the status 400 of the
    payload is not set on the response. *)
Inductive WireEvent : Type :=
| DeltaEvent (delta : list N) (cached : bool)
| ErrorEvent
| DoneEvent
| BodyEvent (statusCode : Z)
| BareBodyEvent.

(** A journal the model keeps beside the state of the program: the
    operations on the in-flight map and the calls to the collaborators, in
    the order they are made. It is what "once" and "not invoked" are counted
    on. *)
Inductive Effect : Type :=
| InFlightSet (key : list N)
| InFlightDelete (key : list N)
| RetrievalCall
| ChatCompletion
| StreamWrite (ev : WireEvent)
| StreamEnd.

Record Ctx : Type := {
  cache : gmap (list N) CacheEntry;
  spamState : gmap (list N) Spam.state;
  rateState : gmap (list N) Rate.state;
  inFlight : gmap (list N) bool;
  effects : list Effect;
}.

Definition emptyCtx : Ctx :=
  {| cache := ∅; spamState := ∅; rateState := ∅; inFlight := ∅; effects := [] |}.

Definition setCache (f : gmap (list N) CacheEntry -> gmap (list N) CacheEntry)
    (c : Ctx) : Ctx :=
  {| cache := f (cache c); spamState := spamState c; rateState := rateState c;
     inFlight := inFlight c; effects := effects c |}.

Definition setSpamState (f : gmap (list N) Spam.state -> gmap (list N) Spam.state)
    (c : Ctx) : Ctx :=
  {| cache := cache c; spamState := f (spamState c); rateState := rateState c;
     inFlight := inFlight c; effects := effects c |}.

Definition setRateState (f : gmap (list N) Rate.state -> gmap (list N) Rate.state)
    (c : Ctx) : Ctx :=
  {| cache := cache c; spamState := spamState c; rateState := f (rateState c);
     inFlight := inFlight c; effects := effects c |}.

Definition setInFlight (f : gmap (list N) bool -> gmap (list N) bool)
    (c : Ctx) : Ctx :=
  {| cache := cache c; spamState := spamState c; rateState := rateState c;
     inFlight := f (inFlight c); effects := effects c |}.

Definition emit (e : Effect) (c : Ctx) : Ctx :=
  {| cache := cache c; spamState := spamState c; rateState := rateState c;
     inFlight := inFlight c; effects := effects c ++ [e] |}.

(** ** Thrown errors and the state-and-exception monad *)

Inductive ErrorName : Type :=
| RATE_LIMIT | COOLDOWN | TOO_FAST | SPAM_WINDOW | BUSY
| OtherError (msg : list N).

Record Err : Type := {
  message : ErrorName;
  statusCode : option Z;
  retryAfterSec : option Z;
  spam : bool;
}.

Inductive Outcome (A : Type) : Type :=
| Ret (a : A)
| Throw (e : Err).
Arguments Ret {A} a.
Arguments Throw {A} e.

(** A computation reads and updates the process state and either returns or
    throws; the state written before a throw stays written. *)
Definition M (A : Type) : Type := Ctx -> Outcome A * Ctx.

Definition ret {A} (a : A) : M A := fun c => (Ret a, c).
Definition throw {A} (e : Err) : M A := fun c => (Throw e, c).
Definition bind {A B} (m : M A) (k : A -> M B) : M B :=
  fun c => match m c with
           | (Ret a, c') => k a c'
           | (Throw e, c') => (Throw e, c')
           end.
Definition modify (f : Ctx -> Ctx) : M unit := fun c => (Ret tt, f c).

(** [try { body } finally { fin }]. *)
Definition tryFinally {A} (body : M A) (fin : M unit) : M A :=
  fun c => match body c with
           | (o, c') => match fin c' with
                        | (Ret _, c'') => (o, c'')
                        | (Throw e, c'') => (Throw e, c'')
                        end
           end.

(** [try { body } catch (err) { handler(err) }]. *)
Definition tryCatch {A} (body : M A) (handler : Err -> M A) : M A :=
  fun c => match body c with
           | (Ret a, c') => (Ret a, c')
           | (Throw e, c') => handler e c'
           end.

#[export] Instance M_ret : MRet M := @ret.
#[export] Instance M_bind : MBind M := fun A B k m => bind m k.

(** ** RateLimiter *)

(** [applyRateLimitOrThrow(key)], with [now] the value of [msNow()]. *)
Definition applyRateLimitOrThrow (now : Z) (key : list N) : M unit := fun c =>
  let st0 := default (Rate.mk now 0 (now + RL_WINDOW_MS)) (rateState c !! key) in
  let st1 := if now - Rate.windowStart st0 >? RL_WINDOW_MS
             then Rate.mk now 0 (now + RL_WINDOW_MS)
             else st0 in
  let st2 := Rate.mk (Rate.windowStart st1) (Rate.count st1 + 1) (Rate.resetAt st1) in
  let c' := setRateState (insert key st2) c in
  if Rate.count st2 >? RL_LIMIT
  then (Throw {| message := RATE_LIMIT; statusCode := Some 429;
                 retryAfterSec := Some (retryAfter (Rate.resetAt st2 - now));
                 spam := false |}, c')
  else (Ret tt, c').

(** ** SpamGuard *)

(** A number is truthy when it is not zero. *)
Definition truthyZ (z : Z) : bool := negb (z =? 0).

(** [applySpamGuardOrThrow(key)], with [now] the value of [msNow()]. *)
Definition applySpamGuardOrThrow (now : Z) (key : list N) : M unit := fun c =>
  let st := default (Spam.mk now 0 0 0) (spamState c !! key) in
  if truthyZ (Spam.blockedUntil st) && (now <? Spam.blockedUntil st)
  then (Throw {| message := COOLDOWN; statusCode := Some 429;
                 retryAfterSec := Some (retryAfter (Spam.blockedUntil st - now));
                 spam := true |}, c)
  else if truthyZ (Spam.lastAt st) && (now - Spam.lastAt st <? MIN_INTERVAL_MS)
  then
    let st' := Spam.mk (Spam.windowStart st) (Spam.count st) (now + 3000)
                       (Spam.lastAt st) in
    (Throw {| message := TOO_FAST; statusCode := Some 429;
              retryAfterSec := Some 3; spam := true |},
     setSpamState (insert key st') c)
  else
    let st1 := if now - Spam.windowStart st >? SPAM_WINDOW_MS
               then Spam.mk now 0 (Spam.blockedUntil st) (Spam.lastAt st)
               else st in
    let st2 := Spam.mk (Spam.windowStart st1) (Spam.count st1 + 1)
                       (Spam.blockedUntil st1) now in
    if Spam.count st2 >? SPAM_LIMIT
    then
      let st3 := Spam.mk (Spam.windowStart st2) (Spam.count st2)
                         (now + SPAM_BLOCK_MS) (Spam.lastAt st2) in
      (Throw {| message := SPAM_WINDOW; statusCode := Some 429;
                retryAfterSec := Some (retryAfter SPAM_BLOCK_MS);
                spam := true |},
       setSpamState (insert key st3) c)
    else (Ret tt, setSpamState (insert key st2) c).

(** ** InFlightGuard *)

(** [applyBusyGuardOrThrow(key)]: [inFlight.get(key)] is truthy when the key
    is mapped to [true]. *)
Definition applyBusyGuardOrThrow (key : list N) : M unit := fun c =>
  if default false (inFlight c !! key)
  then (Throw {| message := BUSY; statusCode := Some 409;
                 retryAfterSec := None; spam := false |}, c)
  else (Ret tt, emit (InFlightSet key) (setInFlight (insert key true) c)).

(** [clearBusy(key)]. *)
Definition clearBusy (key : list N) : M unit :=
  modify (fun c => emit (InFlightDelete key) (setInFlight (delete key) c)).

(** Successive calls of the rate limiter for one key, at the given times. *)
Fixpoint rateCalls (key : list N) (times : list Z) (c : Ctx)
  : list (Outcome unit) * Ctx :=
  match times with
  | [] => ([], c)
  | t :: rest =>
      let (o, c1) := applyRateLimitOrThrow t key c in
      let (os, c2) := rateCalls key rest c1 in
      (o :: os, c2)
  end.

(** Successive calls of the spam guard for one key, at the given times. *)
Fixpoint spamCalls (key : list N) (times : list Z) (c : Ctx)
  : list (Outcome unit) * Ctx :=
  match times with
  | [] => ([], c)
  | t :: rest =>
      let (o, c1) := applySpamGuardOrThrow t key c in
      let (os, c2) := spamCalls key rest c1 in
      (o :: os, c2)
  end.

(** The errors of the spam guard carry status 429, a retry-after and the
    [spam] mark. *)
Definition spamError (name : ErrorName) (r : Z) : Err :=
  {| message := name; statusCode := Some 429; retryAfterSec := Some r;
     spam := true |}.

(** ** ResponseCache *)

(** A conversation turn of the request body. A missing [role] or [content]
    is the empty string, as [x?.role || ""] makes it. *)
Record Turn : Type := { role : list N; content : list N }.

Definition VALID_CATEGORIES : list (list N) :=
  map Js.lit ["auto"; "full"; "starters_soups"; "mains"; "desserts"; "drinks";
              "info"]%string.

(** [normalizeCategory(category)]; an absent category is no member of the
    set. *)
Definition normalizeCategory (category : list N) : list N :=
  if bool_decide (category ∈ VALID_CATEGORIES) then category else Js.lit "auto".

(** [makeCacheKey(message, history, category)]. *)
Definition makeCacheKey (message : list N) (history : list Turn)
    (category : list N) : list N :=
  let safeCategory := normalizeCategory category in
  let h := Js.lastN 4 history in
  let hKey :=
    Js.join (Js.lit "|")
      (map (fun x => Js.orElse (role x) [] ++ Js.lit ":"
                       ++ take 140 (Js.orElse (content x) []))
           h) in
  safeCategory ++ Js.lit "::" ++ take 600 (Js.orElse message [])
    ++ Js.lit "::" ++ hKey.

(** [cleanupCache()], with [now] the value of [msNow()]: an entry is deleted
    when [now - v.ts > CACHE_TTL]. *)
Definition cleanupCache (now : Z) : M unit :=
  modify (setCache
            (filter (fun kv : list N * CacheEntry =>
                       (now - ts kv.2 >? CACHE_TTL) = false))).

(** [getClientKey({ clientId, ip })]; [clientId] is [None] when the body has
    none or it is no string. *)
Definition getClientKey (clientId : option (list N)) (ip : list N) : list N :=
  match clientId with
  | Some cid =>
      if Js.truthy cid && (8 <=? length cid)%nat
      then Js.lit "cid:" ++ cid
      else Js.lit "ip:" ++ Js.orElse ip (Js.lit "unknown")
  | None => Js.lit "ip:" ++ Js.orElse ip (Js.lit "unknown")
  end.

(** ** One invocation and its environment *)

(** The parsed request body. *)
Record Body : Type := {
  bodyMessage : list N;
  bodyHistory : list Turn;
  bodyCategory : list N;
  clientId : option (list N);
}.

(** What the clock and the collaborators answer during one invocation: the
    readings of [msNow()] in call order; the failure, if any, of the stage
    that fetches the menu and the key and builds the context; the content of
    the buffered completion or its failure; the delta contents of the
    streamed completion (an absent content is the empty string), the failure
    of its creation and the failure that ends its iteration early. *)
Record Env : Type := {
  tRate : Z;
  tSpam : Z;
  tCleanup : Z;
  tLookup : Z;
  tStore : Z;
  retrievalFailure : option Err;
  completion : Outcome (list N);
  streamCreation : option Err;
  streamParts : list (list N);
  streamFailure : option Err;
}.

Definition getCtx : M Ctx := fun c => (Ret c, c).

Definition perform (e : Effect) : M unit := modify (emit e).

Definition answered {A} (o : Outcome A) : M A := fun c => (o, c).

Definition failWith (failure : option Err) : M unit :=
  match failure with
  | Some e => throw e
  | None => ret tt
  end.

(** [getMenuText()], [getOpenAIApiKey()], [buildMenuContextForQuery(...)] and
    [buildMessages(...)], seen from the handlers: calls to collaborators that
    may throw. *)
Definition retrievalStage (env : Env) : M unit :=
  perform RetrievalCall ;; failWith (retrievalFailure env).

(** [client.chat.completions.create({...})], buffered. *)
Definition chatCompletion (env : Env) : M (list N) :=
  perform ChatCompletion ;; answered (completion env).

(** The test [cached && msNow() - cached.ts < CACHE_TTL], with [now] the
    value of [msNow()]: the entry when the test passes. *)
Definition servable (now : Z) (cached : option CacheEntry) : option CacheEntry :=
  match cached with
  | Some entry => if now - ts entry <? CACHE_TTL then Some entry else None
  | None => None
  end.

(** [computeReply({ message, history, category })]. *)
Definition computeReply (env : Env) (message : list N) (history : list Turn)
    (category : list N) : M (list N * bool) :=
  cleanupCache (tCleanup env) ;;
  let cacheKey := makeCacheKey message history category in
  c ← getCtx;
  let cached := cache c !! cacheKey in
  match servable (tLookup env) cached with
  | Some cached => ret (reply cached, true)
  | None =>
      retrievalStage env ;;
      content ← chatCompletion env;
      let reply := Js.orElse (Js.trim content) [] in
      modify (setCache (insert cacheKey {| ts := tStore env; reply := reply |})) ;;
      ret (reply, false)
  end.

(** The buffered JSON responses of the chat route. *)
Inductive Response : Type :=
| NoMessage
| Answer (reply : list N) (cached : bool).

Definition responseStatus (r : Response) : Z :=
  match r with NoMessage => 400 | Answer _ _ => 200 end.

(** [handleChatBuffered(event)], after the body is parsed. *)
Definition handleChatBuffered (env : Env) (body : Body) (ip : list N)
  : M Response :=
  let message := bodyMessage body in
  let history := bodyHistory body in
  let category := normalizeCategory (bodyCategory body) in
  if negb (Js.truthy message) then ret NoMessage
  else
    let key := getClientKey (clientId body) ip in
    applyRateLimitOrThrow (tRate env) key ;;
    applySpamGuardOrThrow (tSpam env) key ;;
    applyBusyGuardOrThrow key ;;
    tryFinally
      (out ← computeReply env message history category;
       ret (Answer out.1 out.2))
      (clearBusy key).

(** The loop over the streamed parts: an empty delta is skipped, any other is
    appended to [full] and written as one event. *)
Fixpoint forwardParts (parts : list (list N)) (full : list N) : M (list N) :=
  match parts with
  | [] => ret full
  | delta :: rest =>
      if negb (Js.truthy delta) then forwardParts rest full
      else
        perform (StreamWrite (DeltaEvent delta false)) ;;
        forwardParts rest (full ++ delta)
  end.

(** [handleChatStream(event, responseStream)], after the body is parsed. *)
Definition handleChatStream (env : Env) (body : Body) (ip : list N) : M unit :=
  let message := bodyMessage body in
  let history := bodyHistory body in
  let category := normalizeCategory (bodyCategory body) in
  if negb (Js.truthy message) then
    perform (StreamWrite BareBodyEvent) ;; perform StreamEnd
  else
    let key := getClientKey (clientId body) ip in
    applyRateLimitOrThrow (tRate env) key ;;
    applySpamGuardOrThrow (tSpam env) key ;;
    applyBusyGuardOrThrow key ;;
    tryFinally
      (tryCatch
         (cleanupCache (tCleanup env) ;;
          let cacheKey := makeCacheKey message history category in
          c ← getCtx;
          let cached := cache c !! cacheKey in
          match servable (tLookup env) cached with
          | Some cached =>
              perform (StreamWrite (DeltaEvent (reply cached) true)) ;;
              perform (StreamWrite DoneEvent) ;;
              perform StreamEnd
          | None =>
              retrievalStage env ;;
              perform ChatCompletion ;;
              failWith (streamCreation env) ;;
              full ← forwardParts (streamParts env) [];
              failWith (streamFailure env) ;;
              let full := Js.trim full in
              modify (setCache (insert cacheKey {| ts := tStore env; reply := full |})) ;;
              perform (StreamWrite DoneEvent) ;;
              perform StreamEnd
          end)
         (fun err =>
            perform (StreamWrite ErrorEvent) ;;
            perform (StreamWrite DoneEvent) ;;
            perform StreamEnd ;;
            throw err))
      (clearBusy key).

(** ** Requests in flight *)

(** The three guards both handlers run, without suspension, before the answer
    computation starts. *)
Definition governance (tR tS : Z) (key : list N) : M unit :=
  applyRateLimitOrThrow tR key ;;
  applySpamGuardOrThrow tS key ;;
  applyBusyGuardOrThrow key.

Definition busyError : Err :=
  {| message := BUSY; statusCode := Some 409; retryAfterSec := None;
     spam := false |}.

Definition isSetOf (key : list N) (e : Effect) : bool :=
  match e with InFlightSet k => bool_decide (k = key) | _ => false end.

Definition isDeleteOf (key : list N) (e : Effect) : bool :=
  match e with InFlightDelete k => bool_decide (k = key) | _ => false end.

Definition isInFlightOp (e : Effect) : bool :=
  match e with InFlightSet _ | InFlightDelete _ => true | _ => false end.

(** How many times the key was added to, and removed from, the in-flight
    map in a run of effects. *)
Definition acquisitions (key : list N) (effs : list Effect) : nat :=
  length (List.filter (isSetOf key) effs).

Definition releases (key : list N) (effs : list Effect) : nat :=
  length (List.filter (isDeleteOf key) effs).

(** A computation that neither reads nor writes the in-flight map. *)
Definition leavesInFlight {A} (m : M A) : Prop :=
  forall c : Ctx,
    inFlight (m c).2 = inFlight c /\
    exists new, effects (m c).2 = effects c ++ new /\
                List.forallb (fun e => negb (isInFlightOp e)) new = true.

(** The process between suspension points: its state and the keys of the
    requests whose answer computation is outstanding. A request arrives and
    passes or fails the guards in one step; an outstanding computation works
    on anything but the in-flight map; it completes, normally or not, by
    releasing its key. *)
Record Process : Type := { ctx : Ctx; outstanding : list (list N) }.

Definition processStart : Process := {| ctx := emptyCtx; outstanding := [] |}.

Inductive step (p : Process) : Process -> Prop :=
| step_admitted (tR tS : Z) (key : list N) (c1 : Ctx) :
    governance tR tS key (ctx p) = (Ret tt, c1) ->
    step p {| ctx := c1; outstanding := key :: outstanding p |}
| step_rejected (tR tS : Z) (key : list N) (e : Err) (c1 : Ctx) :
    governance tR tS key (ctx p) = (Throw e, c1) ->
    step p {| ctx := c1; outstanding := outstanding p |}
| step_progress (c1 : Ctx) :
    inFlight c1 = inFlight (ctx p) ->
    step p {| ctx := c1; outstanding := outstanding p |}
| step_completed (key : list N) (before after : list (list N)) :
    outstanding p = before ++ key :: after ->
    step p {| ctx := (clearBusy key (ctx p)).2; outstanding := before ++ after |}.

(** At most one outstanding computation per key, and the in-flight map holds
    exactly the keys of the outstanding computations. *)
Definition exclusive (p : Process) : Prop :=
  NoDup (outstanding p) /\
  forall key, key ∈ outstanding p <-> default false (inFlight (ctx p) !! key) = true.

(** What a handler run [run] from state [c] must do to the in-flight map for
    the key: when the guards admit the request, the key is added once and
    removed once and is absent at the end, whatever the outcome; when they
    reject it with [e], the handler fails with [e] and the map is as it
    was. *)
Definition releasedExactlyOnce {A} (run : Outcome A * Ctx) (tR tS : Z)
    (key : list N) (c : Ctx) : Prop :=
  ((governance tR tS key c).1 = Ret tt ->
     inFlight run.2 !! key = None /\
     exists new, effects run.2 = effects c ++ new /\
                 acquisitions key new = 1%nat /\ releases key new = 1%nat) /\
  (forall e, (governance tR tS key c).1 = Throw e ->
     run.1 = Throw e /\ inFlight run.2 = inFlight c /\ effects run.2 = effects c).

(** ** Sample data *)

Definition demoKey : list N := Js.lit "cid:demo-client-1".

Definition demoBody : Body :=
  {| bodyMessage := Js.lit "Mi a legolcsobb leves?";
     bodyHistory := [];
     bodyCategory := Js.lit "auto";
     clientId := Some (Js.lit "demo-client-1") |}.

Definition demoIp : list N := Js.lit "203.0.113.7".

Definition demoEnv : Env :=
  {| tRate := 1000; tSpam := 1000; tCleanup := 1001; tLookup := 1001;
     tStore := 2500;
     retrievalFailure := None;
     completion := Ret (Js.lit " Hello ");
     streamCreation := None;
     streamParts := [Js.lit "Hel"; Js.lit "lo"];
     streamFailure := None |}.

(** A client at the spam cap inside its window, and one request on record. *)
Definition atCap : Ctx :=
  setSpamState (insert demoKey (Spam.mk 1000 30 0 5000)) emptyCtx.

Definition oneRecorded : Ctx :=
  setSpamState (insert demoKey (Spam.mk 1000 1 0 1000)) emptyCtx.

(** The miss path of [computeReply]: everything after the cache test. *)
Definition regenerate (env : Env) (cacheKey : list N) : M (list N * bool) :=
  retrievalStage env ;;
  content ← chatCompletion env;
  let reply := Js.orElse (Js.trim content) [] in
  modify (setCache (insert cacheKey {| ts := tStore env; reply := reply |})) ;;
  ret (reply, false).

(** How many times the generation capability was invoked. *)
Definition generations (effs : list Effect) : nat :=
  length (List.filter (fun e => match e with ChatCompletion => true | _ => false end)
                      effs).

(** Two messages that agree on their first 600 code units only, and two
    histories whose last four turns agree on role and on the first 140 code
    units of the content only. *)
Definition longMessage (ending : string) : list N :=
  replicate 600 97%N ++ Js.lit ending.

Definition longTurn (who ending : string) : Turn :=
  {| role := Js.lit who; content := replicate 140 98%N ++ Js.lit ending |}.

Definition historyA : list Turn :=
  [longTurn "user" "?"; longTurn "assistant" "1"; longTurn "user" "2";
   longTurn "assistant" "3"].

Definition historyB : list Turn :=
  [longTurn "user" "dropped"; longTurn "user" "!"; longTurn "assistant" "4";
   longTurn "user" "5"; longTurn "assistant" "6"].

(** A cache holding one answer stored at time 5000 for the sample request. *)
Definition answeredOnce : Ctx :=
  setCache (insert (makeCacheKey (bodyMessage demoBody) [] (Js.lit "auto"))
                   {| ts := 5000; reply := Js.lit "Lencseleves." |})
           emptyCtx.

Definition laterEnv (now : Z) : Env :=
  {| tRate := now; tSpam := now; tCleanup := now; tLookup := now;
     tStore := now + 900;
     retrievalFailure := None;
     completion := Ret (Js.lit " Hello ");
     streamCreation := None;
     streamParts := [Js.lit "Hel"; Js.lit "lo"];
     streamFailure := None |}.

(** A request that arrives as the entry of [answeredOnce] turns stale: the
    cleanup pass reads the clock when the entry is exactly [CACHE_TTL] old,
    the lookup one millisecond later. *)
Definition turningStaleEnv : Env :=
  {| tRate := 5000 + CACHE_TTL; tSpam := 5000 + CACHE_TTL;
     tCleanup := 5000 + CACHE_TTL; tLookup := 5000 + CACHE_TTL + 1;
     tStore := 5000 + CACHE_TTL + 900;
     retrievalFailure := None;
     completion := Ret (Js.lit " Hello ");
     streamCreation := None;
     streamParts := [Js.lit "Hel"; Js.lit "lo"];
     streamFailure := None |}.

(** ** AnswerStreamer: the wire protocol in the words of the specification *)

Definition emits (es : list Effect) (c : Ctx) : Ctx :=
  {| cache := cache c; spamState := spamState c; rateState := rateState c;
     inFlight := inFlight c; effects := effects c ++ es |}.

(** The events written to the stream, in order. *)
Definition wire (effs : list Effect) : list WireEvent :=
  flat_map (fun e => match e with StreamWrite ev => [ev] | _ => [] end) effs.

(** The fragments of a streamed generation: its non-empty deltas. *)
Definition fragments (env : Env) : list (list N) :=
  List.filter Js.truthy (streamParts env).

(** The failure that stops the answer, if any: of the retrieval stage, of the
    creation of the stream, or in the middle of the stream. *)
Definition failureBeforeStream (env : Env) : option Err :=
  match retrievalFailure env with
  | Some e => Some e
  | None => streamCreation env
  end.

(** The events the specification asks for: on a cache hit the cached answer
    as one fragment, then the terminal event; otherwise one event per
    fragment, an error marker if the generation failed, then the terminal
    event. *)
Definition expectedEvents (env : Env) (hit : option CacheEntry) : list WireEvent :=
  match hit with
  | Some cached => [DeltaEvent (reply cached) true; DoneEvent]
  | None =>
      match failureBeforeStream env with
      | Some _ => [ErrorEvent; DoneEvent]
      | None =>
          map (fun d => DeltaEvent d false) (fragments env)
            ++ match streamFailure env with
               | Some _ => [ErrorEvent; DoneEvent]
               | None => [DoneEvent]
               end
      end
  end.

(** The outcome the specification asks for. *)
Definition expectedOutcome (env : Env) (hit : option CacheEntry) : Outcome unit :=
  match hit with
  | Some _ => Ret tt
  | None =>
      match failureBeforeStream env with
      | Some e => Throw e
      | None => match streamFailure env with
                | Some e => Throw e
                | None => Ret tt
                end
      end
  end.

Definition isDone (ev : WireEvent) : bool :=
  match ev with DoneEvent => true | _ => false end.

(** ** CorpusIndexer: the line-packing chunker *)

Definition consHead (c : N) (lines : list (list N)) : list (list N) :=
  match lines with
  | line :: rest => (c :: line) :: rest
  | [] => [[c]]
  end.

(** [text.split(/\r?\n/)]: a line feed, with the carriage return right before
    it if there is one, separates two lines. *)
Fixpoint splitLines (s : list N) : list (list N) :=
  match s with
  | [] => [[]]
  | c :: r =>
      if (c =? Js.LF)%N then [] :: splitLines r
      else
        match r with
        | d :: r' =>
            if (c =? Js.CR)%N && (d =? Js.LF)%N then [] :: splitLines r'
            else consHead c (splitLines r)
        | [] => [[c]]
        end
  end.

Module Chunk.
Record t : Type := mk { id : list N; key : list N; text : list N }.
End Chunk.

(** One turn of the loop of [chunkSection] on the pair [(chunks, buf)]. *)
Definition packLine (st : list (list N) * list N) (line : list N)
  : list (list N) * list N :=
  let (chunks, buf) := st in
  let next := if Js.truthy buf then buf ++ [Js.LF] ++ line else line in
  if (MAX_EMBED_CHUNK_CHARS <? length next)%nat && Js.truthy buf
  then (chunks ++ [Js.trim buf], line)
  else (chunks, next).

(** The loop and the final flush. *)
Definition packLines (lines : list (list N)) : list (list N) :=
  let (chunks, buf) := fold_left packLine lines ([], []) in
  if Js.truthy (Js.trim buf) then chunks ++ [Js.trim buf] else chunks.

(** [chunkSection(key, text)]. *)
Definition chunkSection (key text : list N) : list Chunk.t :=
  let lines := splitLines text in
  imap (fun i chunk => Chunk.mk (key ++ Js.lit ":" ++ Js.decimal (i + 1)) key chunk)
       (packLines lines).

(** The text of a section with all white space removed. *)
Definition squeeze (s : list N) : list N :=
  List.filter (fun c => negb (Js.isWhiteSpace c)) s.

(** A line that is not empty and carries no white space at either end. *)
Definition solid (line : list N) : Prop := line <> [] /\ Js.trim line = line.

(** A section whose first line is longer than the cap and is followed by a
    blank line. *)
Definition overlongThenBlank : list N :=
  replicate 1401 97%N ++ [Js.LF; Js.LF] ++ Js.lit "b".

Definition twoLines : list N := Js.lit "Humusz 2900" ++ [Js.LF] ++ Js.lit "Falafel 3100".

(** A chunk text respects the cap, or is one line of the section, trimmed,
    that is itself longer than the cap. *)
Definition withinCap (lines : list (list N)) (s : list N) : Prop :=
  (length s <= MAX_EMBED_CHUNK_CHARS)%nat \/
  exists line, line ∈ lines /\ (MAX_EMBED_CHUNK_CHARS < length line)%nat /\
               s = Js.trim line.

(** ** Retriever *)

(** The loop of [cosineSimilarity]: [i] runs over the indices of [a]; an
    index past the end of [b] reads [undefined], which is NaN in the
    arithmetic. The accumulator is [(dot, normA, normB)]. *)
Fixpoint accumulate (a b : list float) (acc : float * float * float)
  : float * float * float :=
  match a with
  | [] => acc
  | x :: a' =>
      let y := hd nan b in
      let '(dot, normA, normB) := acc in
      accumulate a' (tl b) (dot + x * y, normA + x * x, normB + y * y)%float
  end.

(** A number is falsy when it is zero (of either sign) or NaN. *)
Definition falsy (x : float) : bool := (x =? 0)%float || is_nan x.

(** [x || 1]. *)
Definition orOne (x : float) : float := if falsy x then 1%float else x.

(** [cosineSimilarity(a, b)]. *)
Definition cosineSimilarity (a b : list float) : float :=
  let '(dot, normA, normB) := accumulate a b (0, 0, 0)%float in
  (dot / orOne (sqrt normA * sqrt normB))%float.






(** An entry of [scored]. *)
Record Scored : Type := { idx : nat; score : float }.

Definition scoreAll (queryEmbedding : list float) (embeddings : list (list float))
  : list Scored :=
  imap (fun i vec => {| idx := i; score := cosineSimilarity queryEmbedding vec |})
       embeddings.

(** The comparator [(a, b) => b.score - a.score]. *)
Definition byScoreDesc (a b : Scored) : float := (score b - score a)%float.

(** [x] has to come after [y]: the comparator is positive on [(x, y)]. *)
Definition after (x y : Scored) : bool := (0 <? byScoreDesc x y)%float.

(** [Array.prototype.sort] with a comparator. The language fixes its result
    for a comparator that is consistent on the elements: the rearrangement
    in which no element has to come after a later one and elements that
    compare equal keep their order (the sort is stable). That result is
    computed here by insertion from the right: an element moves behind the
    elements the comparator puts it after, and behind no other. Where the
    comparator is not consistent (a NaN among scores that differ) the
    language leaves the order to the engine, and nothing is stated of it:
    the properties of the ranking take [consistentOn] as a hypothesis. *)
Fixpoint insertSorted (x : Scored) (l : list Scored) : list Scored :=
  match l with
  | [] => [x]
  | y :: l' => if after x y then y :: insertSorted x l' else x :: l
  end.

Definition sortByScore (l : list Scored) : list Scored :=
  foldr insertSorted [] l.

(** The comparator orders the entries of [l] consistently. *)
Definition consistentOn (l : list Scored) : Prop :=
  (forall x y, x ∈ l -> y ∈ l -> after x y = true -> after y x = false) /\
  (forall x y z, x ∈ l -> y ∈ l -> z ∈ l ->
     after x y = false -> after y z = false -> after x z = false).




(** ** IntentClassifier *)

Definition intents : list (list N) :=
  map Js.lit ["recommendation"; "cheapest"; "comparison"; "general"]%string.

(** [detectIntent(client, queryEmbedding)], given the embeddings of the four
    prototypes: the pair [(key, score)] of the best one; a later prototype
    replaces the best only with a strictly greater score. *)
Definition detectIntent (queryEmbedding : list float)
    (intentEmbeddings : list (list float)) : list N * float :=
  fold_left
    (fun (best : list N * float) (p : list N * list float) =>
       let score := cosineSimilarity queryEmbedding p.2 in
       if (best.2 <? score)%float then (p.1, score) else best)
    (zip intents intentEmbeddings)
    (Js.lit "general", (-1)%float).

(** ** ContextAssembler *)

Definition topKFor (intentKey : list N) : nat :=
  if bool_decide (intentKey = Js.lit "cheapest")
     || bool_decide (intentKey = Js.lit "comparison")
  then RETRIEVAL_TOP_K_BROAD
  else RETRIEVAL_TOP_K_DEFAULT.

Definition hasKey (k : list N) (c : Chunk.t) : bool :=
  bool_decide (Chunk.key c = k).

(** The [Map] named [unique], in insertion order. *)
Definition mapHas (k : list N) (m : list (list N * Chunk.t)) : bool :=
  existsb (fun kv => bool_decide (kv.1 = k)) m.

(** [if (!unique.has(chunk.id)) unique.set(chunk.id, chunk)]. *)
Definition addUnique (m : list (list N * Chunk.t)) (chunk : Chunk.t)
  : list (list N * Chunk.t) :=
  if mapHas (Chunk.id chunk) m then m else m ++ [(Chunk.id chunk, chunk)].

(** The block of a chunk, as the template literal builds it:
    [### KEY (id)], a line feed, the text. *)
Definition block (chunk : Chunk.t) : list N :=
  Js.lit "### " ++ Js.toUpperCase (Chunk.key chunk) ++ Js.lit " ("
    ++ Chunk.id chunk ++ Js.lit ")" ++ [Js.LF] ++ Chunk.text chunk.

(** [buildMenuContextForQuery({ client, restaurantInfo, message })] after its
    awaited calls: from the chunks and their embeddings, the embedding of the
    query and those of the intent prototypes, the context and the intent
    key. [chunks[s.idx]] is [undefined] past the end of [chunks], and reading
    its [id] throws: the result is [None] then. *)
Definition buildMenuContextForQuery (chunks : list Chunk.t)
    (embeddings : list (list float)) (queryEmbedding : list float)
    (intentEmbeddings : list (list float)) : option (list N * list N) :=
  let intent := detectIntent queryEmbedding intentEmbeddings in
  let scored := sortByScore (scoreAll queryEmbedding embeddings) in
  let topK := topKFor intent.1 in
  selected ← mapM (fun s => chunks !! idx s) (take topK scored);
  let intro := take 1 (List.filter (hasKey (Js.lit "intro")) chunks) in
  let footer := take 1 (List.filter (hasKey (Js.lit "footer")) chunks) in
  let unique := fold_left addUnique (intro ++ footer ++ selected) [] in
  let menuContext :=
    take MAX_MENU_CHUNK
         (Js.join [Js.LF; Js.LF] (map block (map snd unique))) in
  Some (menuContext, intent.1).





(** A small corpus with its embeddings, a query nearest the drinks chunk, and
    prototype embeddings that make "cheapest" the intent. *)
Definition demoChunks : list Chunk.t :=
  [Chunk.mk (Js.lit "intro:1") (Js.lit "intro") (Js.lit "Nyitva 12-22");
   Chunk.mk (Js.lit "meze:1") (Js.lit "meze") (Js.lit "Humusz 2900");
   Chunk.mk (Js.lit "drinks:1") (Js.lit "drinks") (Js.lit "Limonade 1500");
   Chunk.mk (Js.lit "footer:1") (Js.lit "footer")
            (Js.lit "Az arak forintban ertendoek")].

Definition demoEmbeddings : list (list float) :=
  [[1; 1]; [1; 0]; [0; 1]; [1; 1]]%float.

Definition demoQuery : list float := [0; 1]%float.

Definition demoIntentEmbeddings : list (list float) :=
  [[1; 0]; [0; 1]; [1; 1]; [1; 0]]%float.

(** ** Further sample data *)

(** A request without a message. *)
Definition emptyBody : Body :=
  {| bodyMessage := []; bodyHistory := []; bodyCategory := Js.lit "auto";
     clientId := Some (Js.lit "demo-client-1") |}.

(** A generation that produces "Hello", in one piece and in two parts. *)
Definition wholeOrParts : Env :=
  {| tRate := 1000; tSpam := 1000; tCleanup := 1001; tLookup := 1001;
     tStore := 2500;
     retrievalFailure := None;
     completion := Ret (Js.lit "Hello");
     streamCreation := None;
     streamParts := [Js.lit "Hel"; Js.lit "lo"];
     streamFailure := None |}.

(** ** The entry point *)

(** [String.prototype.endsWith]. *)
Definition endsWith (s suffix : list N) : bool :=
  bool_decide (Js.lastN (length suffix) s = suffix).

(** The message text of an error. *)
Definition errorText (name : ErrorName) : list N :=
  match name with
  | RATE_LIMIT => Js.lit "RATE_LIMIT"
  | COOLDOWN => Js.lit "COOLDOWN"
  | TOO_FAST => Js.lit "TOO_FAST"
  | SPAM_WINDOW => Js.lit "SPAM_WINDOW"
  | BUSY => Js.lit "BUSY"
  | OtherError msg => msg
  end.

(** A number property read for its truth value: absent and zero are falsy. *)
Definition truthyNumber (z : option Z) : option Z :=
  match z with
  | Some v => if truthyZ v then Some v else None
  | None => None
  end.

(** The JSON error response built in the [catch] of [handlerImpl]: the status,
    the number put in the [Retry-After] header if there is one, and the
    [error] and [retryAfterSec] properties of the payload. *)
Record ErrorResponse : Type := {
  errStatus : Z;
  errRetryAfterHeader : option Z;
  errError : list N;
  errRetryAfterSec : option Z;
}.

Definition errorResponse (err : Err) : ErrorResponse :=
  let status := default 500 (truthyNumber (statusCode err)) in
  {| errStatus := status;
     errRetryAfterHeader :=
       if status =? 429 then truthyNumber (retryAfterSec err) else None;
     errError := Js.orElse (errorText (message err)) (Js.lit "SERVER_ERROR");
     errRetryAfterSec := truthyNumber (retryAfterSec err) |}.

(** What [getReqMeta], [readBodyAsJson] and [getIp] read from the event; the
    body is [None] when it is no JSON. An empty body parses to an object
    without properties. *)
Record Request : Type := {
  reqMethod : list N;
  reqPath : list N;
  reqBody : option Body;
  reqIp : list N;
}.

Definition invalidJson : Err :=
  {| message := OtherError (Js.lit "Invalid JSON body"); statusCode := Some 400;
     retryAfterSec := None; spam := false |}.

(** [readBodyAsJson(event)]. *)
Definition readBodyAsJson (req : Request) : M Body :=
  match reqBody req with
  | Some body => ret body
  | None => throw invalidJson
  end.

(** A JSON response sent on the stream: [HttpResponseStream.from] with the
    status, the body written, the stream ended. The stream is taken to
    accept every write and every end: the journal records the calls. *)
Definition respond (status : Z) : M unit :=
  perform (StreamWrite (BodyEvent status)) ;; perform StreamEnd.

(** [handlerImpl] where response streaming is available. The chat handlers
    parse the body themselves, before anything else. *)
Definition handlerImpl (env : Env) (req : Request) : M unit :=
  let method := reqMethod req in
  if bool_decide (method = Js.lit "OPTIONS") then perform StreamEnd
  else
    let p := Js.orElse (reqPath req) (Js.lit "/") in
    let ends suffix := bool_decide (p = suffix) || endsWith p suffix in
    tryCatch
      (if bool_decide (method = Js.lit "GET") && ends (Js.lit "/health") then
         respond 200
       else if bool_decide (method = Js.lit "POST")
               && ends (Js.lit "/api/chat-stream") then
         body ← readBodyAsJson req;
         handleChatStream env body (reqIp req)
       else if bool_decide (method = Js.lit "POST") && ends (Js.lit "/api/chat") then
         body ← readBodyAsJson req;
         out ← handleChatBuffered env body (reqIp req);
         respond (responseStatus out)
       else respond 404)
      (fun err => respond (errStatus (errorResponse err))).

(** The outcome of [routeBuffered]: the status of the response it returns. *)
Definition routeBuffered (env : Env) (req : Request) : M Z :=
  let method := reqMethod req in
  if bool_decide (method = Js.lit "OPTIONS") then ret 204
  else
    let p := Js.orElse (reqPath req) (Js.lit "/") in
    let ends suffix := bool_decide (p = suffix) || endsWith p suffix in
    if bool_decide (method = Js.lit "GET") && ends (Js.lit "/health") then ret 200
    else if bool_decide (method = Js.lit "POST") && ends (Js.lit "/api/chat") then
      body ← readBodyAsJson req;
      out ← handleChatBuffered env body (reqIp req);
      ret (responseStatus out)
    else if bool_decide (method = Js.lit "POST")
            && ends (Js.lit "/api/chat-stream") then
      body ← readBodyAsJson req;
      out ← handleChatBuffered env body (reqIp req);
      ret (responseStatus out)
    else ret 404.

(** How many times the stream was ended in a run of effects. *)
Definition streamEnds (effs : list Effect) : nat :=
  length (List.filter (fun e => match e with StreamEnd => true | _ => false end)
                      effs).


Definition chatRequest : Request :=
  {| reqMethod := Js.lit "POST"; reqPath := Js.lit "/api/chat";
     reqBody := Some demoBody; reqIp := demoIp |}.


(** ** CorpusIndexer: sections, chunks and their embeddings *)

(** The regular expressions of [splitSections]. *)
Inductive Rx : Type :=
| RX_MEZE | RX_SOUPS | RX_OVEN | RX_CHAR | RX_CLASSICS | RX_SEA | RX_SALADS
| RX_SIDES | RX_DESSERTS | RX_DRINKS | RX_FOOTER.

(** [s.slice(start, stop)] for indices that are not negative. *)
Definition slice (start stop : nat) (s : list N) : list N :=
  take (stop - start) (drop start s).

Module MenuSection.
Record t : Type := mk { key : list N; text : list N }.
End MenuSection.

Record Marker : Type := { markerKey : list N; rx : Rx }.

(** A marker that was found, with the index of its first match. *)
Record Position : Type := { posKey : list N; pos : nat }.

Definition markers : list Marker :=
  [ {| markerKey := Js.lit "meze"; rx := RX_MEZE |};
    {| markerKey := Js.lit "soups"; rx := RX_SOUPS |};
    {| markerKey := Js.lit "oven"; rx := RX_OVEN |};
    {| markerKey := Js.lit "char"; rx := RX_CHAR |};
    {| markerKey := Js.lit "classics"; rx := RX_CLASSICS |};
    {| markerKey := Js.lit "sea"; rx := RX_SEA |};
    {| markerKey := Js.lit "salads"; rx := RX_SALADS |};
    {| markerKey := Js.lit "sides"; rx := RX_SIDES |};
    {| markerKey := Js.lit "desserts"; rx := RX_DESSERTS |};
    {| markerKey := Js.lit "drinks"; rx := RX_DRINKS |} ].

(** [positions.sort((a, b) => a.pos - b.pos)]: stable, so an entry moves
    behind the entries with a smaller position and behind no other. *)
Fixpoint insertByPos (x : Position) (l : list Position) : list Position :=
  match l with
  | [] => [x]
  | y :: l' => if (pos y <? pos x)%nat then y :: insertByPos x l' else x :: l
  end.

Definition sortByPos (l : list Position) : list Position :=
  foldr insertByPos [] l.

(** The loop of [splitSections] over the positions: a section runs from its
    marker to the next marker found, the last one to the end of the text. *)
Fixpoint markerSections (t : list N) (positions : list Position)
  : list MenuSection.t :=
  match positions with
  | [] => []
  | p :: rest =>
      let start := pos p in
      let stop := match rest with q :: _ => pos q | [] => length t end in
      let text := Js.trim (slice start stop t) in
      (if Js.truthy text then [MenuSection.mk (posKey p) text] else [])
        ++ markerSections t rest
  end.

(** [splitSections(restaurantInfo)]. The search for a regular expression is
    a parameter: [indexOfRegex t rx] is the index of the first match of [rx]
    in [t], [None] where the code has -1. *)
Definition splitSections (indexOfRegex : list N -> Rx -> option nat)
    (restaurantInfo : list N) : list MenuSection.t :=
  let t := restaurantInfo in
  let positions :=
    sortByPos
      (omap (fun m => (fun p => {| posKey := markerKey m; pos := p |})
                        <$> indexOfRegex t (rx m))
            markers) in
  let intro :=
    match positions with
    | first :: _ =>
        if (0 <? pos first)%nat
        then [MenuSection.mk (Js.lit "intro") (Js.trim (slice 0 (pos first) t))]
        else []
    | [] =>
        if Js.truthy (Js.trim t)
        then [MenuSection.mk (Js.lit "intro") (take MAX_MENU_CHUNK (Js.trim t))]
        else []
    end in
  let footer :=
    match indexOfRegex t RX_FOOTER with
    | Some footerPos =>
        let footer := Js.trim (drop footerPos t) in
        if Js.truthy footer then [MenuSection.mk (Js.lit "footer") footer] else []
    | None => []
    end in
  List.filter (fun s => Js.truthy (MenuSection.text s))
              (intro ++ markerSections t positions ++ footer).

(** [chunkMenuForEmbedding(restaurantInfo)]. *)
Definition chunkMenuForEmbedding (indexOfRegex : list N -> Rx -> option nat)
    (restaurantInfo : list N) : list Chunk.t :=
  flat_map (fun section =>
              chunkSection (MenuSection.key section) (MenuSection.text section))
           (splitSections indexOfRegex restaurantInfo).

(** The module variables [_cachedMenuChunks] and [_cachedMenuEmbeddings];
    [None] is [undefined]. An array is truthy, also when it is empty. *)
Record IndexCache : Type := {
  cachedMenuChunks : option (list Chunk.t);
  cachedMenuEmbeddings : option (list (list float));
}.

Definition emptyIndexCache : IndexCache :=
  {| cachedMenuChunks := None; cachedMenuEmbeddings := None |}.

(** The loop of [getMenuEmbeddings]. The embedding provider is a parameter:
    [embed n input] is what the [n]-th call of [client.embeddings.create]
    answers on [input], an embedding or a failure. The loop returns the
    inputs it sent, in order, beside its outcome. *)
Fixpoint embedChunks (embed : nat -> list N -> Outcome (list float))
    (chunks : list Chunk.t) (embeddings : list (list float))
    (calls : list (list N)) : Outcome (list (list float)) * list (list N) :=
  match chunks with
  | [] => (Ret embeddings, calls)
  | chunk :: rest =>
      let input := take MAX_EMBED_CHUNK_CHARS (Chunk.text chunk) in
      match embed (length calls) input with
      | Ret embedding =>
          embedChunks embed rest (embeddings ++ [embedding]) (calls ++ [input])
      | Throw err => (Throw err, calls ++ [input])
      end
  end.

(** [getMenuEmbeddings(client, restaurantInfo)]: the outcome, the cache it
    leaves and the inputs sent to the provider. *)
Definition getMenuEmbeddings (indexOfRegex : list N -> Rx -> option nat)
    (embed : nat -> list N -> Outcome (list float)) (restaurantInfo : list N)
    (st : IndexCache)
  : Outcome (list Chunk.t * list (list float)) * IndexCache * list (list N) :=
  match cachedMenuChunks st, cachedMenuEmbeddings st with
  | Some chunks, Some embeddings => (Ret (chunks, embeddings), st, [])
  | _, _ =>
      let chunks := chunkMenuForEmbedding indexOfRegex restaurantInfo in
      match embedChunks embed chunks [] [] with
      | (Ret embeddings, calls) =>
          (Ret (chunks, embeddings),
           {| cachedMenuChunks := Some chunks;
              cachedMenuEmbeddings := Some embeddings |},
           calls)
      | (Throw err, calls) => (Throw err, st, calls)
      end
  end.

(** ** PromptBuilder *)

Definition HISTORY_MAX : nat := 16.
Definition HISTORY_TRIM_LEN : nat := 500.
Definition USER_TRIM_LEN : nat := 1000.

(** The template of the system prompt up to the intent. *)
Definition systemPromptHead : list N :=
  [Js.LF] ++ Js.lit "You are a friendly, professional AI assistant for the T"
  ++ [220%N] ++ Js.lit "RKIZ restaurant website." ++ [Js.LF] ++ [Js.LF]
  ++ Js.lit "SCOPE & ACCURACY" ++ [Js.LF]
  ++ Js.lit "- Answer questions only using the provided restaurant/menu context."
  ++ [Js.LF]
  ++ Js.lit "- If the context does NOT contain the answer, say so clearly and briefly."
  ++ [Js.LF] ++ Js.lit "- NEVER invent dishes, prices, policies, or details."
  ++ [Js.LF] ++ [Js.LF] ++ Js.lit "LANGUAGE & STYLE" ++ [Js.LF]
  ++ Js.lit "- Respond politely and naturally in the customer's language."
  ++ [Js.LF] ++ Js.lit "- Keep it short: 1" ++ [8211%N]
  ++ Js.lit "2 short sentences OR up to 3 simple bullet points." ++ [Js.LF]
  ++ [Js.LF] ++ Js.lit "RECOMMENDATIONS" ++ [Js.LF]
  ++ Js.lit "- If the user asks for a recommendation but provides no preferences, ask 1"
  ++ [8211%N] ++ Js.lit "2 short clarifying questions first." ++ [Js.LF]
  ++ Js.lit "- If preferences are provided, suggest 2" ++ [8211%N]
  ++ Js.lit "3 items from the context only." ++ [Js.LF] ++ [Js.LF]
  ++ Js.lit "COMPARISONS & CHEAPEST" ++ [Js.LF]
  ++ Js.lit "- For comparisons or " ++ [34%N] ++ Js.lit "cheapest" ++ [34%N]
  ++ Js.lit " requests, use prices from the context only." ++ [Js.LF]
  ++ Js.lit "- If you cannot compare due to missing items or prices, say that clearly and ask a clarifying question."
  ++ [Js.LF] ++ [Js.LF] ++ Js.lit "INTENT (internal): ".

(** The template of the context block up to the context. *)
Definition menuContextHead : list N :=
  [Js.LF] ++ Js.lit "RESTAURANT / MENU CONTEXT" ++ [Js.LF]
  ++ Js.lit "Use this text as the ONLY source of truth:" ++ [Js.LF]
  ++ [Js.LF].

(** [buildMessages({ message, history, menuContext, intent })]. The role of
    a turn is passed on as it is; an absent role, absent in the prompt too,
    is the empty string here. *)
Definition buildMessages (message : list N) (history : list Turn)
    (menuContext intent : list N) : list Turn :=
  let systemPrompt :=
    Js.trim (systemPromptHead ++ Js.orElse intent (Js.lit "general") ++ [Js.LF]) in
  let menuContextBlock := Js.trim (menuContextHead ++ menuContext ++ [Js.LF]) in
  let safeHist :=
    map (fun h => {| role := role h;
                     content := take HISTORY_TRIM_LEN (Js.orElse (content h) []) |})
        (Js.lastN HISTORY_MAX history) in
  [ {| role := Js.lit "system"; content := systemPrompt |};
    {| role := Js.lit "system"; content := menuContextBlock |} ]
    ++ safeHist
    ++ [ {| role := Js.lit "user";
            content := take USER_TRIM_LEN (Js.orElse message []) |} ].

(** The sentence the footer expression looks for, with its accented
    letters as code units: a-acute 225, e-acute 233, o-double-acute 337. *)
Definition footerSentence : list N :=
  Js.lit "Az " ++ [225%N] ++ Js.lit "rak forintban " ++ [233%N]
    ++ Js.lit "rtend" ++ [337%N] ++ Js.lit "ek".

(** A menu text with an intro, two marked sections and a footer. *)
Definition demoMenu : list N :=
  Js.lit "Nyitva 12-22" ++ [Js.LF] ++ Js.lit "MEZE / MEZZE" ++ [Js.LF]
    ++ Js.lit "Humusz 2900" ++ [Js.LF] ++ Js.lit "ITALOK / DRINKS" ++ [Js.LF]
    ++ Js.lit "Limonade 1500" ++ [Js.LF] ++ footerSentence.

(** The search on that text: [MEZE / MEZZE] is matched at index 13,
    [ITALOK / DRINKS] at 38 and the footer sentence at 68; the other
    expressions match nowhere in it. On any other text the sample search
    finds nothing. *)
Definition demoSearch (t : list N) (r : Rx) : option nat :=
  if bool_decide (t = demoMenu) then
    match r with
    | RX_MEZE => Some 13%nat
    | RX_DRINKS => Some 38%nat
    | RX_FOOTER => Some 68%nat
    | _ => None
    end
  else None.

(** A provider that answers every input with the same embedding. *)
Definition demoEmbed (n : nat) (input : list N) : Outcome (list float) :=
  Ret [1; 0]%float.

(** A cached index is well formed when it holds one embedding per chunk and
    no two chunks share an id. *)
Definition indexAligned (st : IndexCache) : Prop :=
  forall chunks embeddings,
    cachedMenuChunks st = Some chunks ->
    cachedMenuEmbeddings st = Some embeddings ->
    length embeddings = length chunks /\ NoDup (map Chunk.id chunks).

(** The input sent to the provider for a chunk. *)
Definition embedInput (chunk : Chunk.t) : list N :=
  take MAX_EMBED_CHUNK_CHARS (Chunk.text chunk).

(** The size of a prompt: the code units of the contents of its messages. *)
Definition promptSize (messages : list Turn) : nat :=
  list_sum (map (fun m => length (content m)) messages).

(** How many calls of a run were admitted. *)
Definition admitted (outcomes : list (Outcome unit)) : nat :=
  length (List.filter (fun o => match o with Ret _ => true | Throw _ => false end)
                      outcomes).

(** Successive calls of the spam guard counted like those of the rate
    limiter: the outcome of a call is admitted when it returned. *)
Definition isAdmitted (o : Outcome unit) : bool :=
  match o with Ret _ => true | Throw _ => false end.

(** * Properties *)

(** Boolean comparisons of the code as propositions. *)
Ltac zbool :=
  repeat match goal with
  | H : (_ >? _) = true |- _ => apply Z.gtb_lt in H
  | H : (_ >? _) = false |- _ => rewrite Z.gtb_ltb in H; apply Z.ltb_ge in H
  | H : (_ <? _) = true |- _ => apply Z.ltb_lt in H
  | H : (_ <? _) = false |- _ => apply Z.ltb_ge in H
  | H : (_ =? _) = true |- _ => apply Z.eqb_eq in H
  | H : (_ =? _) = false |- _ => apply Z.eqb_neq in H
  | H : negb _ = true |- _ => apply negb_true_iff in H
  | H : negb _ = false |- _ => apply negb_false_iff in H
  | H : _ && _ = true |- _ => apply andb_true_iff in H; destruct H
  end.

(** Splits a conjunction of postconditions and closes the routine parts. *)
Ltac split_all :=
  repeat match goal with
  | |- _ /\ _ => split
  | |- forall _, _ => intro
  | H : Some _ = Some _ |- _ => injection H as <-
  | H : Some _ = None |- _ => discriminate H
  | H : None = Some _ |- _ => discriminate H
  end;
  try reflexivity; try lia.

(** ** Retry-after arithmetic *)

Lemma ceilSeconds_ceiling (ms : Z) :
  1000 * (ceilSeconds ms - 1) < ms <= 1000 * ceilSeconds ms.
Proof.
  unfold ceilSeconds.
  pose proof (Z.div_mod (- ms) 1000 ltac:(lia)) as Hdm.
  pose proof (Z.mod_pos_bound (- ms) 1000 ltac:(lia)) as Hb.
  lia.
Qed.

Lemma ceilSeconds_mono (a b : Z) : a <= b -> ceilSeconds a <= ceilSeconds b.
Proof.
  intros Hab.
  pose proof (ceilSeconds_ceiling a). pose proof (ceilSeconds_ceiling b). lia.
Qed.

Lemma ceilSeconds_step (a b : Z) :
  a + 1000 <= b -> ceilSeconds a + 1 <= ceilSeconds b.
Proof.
  intros Hab.
  pose proof (ceilSeconds_ceiling a). pose proof (ceilSeconds_ceiling b). lia.
Qed.

Lemma retryAfter_min (ms : Z) : 1 <= retryAfter ms.
Proof. unfold retryAfter. lia. Qed.

Lemma retryAfter_mono (a b : Z) : a <= b -> retryAfter a <= retryAfter b.
Proof. intros H. unfold retryAfter. pose proof (ceilSeconds_mono a b H). lia. Qed.

Lemma retryAfter_block : retryAfter SPAM_BLOCK_MS = 180.
Proof. reflexivity. Qed.

(** ** RateLimiter *)

Definition rateLimitError (r : Z) : Err :=
  {| message := RATE_LIMIT; statusCode := Some 429; retryAfterSec := Some r;
     spam := false |}.

(** C2. One call of the rate limiter: the state of the key is stored on every
    call, also on the failing one; the window restarts when more than the
    window length has elapsed since [windowStart], otherwise the stored count
    grows by one; the call fails RATE_LIMIT exactly when the stored count
    exceeds the cap, with the ceiling of the milliseconds to the window reset
    over 1000, at least 1, as retry-after. *)
Theorem rate_limiter_contract (now : Z) (key : list N) (c : Ctx) :
  exists st' : Rate.state,
    snd (applyRateLimitOrThrow now key c) = setRateState (insert key st') c /\
    (forall st, rateState c !! key = Some st ->
       now - Rate.windowStart st > RL_WINDOW_MS ->
       st' = Rate.mk now 1 (now + RL_WINDOW_MS)) /\
    (forall st, rateState c !! key = Some st ->
       now - Rate.windowStart st <= RL_WINDOW_MS ->
       st' = Rate.mk (Rate.windowStart st) (Rate.count st + 1) (Rate.resetAt st)) /\
    (rateState c !! key = None -> st' = Rate.mk now 1 (now + RL_WINDOW_MS)) /\
    (Rate.count st' <= RL_LIMIT ->
       fst (applyRateLimitOrThrow now key c) = Ret tt) /\
    (Rate.count st' > RL_LIMIT ->
       exists r,
         fst (applyRateLimitOrThrow now key c) = Throw (rateLimitError r) /\
         r = Z.max 1 (ceilSeconds (Rate.resetAt st' - now)) /\
         1 <= r /\
         1000 * (ceilSeconds (Rate.resetAt st' - now) - 1)
           < Rate.resetAt st' - now <= 1000 * ceilSeconds (Rate.resetAt st' - now)).
Proof.
  unfold applyRateLimitOrThrow.
  destruct (rateState c !! key) as [st|] eqn:Hst; cbn [default from_option id].
  - destruct (now - Rate.windowStart st >? RL_WINDOW_MS) eqn:Hw; zbool.
    + exists (Rate.mk now 1 (now + RL_WINDOW_MS)).
      cbn [fst snd Rate.windowStart Rate.count Rate.resetAt].
      change (0 + 1 >? RL_LIMIT) with false. cbn [fst snd].
      unfold RL_LIMIT. split_all.
    + exists (Rate.mk (Rate.windowStart st) (Rate.count st + 1) (Rate.resetAt st)).
      cbn [fst snd Rate.windowStart Rate.count Rate.resetAt].
      destruct (Rate.count st + 1 >? RL_LIMIT) eqn:Hov; zbool; cbn [fst snd];
        split_all.
      exists (retryAfter (Rate.resetAt st - now)).
      pose proof (ceilSeconds_ceiling (Rate.resetAt st - now)).
      unfold retryAfter. split_all.
  - exists (Rate.mk now 1 (now + RL_WINDOW_MS)).
    destruct (now - Rate.windowStart _ >? RL_WINDOW_MS);
      cbn [fst snd Rate.windowStart Rate.count Rate.resetAt];
      change (0 + 1 >? RL_LIMIT) with false; cbn [fst snd];
      unfold RL_LIMIT; split_all.
Qed.

(** Inside the window the call adds one to the stored count and fails when
    the new count is over the cap. *)
Lemma applyRateLimit_within (now : Z) (key : list N) (c : Ctx) (st : Rate.state) :
  rateState c !! key = Some st ->
  now - Rate.windowStart st <= RL_WINDOW_MS ->
  applyRateLimitOrThrow now key c =
    (if Rate.count st + 1 >? RL_LIMIT
     then Throw (rateLimitError (retryAfter (Rate.resetAt st - now)))
     else Ret tt,
     setRateState
       (insert key (Rate.mk (Rate.windowStart st) (Rate.count st + 1) (Rate.resetAt st)))
       c).
Proof.
  intros Hst Hw. unfold applyRateLimitOrThrow. rewrite Hst.
  cbn [default from_option id].
  destruct (now - Rate.windowStart st >? RL_WINDOW_MS) eqn:E; zbool; [lia|].
  cbn [Rate.windowStart Rate.count Rate.resetAt].
  destruct (Rate.count st + 1 >? RL_LIMIT); reflexivity.
Qed.

Lemma applyRateLimit_first (now : Z) (key : list N) (c : Ctx) :
  rateState c !! key = None ->
  applyRateLimitOrThrow now key c =
    (Ret tt, setRateState (insert key (Rate.mk now 1 (now + RL_WINDOW_MS))) c).
Proof.
  intros Hst. unfold applyRateLimitOrThrow. rewrite Hst.
  cbn [default from_option id Rate.windowStart].
  destruct (now - now >? RL_WINDOW_MS); reflexivity.
Qed.

Lemma rateCalls_within (key : list N) (times : list Z) :
  forall (c : Ctx) (st : Rate.state),
    rateState c !! key = Some st ->
    Forall (fun t => t - Rate.windowStart st <= RL_WINDOW_MS) times ->
    forall (i : nat) (o : Outcome unit),
      (rateCalls key times c).1 !! i = Some o ->
      (Rate.count st + Z.of_nat i + 1 <= RL_LIMIT -> o = Ret tt) /\
      (Rate.count st + Z.of_nat i + 1 > RL_LIMIT ->
         exists r, o = Throw (rateLimitError r) /\ 1 <= r).
Proof.
  induction times as [|t rest IH]; intros c st Hst Hall i o Hi.
  - discriminate Hi.
  - apply Forall_cons in Hall as [Ht Hrest].
    cbn [rateCalls] in Hi.
    rewrite (applyRateLimit_within t key c st Hst Ht) in Hi.
    set (st' := Rate.mk _ _ _) in Hi.
    set (c1 := setRateState _ c) in Hi.
    destruct (rateCalls key rest c1) as [os c2] eqn:Hrec.
    destruct i as [|i]; cbn in Hi.
    + injection Hi as <-.
      destruct (Rate.count st + 1 >? RL_LIMIT) eqn:E; zbool; split_all.
      eexists. split; [reflexivity|]. apply retryAfter_min.
    + assert (Hst' : rateState c1 !! key = Some st')
        by (subst c1; cbn; apply lookup_insert_eq).
      specialize (IH c1 st' Hst' Hrest i o).
      rewrite Hrec in IH. specialize (IH Hi).
      subst st'. cbn [Rate.count] in IH.
      replace (Rate.count st + Z.of_nat (S i) + 1)
        with (Rate.count st + 1 + Z.of_nat i + 1) by lia.
      exact IH.
Qed.

(** More calls than the cap inside one window, from a client not seen
    before: the first [RL_LIMIT] calls pass and every further one fails
    RATE_LIMIT with a retry-after of at least one second. *)
Lemma rate_limiter_burst (key : list N) (t0 : Z) (rest : list Z) (c : Ctx) :
  rateState c !! key = None ->
  Forall (fun t => t - t0 <= RL_WINDOW_MS) rest ->
  forall (i : nat) (o : Outcome unit),
    (rateCalls key (t0 :: rest) c).1 !! i = Some o ->
    ((i < 12)%nat -> o = Ret tt) /\
    ((12 <= i)%nat -> exists r, o = Throw (rateLimitError r) /\ 1 <= r).
Proof.
  intros Hnone Hall i o Hi.
  cbn [rateCalls] in Hi. rewrite (applyRateLimit_first t0 key c Hnone) in Hi.
  set (c1 := setRateState _ c) in Hi.
  destruct (rateCalls key rest c1) as [os c2] eqn:Hrec.
  destruct i as [|i]; cbn in Hi.
  - injection Hi as <-. split_all.
  - assert (Hst' : rateState c1 !! key = Some (Rate.mk t0 1 (t0 + RL_WINDOW_MS)))
      by (subst c1; cbn; apply lookup_insert_eq).
    pose proof (rateCalls_within key rest c1 _ Hst' Hall i o) as H.
    rewrite Hrec in H. specialize (H Hi). cbn [Rate.count] in H.
    unfold RL_LIMIT in H. destruct H as [Hok Hko]. split; intros Hlt.
    + apply Hok. lia.
    + apply Hko. lia.
Qed.

(** ** SpamGuard *)

(** Rule 1: while [blockedUntil] is in the future the call fails COOLDOWN with
    the seconds remaining and writes nothing. *)
Lemma spam_cooldown (now : Z) (key : list N) (c : Ctx) (st : Spam.state) :
  spamState c !! key = Some st ->
  Spam.blockedUntil st <> 0 ->
  now < Spam.blockedUntil st ->
  applySpamGuardOrThrow now key c =
    (Throw (spamError COOLDOWN (retryAfter (Spam.blockedUntil st - now))), c).
Proof.
  intros Hst Hnz Hlt. unfold applySpamGuardOrThrow. rewrite Hst.
  cbn [default from_option id]. unfold truthyZ.
  destruct (Spam.blockedUntil st =? 0) eqn:E0; zbool; [contradiction|].
  destruct (now <? Spam.blockedUntil st) eqn:E1; zbool; [|lia].
  reflexivity.
Qed.

(** Rule 2: closer than the minimum interval to the last recorded request,
    with no cooldown active. *)
Lemma spam_too_fast (now : Z) (key : list N) (c : Ctx) (st : Spam.state) :
  spamState c !! key = Some st ->
  Spam.blockedUntil st = 0 \/ Spam.blockedUntil st <= now ->
  Spam.lastAt st <> 0 ->
  now - Spam.lastAt st < MIN_INTERVAL_MS ->
  applySpamGuardOrThrow now key c =
    (Throw (spamError TOO_FAST 3),
     setSpamState
       (insert key (Spam.mk (Spam.windowStart st) (Spam.count st) (now + 3000)
                            (Spam.lastAt st)))
       c).
Proof.
  intros Hst Hfree Hrec Hfast. unfold applySpamGuardOrThrow. rewrite Hst.
  cbn [default from_option id]. unfold truthyZ.
  replace (negb (Spam.blockedUntil st =? 0) && (now <? Spam.blockedUntil st))
    with false.
  2:{ symmetry. apply andb_false_iff.
      destruct Hfree as [H0|Hle]; [left|right].
      - rewrite H0. reflexivity.
      - apply Z.ltb_ge. exact Hle. }
  destruct (Spam.lastAt st =? 0) eqn:E0; zbool; [contradiction|].
  destruct (now - Spam.lastAt st <? MIN_INTERVAL_MS) eqn:E1; zbool; [|lia].
  reflexivity.
Qed.

(** Rule 3: the call that takes the window count over the cap. *)
Lemma spam_window_exceeded (now : Z) (key : list N) (c : Ctx) (st : Spam.state) :
  spamState c !! key = Some st ->
  Spam.blockedUntil st = 0 \/ Spam.blockedUntil st <= now ->
  Spam.lastAt st = 0 \/ MIN_INTERVAL_MS <= now - Spam.lastAt st ->
  now - Spam.windowStart st <= SPAM_WINDOW_MS ->
  SPAM_LIMIT <= Spam.count st ->
  applySpamGuardOrThrow now key c =
    (Throw (spamError SPAM_WINDOW (retryAfter SPAM_BLOCK_MS)),
     setSpamState
       (insert key (Spam.mk (Spam.windowStart st) (Spam.count st + 1)
                            (now + SPAM_BLOCK_MS) now))
       c).
Proof.
  intros Hst Hfree Hslow Hwin Hcap. unfold applySpamGuardOrThrow. rewrite Hst.
  cbn [default from_option id]. unfold truthyZ.
  replace (negb (Spam.blockedUntil st =? 0) && (now <? Spam.blockedUntil st))
    with false.
  2:{ symmetry. apply andb_false_iff.
      destruct Hfree as [H0|Hle]; [left|right].
      - rewrite H0. reflexivity.
      - apply Z.ltb_ge. exact Hle. }
  replace (negb (Spam.lastAt st =? 0) && (now - Spam.lastAt st <? MIN_INTERVAL_MS))
    with false.
  2:{ symmetry. apply andb_false_iff.
      destruct Hslow as [H0|Hle]; [left|right].
      - rewrite H0. reflexivity.
      - apply Z.ltb_ge. exact Hle. }
  destruct (now - Spam.windowStart st >? SPAM_WINDOW_MS) eqn:E; zbool; [lia|].
  cbn [Spam.windowStart Spam.count Spam.blockedUntil Spam.lastAt].
  destruct (Spam.count st + 1 >? SPAM_LIMIT) eqn:E1; zbool; [|lia].
  reflexivity.
Qed.

(** Calls made while the block lasts all fail COOLDOWN and leave the whole
    state as it was. *)
Lemma spamCalls_blocked (key : list N) (c : Ctx) (st : Spam.state) (times : list Z) :
  spamState c !! key = Some st ->
  Spam.blockedUntil st <> 0 ->
  Forall (fun t => t < Spam.blockedUntil st) times ->
  spamCalls key times c =
    (map (fun t => Throw (spamError COOLDOWN (retryAfter (Spam.blockedUntil st - t))))
         times, c).
Proof.
  intros Hst Hnz. induction times as [|t rest IH]; intros Hall.
  - reflexivity.
  - apply Forall_cons in Hall as [Ht Hrest].
    cbn [spamCalls map]. rewrite (spam_cooldown t key c st Hst Hnz Ht).
    rewrite (IH Hrest). reflexivity.
Qed.

(** C3. The call that takes the window count over the cap sets [blockedUntil]
    to now plus the block duration and fails SPAM_WINDOW with the block
    duration in seconds as retry-after; every later call made while
    [blockedUntil] is in the future fails COOLDOWN with the seconds
    remaining and leaves the state, the window counter included, untouched. *)
Theorem spam_window_block (now : Z) (key : list N) (c : Ctx) (st : Spam.state) :
  0 <= now ->
  spamState c !! key = Some st ->
  Spam.blockedUntil st = 0 \/ Spam.blockedUntil st <= now ->
  Spam.lastAt st = 0 \/ MIN_INTERVAL_MS <= now - Spam.lastAt st ->
  now - Spam.windowStart st <= SPAM_WINDOW_MS ->
  SPAM_LIMIT <= Spam.count st ->
  let blocked := Spam.mk (Spam.windowStart st) (Spam.count st + 1)
                         (now + SPAM_BLOCK_MS) now in
  let c1 := setSpamState (insert key blocked) c in
  applySpamGuardOrThrow now key c
    = (Throw (spamError SPAM_WINDOW (SPAM_BLOCK_MS / 1000)), c1) /\
  spamState c1 !! key = Some blocked /\
  forall later : list Z,
    Forall (fun t => t < now + SPAM_BLOCK_MS) later ->
    (spamCalls key later c1).2 = c1 /\
    (spamCalls key later c1).1 =
      map (fun t => Throw (spamError COOLDOWN
                             (Z.max 1 (ceilSeconds (now + SPAM_BLOCK_MS - t)))))
          later.
Proof.
  intros Hnow Hst Hfree Hslow Hwin Hcap blocked c1.
  assert (Hc1 : spamState c1 !! key = Some blocked)
    by (subst c1; cbn; apply lookup_insert_eq).
  split; [|split; [exact Hc1|]].
  - rewrite (spam_window_exceeded now key c st Hst Hfree Hslow Hwin Hcap).
    reflexivity.
  - intros later Hlater.
    assert (Hnz : Spam.blockedUntil blocked <> 0)
      by (subst blocked; cbn; unfold SPAM_BLOCK_MS; lia).
    rewrite (spamCalls_blocked key c1 blocked later Hc1 Hnz Hlater).
    split; reflexivity.
Qed.

(** C4. A call closer than the minimum interval to the last recorded request
    (no cooldown being active) fails TOO_FAST with retry-after 3 and sets
    [blockedUntil] to now plus 3000 ms; a further call before that instant
    fails COOLDOWN and changes nothing, with a retry-after that never grows
    as time passes and drops with every full second while above its
    minimum. *)
Theorem spam_too_fast_then_cooldown
    (now : Z) (key : list N) (c : Ctx) (st : Spam.state) :
  0 <= now ->
  spamState c !! key = Some st ->
  Spam.lastAt st <> 0 ->
  Spam.blockedUntil st = 0 \/ Spam.blockedUntil st <= now ->
  now - Spam.lastAt st < MIN_INTERVAL_MS ->
  let cooled := Spam.mk (Spam.windowStart st) (Spam.count st) (now + 3000)
                        (Spam.lastAt st) in
  let c1 := setSpamState (insert key cooled) c in
  applySpamGuardOrThrow now key c = (Throw (spamError TOO_FAST 3), c1) /\
  (forall t, t < now + 3000 ->
     applySpamGuardOrThrow t key c1
       = (Throw (spamError COOLDOWN (retryAfter (now + 3000 - t))), c1)) /\
  (forall t1 t2, t1 <= t2 ->
     retryAfter (now + 3000 - t2) <= retryAfter (now + 3000 - t1)) /\
  (forall t1 t2, t1 + 1000 <= t2 ->
     1 < retryAfter (now + 3000 - t1) ->
     retryAfter (now + 3000 - t2) < retryAfter (now + 3000 - t1)).
Proof.
  intros Hnow Hst Hrec Hfree Hfast cooled c1.
  assert (Hc1 : spamState c1 !! key = Some cooled)
    by (subst c1; cbn; apply lookup_insert_eq).
  split; [|split; [|split]].
  - apply (spam_too_fast now key c st Hst Hfree Hrec Hfast).
  - intros t Ht.
    assert (Hnz : Spam.blockedUntil cooled <> 0) by (subst cooled; cbn; lia).
    apply (spam_cooldown t key c1 cooled Hc1 Hnz). exact Ht.
  - intros t1 t2 Hle. apply retryAfter_mono. lia.
  - intros t1 t2 Hstep Habove. unfold retryAfter in *.
    pose proof (ceilSeconds_step (now + 3000 - t2) (now + 3000 - t1) ltac:(lia)).
    lia.
Qed.

(** ** InFlightGuard *)

Ltac munfold :=
  unfold governance, mbind, M_bind, bind, mret, M_ret, ret, throw, perform,
    modify, answered, getCtx, failWith, tryFinally, tryCatch in *.

Lemma busy_when_outstanding (key : list N) (c : Ctx) :
  default false (inFlight c !! key) = true ->
  applyBusyGuardOrThrow key c = (Throw busyError, c).
Proof. intros H. unfold applyBusyGuardOrThrow. rewrite H. reflexivity. Qed.

Lemma busy_when_free (key : list N) (c : Ctx) :
  default false (inFlight c !! key) = false ->
  applyBusyGuardOrThrow key c
    = (Ret tt, emit (InFlightSet key) (setInFlight (insert key true) c)).
Proof. intros H. unfold applyBusyGuardOrThrow. rewrite H. reflexivity. Qed.

Lemma applyRateLimit_frame (now : Z) (key : list N) (c : Ctx) :
  inFlight (applyRateLimitOrThrow now key c).2 = inFlight c /\
  effects (applyRateLimitOrThrow now key c).2 = effects c /\
  cache (applyRateLimitOrThrow now key c).2 = cache c /\
  spamState (applyRateLimitOrThrow now key c).2 = spamState c.
Proof.
  unfold applyRateLimitOrThrow.
  repeat match goal with |- context [if ?b then _ else _] => destruct b end;
    cbn; auto.
Qed.

Lemma applySpamGuard_frame (now : Z) (key : list N) (c : Ctx) :
  inFlight (applySpamGuardOrThrow now key c).2 = inFlight c /\
  effects (applySpamGuardOrThrow now key c).2 = effects c /\
  cache (applySpamGuardOrThrow now key c).2 = cache c /\
  rateState (applySpamGuardOrThrow now key c).2 = rateState c.
Proof.
  unfold applySpamGuardOrThrow.
  repeat match goal with |- context [if ?b then _ else _] => destruct b end;
    cbn; auto.
Qed.

(** A request the guards reject leaves the in-flight map alone. *)
Lemma governance_rejected (tR tS : Z) (key : list N) (c c1 : Ctx) (e : Err) :
  governance tR tS key c = (Throw e, c1) ->
  inFlight c1 = inFlight c /\ effects c1 = effects c.
Proof.
  munfold.
  pose proof (applyRateLimit_frame tR key c) as (Hr1 & Hr2 & _).
  destruct (applyRateLimitOrThrow tR key c) as [[[]|e1] c0]; cbn in *.
  - pose proof (applySpamGuard_frame tS key c0) as (Hs1 & Hs2 & _).
    destruct (applySpamGuardOrThrow tS key c0) as [[[]|e2] c2]; cbn in *.
    + unfold applyBusyGuardOrThrow.
      destruct (default false (inFlight c2 !! key)); intros [= <- <-].
      split; congruence.
    + intros [= <- <-]. split; congruence.
  - intros [= <- <-]. split; congruence.
Qed.

(** A request is admitted only when the rate check and then the spam check
    have passed and no request of the key is outstanding; only then is the
    key added. *)
Lemma governance_admitted (tR tS : Z) (key : list N) (c c1 : Ctx) :
  governance tR tS key c = (Ret tt, c1) ->
  (applyRateLimitOrThrow tR key c).1 = Ret tt /\
  (applySpamGuardOrThrow tS key (applyRateLimitOrThrow tR key c).2).1 = Ret tt /\
  default false (inFlight c !! key) = false /\
  inFlight c1 = <[key := true]> (inFlight c) /\
  effects c1 = effects c ++ [InFlightSet key].
Proof.
  munfold.
  pose proof (applyRateLimit_frame tR key c) as (Hr1 & Hr2 & _).
  destruct (applyRateLimitOrThrow tR key c) as [[[]|e1] c0]; cbn in *;
    [|discriminate].
  pose proof (applySpamGuard_frame tS key c0) as (Hs1 & Hs2 & _).
  destruct (applySpamGuardOrThrow tS key c0) as [[[]|e2] c2]; cbn in *;
    [|discriminate].
  unfold applyBusyGuardOrThrow.
  destruct (default false (inFlight c2 !! key)) eqn:Hfree; [discriminate|].
  intros [= <-]. cbn.
  repeat split; congruence.
Qed.

Lemma clearBusy_inFlight (key : list N) (c : Ctx) :
  inFlight (clearBusy key c).2 = delete key (inFlight c) /\
  effects (clearBusy key c).2 = effects c ++ [InFlightDelete key] /\
  (clearBusy key c).1 = Ret tt.
Proof. repeat split. Qed.

(** Releasing twice is releasing once, as far as the map goes. *)
Lemma clearBusy_idempotent (key : list N) (c : Ctx) :
  inFlight (clearBusy key (clearBusy key c).2).2 = inFlight (clearBusy key c).2.
Proof. cbn. apply delete_delete_eq. Qed.

(** *** Computations that leave the in-flight map alone *)

Lemma leaves_ret {A} (a : A) : leavesInFlight (mret a).
Proof. intros c. split; [reflexivity|]. exists []. rewrite app_nil_r. split; reflexivity. Qed.

Lemma leaves_throw {A} (e : Err) : leavesInFlight (@throw A e).
Proof. intros c. split; [reflexivity|]. exists []. rewrite app_nil_r. split; reflexivity. Qed.

Lemma leaves_answered {A} (o : Outcome A) : leavesInFlight (answered o).
Proof. intros c. split; [reflexivity|]. exists []. rewrite app_nil_r. split; reflexivity. Qed.

Lemma leaves_getCtx : leavesInFlight getCtx.
Proof. intros c. split; [reflexivity|]. exists []. rewrite app_nil_r. split; reflexivity. Qed.

Lemma leaves_setCache (f : gmap (list N) CacheEntry -> gmap (list N) CacheEntry) :
  leavesInFlight (modify (setCache f)).
Proof. intros c. split; [reflexivity|]. exists []. rewrite app_nil_r. split; reflexivity. Qed.

Lemma leaves_perform (e : Effect) :
  isInFlightOp e = false -> leavesInFlight (perform e).
Proof.
  intros He c. split; [reflexivity|]. exists [e]. split; [reflexivity|].
  cbn. rewrite He. reflexivity.
Qed.

Lemma leaves_bind {A B} (m : M A) (k : A -> M B) :
  leavesInFlight m -> (forall a, leavesInFlight (k a)) -> leavesInFlight (m ≫= k).
Proof.
  intros Hm Hk c. munfold. specialize (Hm c).
  destruct (m c) as [[a|e] c1]; cbn in Hm.
  - specialize (Hk a c1). destruct (k a c1) as [o c2]; cbn in *.
    destruct Hm as [Hm1 (n1 & Hm2 & Hm3)]. destruct Hk as [Hk1 (n2 & Hk2 & Hk3)].
    split; [congruence|]. exists (n1 ++ n2). split.
    + rewrite Hk2, Hm2, app_assoc. reflexivity.
    + rewrite forallb_app, Hm3, Hk3. reflexivity.
  - exact Hm.
Qed.

Lemma leaves_tryCatch {A} (body : M A) (handler : Err -> M A) :
  leavesInFlight body -> (forall e, leavesInFlight (handler e)) ->
  leavesInFlight (tryCatch body handler).
Proof.
  intros Hm Hk c. munfold. specialize (Hm c).
  destruct (body c) as [[a|e] c1]; cbn in Hm.
  - exact Hm.
  - specialize (Hk e c1). destruct (handler e c1) as [o c2]; cbn in *.
    destruct Hm as [Hm1 (n1 & Hm2 & Hm3)]. destruct Hk as [Hk1 (n2 & Hk2 & Hk3)].
    split; [congruence|]. exists (n1 ++ n2). split.
    + rewrite Hk2, Hm2, app_assoc. reflexivity.
    + rewrite forallb_app, Hm3, Hk3. reflexivity.
Qed.

Lemma leaves_failWith (failure : option Err) : leavesInFlight (failWith failure).
Proof. destruct failure; [apply leaves_throw | apply leaves_ret]. Qed.

(** Decomposes a computation built from the combinators above. *)
Ltac leaves :=
  repeat first
    [ apply leaves_ret | apply leaves_throw | apply leaves_answered
    | apply leaves_getCtx | apply leaves_setCache | apply leaves_failWith
    | apply leaves_perform; reflexivity
    | apply leaves_bind; [|intros ?]
    | apply leaves_tryCatch; [|intros ?]
    | progress cbv zeta
    | match goal with
      | |- leavesInFlight (match ?x with _ => _ end) => destruct x
      end ].

Lemma leaves_cleanupCache (now : Z) : leavesInFlight (cleanupCache now).
Proof. unfold cleanupCache. leaves. Qed.

Lemma leaves_retrievalStage (env : Env) : leavesInFlight (retrievalStage env).
Proof. unfold retrievalStage. leaves. Qed.

Lemma leaves_chatCompletion (env : Env) : leavesInFlight (chatCompletion env).
Proof. unfold chatCompletion. leaves. Qed.

Lemma leaves_forwardParts (parts : list (list N)) :
  forall full, leavesInFlight (forwardParts parts full).
Proof.
  induction parts as [|delta rest IH]; intros full; cbn [forwardParts].
  - leaves.
  - destruct (negb (Js.truthy delta)); [apply IH|]. leaves. apply IH.
Qed.

Lemma leaves_computeReply (env : Env) (message : list N) (history : list Turn)
    (category : list N) :
  leavesInFlight (computeReply env message history category).
Proof.
  unfold computeReply.
  leaves; first [apply leaves_cleanupCache | apply leaves_retrievalStage
                | apply leaves_chatCompletion].
Qed.

(** The shape both handlers share once the message is known not to be empty:
    the guards, then the body, then the release, whatever the body did. *)
Lemma guarded_shape {A} (tR tS : Z) (key : list N) (body : M A) (c : Ctx) :
  (applyRateLimitOrThrow tR key ;;
   applySpamGuardOrThrow tS key ;;
   applyBusyGuardOrThrow key ;;
   tryFinally body (clearBusy key)) c =
  match governance tR tS key c with
  | (Ret _, c1) => ((body c1).1, (clearBusy key (body c1).2).2)
  | (Throw e, c1) => (Throw e, c1)
  end.
Proof.
  munfold.
  destruct (applyRateLimitOrThrow tR key c) as [[[]|e1] c0]; [|reflexivity].
  destruct (applySpamGuardOrThrow tS key c0) as [[[]|e2] c2]; [|reflexivity].
  destruct (applyBusyGuardOrThrow key c2) as [[[]|e3] c3]; [|reflexivity].
  destruct (body c3) as [o c4]. reflexivity.
Qed.

(** What a guarded handler does to the in-flight map: a rejected request
    changes nothing; an admitted one adds the key once, removes it once, and
    ends with the key absent, whether the body returned or threw. *)
Lemma guarded_release {A} (tR tS : Z) (key : list N) (body : M A) (c : Ctx) :
  leavesInFlight body ->
  releasedExactlyOnce
    ((applyRateLimitOrThrow tR key ;;
      applySpamGuardOrThrow tS key ;;
      applyBusyGuardOrThrow key ;;
      tryFinally body (clearBusy key)) c)
    tR tS key c.
Proof.
  intros Hbody. unfold releasedExactlyOnce. rewrite guarded_shape.
  destruct (governance tR tS key c) as [[[]|e] c1] eqn:Hgov; cbn [fst snd].
  - split; [intros _|intros e [=]].
    apply governance_admitted in Hgov as (_ & _ & _ & Hin & Heff).
    destruct (Hbody c1) as [Hb1 (new & Hb2 & Hb3)].
    split.
    + cbn. apply lookup_delete_eq.
    + exists ([InFlightSet key] ++ new ++ [InFlightDelete key]). split.
      * cbn -[app]. rewrite Hb2, Heff. rewrite <- !app_assoc. reflexivity.
      * unfold acquisitions, releases.
        rewrite !List.filter_app, !length_app.
        assert (Hq : forall p, (forall e, p e = true -> isInFlightOp e = true) ->
                       List.filter p new = []).
        { intros p Hp. clear -Hb3 Hp. induction new as [|e new IH]; [reflexivity|].
          cbn in *. apply andb_true_iff in Hb3 as [He Hrest].
          destruct (p e) eqn:Hpe.
          - apply Hp in Hpe. rewrite Hpe in He. discriminate.
          - apply IH. exact Hrest. }
        rewrite !Hq.
        -- cbn. rewrite !bool_decide_eq_true_2 by reflexivity. split; reflexivity.
        -- intros [] ; cbn; congruence.
        -- intros [] ; cbn; congruence.
  - split; [intros [=]|intros e0 [= <-]].
    apply governance_rejected in Hgov as [Hin Heff]. auto.
Qed.

Lemma handleChatBuffered_release (env : Env) (body : Body) (ip : list N) (c : Ctx) :
  bodyMessage body <> [] ->
  releasedExactlyOnce (handleChatBuffered env body ip c) (tRate env) (tSpam env)
    (getClientKey (clientId body) ip) c.
Proof.
  intros Hmsg. unfold handleChatBuffered.
  destruct (bodyMessage body) as [|u message] eqn:Hm; [contradiction|].
  cbn [Js.truthy negb]. cbv zeta.
  apply guarded_release. leaves.
Qed.

Lemma handleChatStream_release (env : Env) (body : Body) (ip : list N) (c : Ctx) :
  bodyMessage body <> [] ->
  releasedExactlyOnce (handleChatStream env body ip c) (tRate env) (tSpam env)
    (getClientKey (clientId body) ip) c.
Proof.
  intros Hmsg. unfold handleChatStream.
  destruct (bodyMessage body) as [|u message] eqn:Hm; [contradiction|].
  cbn [Js.truthy negb]. cbv zeta.
  apply guarded_release.
  leaves; try apply leaves_forwardParts.
Qed.

(** *** Mutual exclusion *)

Lemma exclusive_start : exclusive processStart.
Proof.
  split; [constructor|]. intros key. cbn. rewrite lookup_empty. cbn.
  split; [intros H; inversion H | discriminate].
Qed.

Lemma exclusive_step (p q : Process) : exclusive p -> step p q -> exclusive q.
Proof.
  intros [Hnd Hin] Hstep. destruct Hstep as
    [tR tS key c1 Hgov | tR tS key e c1 Hgov | c1 Hsame | key before after Hout];
    unfold exclusive; cbn [ctx outstanding].
  - apply governance_admitted in Hgov as (_ & _ & Hfree & Hmap & _).
    assert (Hnot : key ∉ outstanding p).
    { intros Hk. apply Hin in Hk. congruence. }
    split; [constructor; assumption|].
    intros k. rewrite Hmap, elem_of_cons.
    destruct (decide (k = key)) as [->|Hne].
    + rewrite lookup_insert_eq. cbn. tauto.
    + rewrite lookup_insert_ne by congruence. rewrite <- Hin. tauto.
  - apply governance_rejected in Hgov as [Hmap _].
    split; [assumption|]. intros k. rewrite Hmap. apply Hin.
  - split; [assumption|]. intros k. rewrite Hsame. apply Hin.
  - rewrite Hout in Hnd, Hin.
    apply NoDup_app in Hnd as (Hb & Hba & Ha).
    apply NoDup_cons in Ha as [Hka Ha].
    assert (Hkb : key ∉ before).
    { intros Hk. apply (Hba key Hk). left. }
    split.
    + apply NoDup_app. repeat split; try assumption.
      intros x Hx Hxa. apply (Hba x Hx). right. exact Hxa.
    + intros k. cbn. destruct (decide (k = key)) as [->|Hne].
      * rewrite lookup_delete_eq. cbn. rewrite elem_of_app. split; [|discriminate].
        intros [?|?]; contradiction.
      * rewrite lookup_delete_ne by congruence. rewrite <- Hin.
        rewrite !elem_of_app, elem_of_cons. tauto.
Qed.

Lemma exclusive_reachable (p : Process) : rtc step processStart p -> exclusive p.
Proof.
  intros Hreach.
  eapply (rtc_ind_r (fun q => exclusive q) processStart);
    [apply exclusive_start | | exact Hreach].
  intros y z _ Hstep IH. eapply exclusive_step; eassumption.
Qed.

(** C1. The in-flight guard. In every state the process can reach there is
    at most one outstanding answer computation per key, and an acquire for a
    key whose computation is outstanding fails BUSY with status 409 and
    changes nothing. The guards add the key only after the rate check and
    the spam check have passed, and a rejected request leaves the map alone.
    Both handlers remove the key exactly once per admitted request, whether
    the computation returns or throws, and releasing is idempotent. *)
Theorem in_flight_guard (env : Env) (body : Body) (ip : list N) (c : Ctx) :
  bodyMessage body <> [] ->
  let key := getClientKey (clientId body) ip in
  (forall p, rtc step processStart p ->
     exclusive p /\
     (forall k, k ∈ outstanding p ->
        applyBusyGuardOrThrow k (ctx p) = (Throw busyError, ctx p))) /\
  statusCode busyError = Some 409 /\
  (forall c1, governance (tRate env) (tSpam env) key c = (Ret tt, c1) ->
     (applyRateLimitOrThrow (tRate env) key c).1 = Ret tt /\
     (applySpamGuardOrThrow (tSpam env) key
        (applyRateLimitOrThrow (tRate env) key c).2).1 = Ret tt /\
     inFlight c1 = <[key := true]> (inFlight c)) /\
  releasedExactlyOnce (handleChatBuffered env body ip c)
    (tRate env) (tSpam env) key c /\
  releasedExactlyOnce (handleChatStream env body ip c)
    (tRate env) (tSpam env) key c /\
  (forall k c0, inFlight ((clearBusy k (clearBusy k c0).2).2)
                = inFlight ((clearBusy k c0).2)).
Proof.
  intros Hmsg key.
  split; [|split; [reflexivity|split; [|split; [|split]]]].
  - intros p Hreach. pose proof (exclusive_reachable p Hreach) as Hex.
    split; [exact Hex|]. intros k Hk. apply busy_when_outstanding.
    apply Hex. exact Hk.
  - intros c1 Hgov. apply governance_admitted in Hgov. tauto.
  - apply (handleChatBuffered_release env body ip c Hmsg).
  - apply (handleChatStream_release env body ip c Hmsg).
  - intros k c0. apply clearBusy_idempotent.
Qed.

Lemma in_flight_guard_witness :
  bodyMessage demoBody <> [] /\
  releasedExactlyOnce (handleChatBuffered demoEnv demoBody demoIp emptyCtx)
    (tRate demoEnv) (tSpam demoEnv) (getClientKey (clientId demoBody) demoIp)
    emptyCtx.
Proof.
  assert (Hmsg : bodyMessage demoBody <> []) by (vm_compute; discriminate).
  split; [exact Hmsg|].
  exact (proj1 (proj2 (proj2 (proj2
           (in_flight_guard demoEnv demoBody demoIp emptyCtx Hmsg))))).
Defined.

Lemma spam_window_block_witness :
  applySpamGuardOrThrow 10000 demoKey atCap
    = (Throw (spamError SPAM_WINDOW 180),
       setSpamState (insert demoKey (Spam.mk 1000 31 190000 10000)) atCap) /\
  (spamCalls demoKey [10001; 100000; 189999]
     (setSpamState (insert demoKey (Spam.mk 1000 31 190000 10000)) atCap)).1
    = [Throw (spamError COOLDOWN 180); Throw (spamError COOLDOWN 90);
       Throw (spamError COOLDOWN 1)].
Proof.
  set (st := Spam.mk 1000 30 0 5000).
  assert (Hnow : 0 <= 10000) by lia.
  assert (Hst : spamState atCap !! demoKey = Some st)
    by apply lookup_insert_eq.
  assert (Hfree : Spam.blockedUntil st = 0 \/ Spam.blockedUntil st <= 10000)
    by (left; reflexivity).
  assert (Hslow : Spam.lastAt st = 0 \/ MIN_INTERVAL_MS <= 10000 - Spam.lastAt st)
    by (right; vm_compute; discriminate).
  assert (Hwin : 10000 - Spam.windowStart st <= SPAM_WINDOW_MS)
    by (vm_compute; discriminate).
  assert (Hcap : SPAM_LIMIT <= Spam.count st) by (vm_compute; discriminate).
  destruct (spam_window_block 10000 demoKey atCap st Hnow Hst Hfree Hslow Hwin Hcap)
    as (Hfail & _ & Hlater).
  split; [exact Hfail|].
  refine (proj2 (Hlater [10001; 100000; 189999] _)).
  repeat constructor.
Defined.

Lemma spam_too_fast_then_cooldown_witness :
  applySpamGuardOrThrow 1100 demoKey oneRecorded
    = (Throw (spamError TOO_FAST 3),
       setSpamState (insert demoKey (Spam.mk 1000 1 4100 1000)) oneRecorded) /\
  applySpamGuardOrThrow 2500 demoKey
      (setSpamState (insert demoKey (Spam.mk 1000 1 4100 1000)) oneRecorded)
    = (Throw (spamError COOLDOWN 2),
       setSpamState (insert demoKey (Spam.mk 1000 1 4100 1000)) oneRecorded).
Proof.
  pose proof (spam_too_fast_then_cooldown 1100 demoKey oneRecorded
                (Spam.mk 1000 1 0 1000)
                ltac:(lia) (lookup_insert_eq _ _ _)
                ltac:(vm_compute; discriminate) (or_introl eq_refl)
                ltac:(vm_compute; reflexivity))
    as (Hfast & Hcool & _).
  split; [exact Hfast|].
  exact (Hcool 2500 ltac:(lia)).
Defined.

(** ** ResponseCache *)

Lemma cleanupCache_lookup (now : Z) (c : Ctx) (k : list N) (e : CacheEntry) :
  cache (cleanupCache now c).2 !! k = Some e <->
  cache c !! k = Some e /\ now - ts e <= CACHE_TTL.
Proof.
  cbn. rewrite map_lookup_filter_Some. cbn.
  rewrite Z.gtb_ltb, Z.ltb_ge. reflexivity.
Qed.

Lemma cleanupCache_removes (now : Z) (c : Ctx) (k : list N) (e : CacheEntry) :
  cache c !! k = Some e -> now - ts e > CACHE_TTL ->
  cache (cleanupCache now c).2 !! k = None.
Proof.
  intros Hk Hold.
  destruct (cache (cleanupCache now c).2 !! k) as [e'|] eqn:Hl; [|reflexivity].
  apply cleanupCache_lookup in Hl as [Hk' Hage].
  rewrite Hk in Hk'. injection Hk' as <-. lia.
Qed.

Lemma cleanupCache_frame (now : Z) (c : Ctx) :
  effects (cleanupCache now c).2 = effects c /\
  inFlight (cleanupCache now c).2 = inFlight c.
Proof. split; reflexivity. Qed.

Lemma computeReply_unfold (env : Env) (message : list N) (history : list Turn)
    (category : list N) (c : Ctx) :
  computeReply env message history category c =
    let c1 := (cleanupCache (tCleanup env) c).2 in
    let cacheKey := makeCacheKey message history category in
    match servable (tLookup env) (cache c1 !! cacheKey) with
    | Some cached => (Ret (reply cached, true), c1)
    | None => regenerate env cacheKey c1
    end.
Proof.
  unfold computeReply, regenerate. munfold.
  unfold cleanupCache. munfold. cbn [fst snd].
  destruct (servable _ _); reflexivity.
Qed.

(** The three ways the miss path ends. *)
Lemma regenerate_run (env : Env) (cacheKey : list N) (c : Ctx) :
  regenerate env cacheKey c =
    match retrievalFailure env with
    | Some e => (Throw e, emit RetrievalCall c)
    | None =>
        match completion env with
        | Throw e => (Throw e, emit ChatCompletion (emit RetrievalCall c))
        | Ret content =>
            let r := Js.orElse (Js.trim content) [] in
            (Ret (r, false),
             setCache (insert cacheKey {| ts := tStore env; reply := r |})
                      (emit ChatCompletion (emit RetrievalCall c)))
        end
    end.
Proof.
  unfold regenerate, retrievalStage, chatCompletion. munfold.
  destruct (retrievalFailure env); [reflexivity|].
  destruct (completion env); reflexivity.
Qed.

Lemma servable_fresh (now : Z) (entry : CacheEntry) :
  now - ts entry < CACHE_TTL -> servable now (Some entry) = Some entry.
Proof.
  intros H. unfold servable.
  destruct (now - ts entry <? CACHE_TTL) eqn:E; zbool; [reflexivity|lia].
Qed.

Lemma servable_stale (now : Z) (entry : CacheEntry) :
  CACHE_TTL <= now - ts entry -> servable now (Some entry) = None.
Proof.
  intros H. unfold servable.
  destruct (now - ts entry <? CACHE_TTL) eqn:E; zbool; [lia|reflexivity].
Qed.

(** A stored entry younger than the TTL is served, and no collaborator is
    called. *)
Lemma computeReply_hit (env : Env) (message : list N) (history : list Turn)
    (category : list N) (c : Ctx) (entry : CacheEntry) :
  cache c !! makeCacheKey message history category = Some entry ->
  tCleanup env <= tLookup env ->
  tLookup env - ts entry < CACHE_TTL ->
  computeReply env message history category c
    = (Ret (reply entry, true), (cleanupCache (tCleanup env) c).2).
Proof.
  intros Hentry Hclock Hfresh. rewrite computeReply_unfold. cbv zeta.
  assert (Hkept : cache (cleanupCache (tCleanup env) c).2
                    !! makeCacheKey message history category = Some entry)
    by (apply cleanupCache_lookup; split; [exact Hentry | lia]).
  rewrite Hkept, (servable_fresh _ _ Hfresh). reflexivity.
Qed.

(** A request answered by generation leaves its answer in the cache. *)
Lemma computeReply_stores (env : Env) (message : list N) (history : list Turn)
    (category : list N) (c : Ctx) (r : list N) :
  (computeReply env message history category c).1 = Ret (r, false) ->
  cache (computeReply env message history category c).2
    !! makeCacheKey message history category
  = Some {| ts := tStore env; reply := r |}.
Proof.
  rewrite computeReply_unfold. cbv zeta.
  destruct (servable _ _) as [hit|]; cbn [fst snd]; [discriminate|].
  rewrite regenerate_run.
  destruct (retrievalFailure env); [discriminate|].
  destruct (completion env) as [content|e]; [|discriminate].
  cbn. intros [= <-]. apply lookup_insert_eq.
Qed.

(** An entry that has reached the TTL when the lookup reads the clock is not
    served, whether the cleanup pass removed it or not: the request runs the
    miss path. *)
Lemma computeReply_stale (env : Env) (message : list N) (history : list Turn)
    (category : list N) (c : Ctx) (entry : CacheEntry) :
  cache c !! makeCacheKey message history category = Some entry ->
  CACHE_TTL <= tLookup env - ts entry ->
  computeReply env message history category c
    = regenerate env (makeCacheKey message history category)
        (cleanupCache (tCleanup env) c).2.
Proof.
  intros Hentry Hstale. rewrite computeReply_unfold. cbv zeta.
  destruct (cache (cleanupCache (tCleanup env) c).2
              !! makeCacheKey message history category) as [kept|] eqn:Hkept;
    [|reflexivity].
  apply cleanupCache_lookup in Hkept as [Hsame _].
  rewrite Hentry in Hsame. injection Hsame as <-.
  rewrite (servable_stale _ _ Hstale). reflexivity.
Qed.

(** C5. A request whose cache key has a stored entry, the age of an entry
    being the clock reading minus its timestamp. While the entry is younger
    than the TTL at the lookup, the stored answer is returned with
    [cached = true] and neither collaborator is called. An entry whose age
    has reached the TTL at the lookup is treated as absent, also when the
    cleanup pass, which read the clock earlier, has left it in the map: the
    request is handled as a miss, and a successful regeneration stores the
    new answer in its place. An entry whose age exceeds the TTL when the
    cleanup pass at the start of the computation reads the clock is removed
    by it: the pass keeps exactly the entries no older than the TTL. And
    the entry of an earlier request that generation answered serves every
    request with the same key that arrives before the TTL has elapsed,
    without a second generation. *)
Theorem cache_hit_and_expiry (env : Env) (message : list N) (history : list Turn)
    (category : list N) (c : Ctx) (entry : CacheEntry) :
  cache c !! makeCacheKey message history category = Some entry ->
  tCleanup env <= tLookup env ->
  let cacheKey := makeCacheKey message history category in
  let run := computeReply env message history category c in
  (tLookup env - ts entry < CACHE_TTL ->
     run.1 = Ret (reply entry, true) /\
     effects run.2 = effects c /\
     generations (effects run.2) = generations (effects c) /\
     cache run.2 !! cacheKey = Some entry) /\
  (CACHE_TTL <= tLookup env - ts entry ->
     run = regenerate env cacheKey (cleanupCache (tCleanup env) c).2 /\
     (forall e, retrievalFailure env = Some e -> run.1 = Throw e) /\
     (retrievalFailure env = None ->
      forall content, completion env = Ret content ->
        run.1 = Ret (Js.orElse (Js.trim content) [], false) /\
        generations (effects run.2) = S (generations (effects c)) /\
        cache run.2 !! cacheKey
          = Some {| ts := tStore env; reply := Js.orElse (Js.trim content) [] |})) /\
  (tCleanup env - ts entry > CACHE_TTL ->
     cache (cleanupCache (tCleanup env) c).2 !! cacheKey = None) /\
  (forall k e, cache (cleanupCache (tCleanup env) c).2 !! k = Some e <->
               cache c !! k = Some e /\ tCleanup env - ts e <= CACHE_TTL) /\
  (forall (earlier : Env) (m0 : list N) (h0 : list Turn) (cat0 : list N)
          (c0 : Ctx) (r : list N),
     makeCacheKey m0 h0 cat0 = cacheKey ->
     (computeReply earlier m0 h0 cat0 c0).1 = Ret (r, false) ->
     tLookup env - tStore earlier < CACHE_TTL ->
     let again := computeReply env message history category
                    (computeReply earlier m0 h0 cat0 c0).2 in
     again.1 = Ret (r, true) /\
     generations (effects again.2)
       = generations (effects (computeReply earlier m0 h0 cat0 c0).2)).
Proof.
  intros Hentry Hclock cacheKey run. split; [|split; [|split; [|split]]].
  - intros Hfresh. subst run.
    rewrite (computeReply_hit env message history category c entry Hentry Hclock Hfresh).
    cbn [fst snd]. repeat split.
    apply cleanupCache_lookup. split; [exact Hentry | lia].
  - intros Hstale.
    pose proof (computeReply_stale env message history category c entry
                  Hentry Hstale) as Hrun.
    fold cacheKey run in Hrun.
    split; [exact Hrun|]. split.
    + intros e Hretr. rewrite Hrun, regenerate_run, Hretr. reflexivity.
    + intros Hretr content Hcompl. rewrite Hrun, regenerate_run, Hretr, Hcompl.
      cbn [fst snd]. split; [reflexivity|]. split.
      * cbn. unfold generations. rewrite !List.filter_app, !length_app. cbn. lia.
      * cbn. apply lookup_insert_eq.
  - intros Hold.
    exact (cleanupCache_removes (tCleanup env) c cacheKey entry Hentry Hold).
  - intros k e. apply cleanupCache_lookup.
  - intros earlier m0 h0 cat0 c0 r Hkey Hanswered Hfresh again.
    pose proof (computeReply_stores earlier m0 h0 cat0 c0 r Hanswered) as Hstored.
    rewrite Hkey in Hstored. subst again.
    rewrite (computeReply_hit env message history category _ _ Hstored Hclock Hfresh).
    split; reflexivity.
Qed.

Lemma cache_hit_and_expiry_witness :
  (computeReply (laterEnv 60000) (bodyMessage demoBody) [] (Js.lit "auto")
     answeredOnce).1
    = Ret (Js.lit "Lencseleves.", true) /\
  (computeReply (laterEnv 30000000) (bodyMessage demoBody) [] (Js.lit "auto")
     answeredOnce).1
    = Ret (Js.lit "Hello", false) /\
  cache (cleanupCache (tCleanup turningStaleEnv) answeredOnce).2
    !! makeCacheKey (bodyMessage demoBody) [] (Js.lit "auto")
    = Some {| ts := 5000; reply := Js.lit "Lencseleves." |} /\
  (computeReply turningStaleEnv (bodyMessage demoBody) [] (Js.lit "auto")
     answeredOnce).1
    = Ret (Js.lit "Hello", false).
Proof.
  set (entry := {| ts := 5000; reply := Js.lit "Lencseleves." |}).
  assert (Hentry : cache answeredOnce
                     !! makeCacheKey (bodyMessage demoBody) [] (Js.lit "auto")
                   = Some entry) by apply lookup_insert_eq.
  split; [|split; [|split]].
  - assert (Hclock : tCleanup (laterEnv 60000) <= tLookup (laterEnv 60000))
      by (cbn; lia).
    assert (Hfresh : tLookup (laterEnv 60000) - ts entry < CACHE_TTL)
      by (vm_compute; reflexivity).
    exact (proj1 (proj1 (cache_hit_and_expiry (laterEnv 60000) _ _ _ _ entry
                           Hentry Hclock) Hfresh)).
  - assert (Hclock : tCleanup (laterEnv 30000000) <= tLookup (laterEnv 30000000))
      by (cbn; lia).
    assert (Hstale : CACHE_TTL <= tLookup (laterEnv 30000000) - ts entry)
      by (vm_compute; discriminate).
    destruct (proj1 (proj2 (cache_hit_and_expiry (laterEnv 30000000) _ _ _ _ entry
                              Hentry Hclock)) Hstale) as (_ & _ & Hregen).
    exact (proj1 (Hregen eq_refl (Js.lit " Hello ") eq_refl)).
  - assert (Hclock : tCleanup turningStaleEnv <= tLookup turningStaleEnv)
      by (vm_compute; discriminate).
    apply (proj1 (proj2 (proj2 (proj2 (cache_hit_and_expiry turningStaleEnv
                                         _ _ _ _ entry Hentry Hclock))))).
    split; [exact Hentry | vm_compute; discriminate].
  - assert (Hclock : tCleanup turningStaleEnv <= tLookup turningStaleEnv)
      by (vm_compute; discriminate).
    assert (Hstale : CACHE_TTL <= tLookup turningStaleEnv - ts entry)
      by (vm_compute; discriminate).
    destruct (proj1 (proj2 (cache_hit_and_expiry turningStaleEnv _ _ _ _ entry
                              Hentry Hclock)) Hstale) as (_ & _ & Hregen).
    exact (proj1 (Hregen eq_refl (Js.lit " Hello ") eq_refl)).
Defined.

(** ** Cache key *)

Lemma orElse_empty (s : list N) : Js.orElse s [] = s.
Proof. destruct s; reflexivity. Qed.

Lemma turn_signatures_agree (l1 l2 : list Turn) :
  Forall2 (fun x y => role x = role y /\
                      take 140 (content x) = take 140 (content y)) l1 l2 ->
  map (fun x => Js.orElse (role x) [] ++ Js.lit ":"
                  ++ take 140 (Js.orElse (content x) [])) l1
  = map (fun x => Js.orElse (role x) [] ++ Js.lit ":"
                    ++ take 140 (Js.orElse (content x) [])) l2.
Proof.
  induction 1 as [|x y l1 l2 [Hrole Hcontent] _ IH]; [reflexivity|].
  cbn [map]. rewrite !orElse_empty, Hrole, Hcontent, IH. reflexivity.
Qed.

(** C10. Two requests with the same normalized category whose messages agree
    on the first 600 code units and whose last four turns agree pairwise on
    role and on the first 140 code units of the content get the same cache
    key; so, once the first has been answered by generation, the second is
    served that answer from the cache while it is younger than the TTL. *)
Theorem cache_key_truncation (m1 m2 : list N) (h1 h2 : list Turn)
    (cat1 cat2 : list N) :
  normalizeCategory cat1 = normalizeCategory cat2 ->
  take 600 m1 = take 600 m2 ->
  Forall2 (fun x y => role x = role y /\
                      take 140 (content x) = take 140 (content y))
          (Js.lastN 4 h1) (Js.lastN 4 h2) ->
  makeCacheKey m1 h1 cat1 = makeCacheKey m2 h2 cat2 /\
  forall (env1 env2 : Env) (c : Ctx) (r : list N),
    (computeReply env1 m1 h1 cat1 c).1 = Ret (r, false) ->
    tCleanup env2 <= tLookup env2 ->
    tLookup env2 - tStore env1 < CACHE_TTL ->
    (computeReply env2 m2 h2 cat2 (computeReply env1 m1 h1 cat1 c).2).1
      = Ret (r, true).
Proof.
  intros Hcat Hmsg Hturns.
  assert (Hkey : makeCacheKey m1 h1 cat1 = makeCacheKey m2 h2 cat2).
  { unfold makeCacheKey. cbv zeta.
    rewrite Hcat, !orElse_empty, Hmsg, (turn_signatures_agree _ _ Hturns).
    reflexivity. }
  split; [exact Hkey|].
  intros env1 env2 c r Hanswered Hclock Hfresh.
  pose proof (computeReply_stores env1 m1 h1 cat1 c r Hanswered) as Hstored.
  rewrite Hkey in Hstored.
  rewrite (computeReply_hit env2 m2 h2 cat2 _ _ Hstored Hclock Hfresh).
  reflexivity.
Qed.

Lemma cache_key_truncation_witness :
  makeCacheKey (longMessage "first") historyA (Js.lit "drinks")
  = makeCacheKey (longMessage "second") historyB (Js.lit "drinks").
Proof.
  assert (Hcat : normalizeCategory (Js.lit "drinks") = normalizeCategory (Js.lit "drinks"))
    by reflexivity.
  assert (Hmsg : take 600 (longMessage "first") = take 600 (longMessage "second"))
    by (vm_compute; reflexivity).
  assert (Hturns :
    Forall2 (fun x y => role x = role y /\
                        take 140 (content x) = take 140 (content y))
            (Js.lastN 4 historyA) (Js.lastN 4 historyB)).
  { vm_compute. repeat constructor. }
  exact (proj1 (cache_key_truncation _ _ _ _ _ _ Hcat Hmsg Hturns)).
Defined.

(** ** AnswerStreamer *)

Lemma emits_nil (c : Ctx) : emits [] c = c.
Proof. destruct c. unfold emits. cbn. rewrite app_nil_r. reflexivity. Qed.

Lemma emits_emit (e : Effect) (es : list Effect) (c : Ctx) :
  emits es (emit e c) = emits (e :: es) c.
Proof. unfold emits, emit. cbn. rewrite <- app_assoc. reflexivity. Qed.

(** The loop forwards every non-empty delta as one event, in order, and
    returns their concatenation. *)
Lemma forwardParts_run (parts : list (list N)) :
  forall (full : list N) (c : Ctx),
    forwardParts parts full c =
      (Ret (full ++ concat (List.filter Js.truthy parts)),
       emits (map (fun d => StreamWrite (DeltaEvent d false))
                  (List.filter Js.truthy parts)) c).
Proof.
  induction parts as [|delta rest IH]; intros full c; cbn [forwardParts].
  - cbn. rewrite app_nil_r, emits_nil. reflexivity.
  - cbn [List.filter]. destruct (Js.truthy delta) eqn:Hd; cbn [negb].
    + munfold. cbv beta iota. rewrite IH. cbn [concat map].
      rewrite emits_emit, <- app_assoc.
      reflexivity.
    + apply IH.
Qed.

Lemma wire_app (a b : list Effect) : wire (a ++ b) = wire a ++ wire b.
Proof. unfold wire. apply flat_map_app. Qed.

Lemma wire_deltas (ds : list (list N)) :
  wire (map (fun d => StreamWrite (DeltaEvent d false)) ds)
  = map (fun d => DeltaEvent d false) ds.
Proof. induction ds as [|d ds IH]; [reflexivity|]. cbn. f_equal. exact IH. Qed.

Lemma governance_cache (tR tS : Z) (key : list N) (c : Ctx) :
  cache (governance tR tS key c).2 = cache c.
Proof.
  munfold.
  pose proof (applyRateLimit_frame tR key c) as (_ & _ & Hr & _).
  destruct (applyRateLimitOrThrow tR key c) as [[[]|e1] c0]; cbn in *; [|exact Hr].
  pose proof (applySpamGuard_frame tS key c0) as (_ & _ & Hs & _).
  destruct (applySpamGuardOrThrow tS key c0) as [[[]|e2] c2]; cbn in *;
    [|congruence].
  unfold applyBusyGuardOrThrow.
  destruct (default false (inFlight c2 !! key)); cbn; congruence.
Qed.

(** The expected events end with the terminal event and hold no other. *)
Lemma expectedEvents_terminal (env : Env) (hit : option CacheEntry) :
  exists before,
    expectedEvents env hit = before ++ [DoneEvent] /\
    List.filter isDone before = [].
Proof.
  unfold expectedEvents. destruct hit as [cached|].
  - exists [DeltaEvent (reply cached) true]. split; reflexivity.
  - destruct (failureBeforeStream env).
    + exists [ErrorEvent]. split; reflexivity.
    + assert (Hd : forall ds, List.filter isDone
                                (map (fun d => DeltaEvent d false) ds) = []).
      { induction ds as [|d ds IH]; [reflexivity | exact IH]. }
      destruct (streamFailure env).
      * exists (map (fun d => DeltaEvent d false) (fragments env) ++ [ErrorEvent]).
        split; [rewrite <- app_assoc; reflexivity|].
        rewrite List.filter_app, Hd. reflexivity.
      * exists (map (fun d => DeltaEvent d false) (fragments env)).
        split; [reflexivity | apply Hd].
Qed.

(** X28. The streaming handler taken by itself, for a request the guards
    admit: the events it writes are those the specification asks for --
    each non-empty fragment as one event, in order; on a cache hit the
    cached answer as a single fragment; an error marker after a failure --
    and in every case they end with exactly one terminal event, after which
    the handler closes the stream and writes nothing more. On success the
    answer stored in the cache is the concatenation of the fragments,
    trimmed. After a failure the handler rethrows the error: what its
    caller then writes to the same stream is not part of this statement. *)
Theorem streaming_protocol (env : Env) (body : Body) (ip : list N) (c : Ctx) :
  bodyMessage body <> [] ->
  (governance (tRate env) (tSpam env) (getClientKey (clientId body) ip) c).1
    = Ret tt ->
  let cacheKey := makeCacheKey (bodyMessage body) (bodyHistory body)
                    (normalizeCategory (bodyCategory body)) in
  let hit := servable (tLookup env)
               (cache (cleanupCache (tCleanup env) c).2 !! cacheKey) in
  let run := handleChatStream env body ip c in
  exists new,
    effects run.2 = effects c ++ new /\
    wire new = expectedEvents env hit /\
    run.1 = expectedOutcome env hit /\
    (exists before,
       wire new = before ++ [DoneEvent] /\ List.filter isDone before = []) /\
    (exists pre post,
       new = pre ++ [StreamWrite DoneEvent; StreamEnd] ++ post /\ wire post = []) /\
    (hit = None -> expectedOutcome env hit = Ret tt ->
       cache run.2 !! cacheKey
         = Some {| ts := tStore env; reply := Js.trim (concat (fragments env)) |}).
Proof.
  intros Hmsg Hgov cacheKey hit run.
  set (key := getClientKey (clientId body) ip) in *.
  assert (Hrun : exists pre post,
            effects run.2 = effects c ++ pre ++ [StreamWrite DoneEvent; StreamEnd] ++ post /\
            wire (pre ++ [StreamWrite DoneEvent]) = expectedEvents env hit /\
            wire post = [] /\
            run.1 = expectedOutcome env hit /\
            (hit = None -> expectedOutcome env hit = Ret tt ->
               cache run.2 !! cacheKey
                 = Some {| ts := tStore env;
                           reply := Js.trim (concat (fragments env)) |})).
  { subst run. unfold handleChatStream.
    destruct (bodyMessage body) as [|u message] eqn:Hm; [contradiction|].
    cbn [Js.truthy negb]. cbv zeta. fold key. rewrite guarded_shape.
    pose proof (governance_cache (tRate env) (tSpam env) key c) as Hcache.
    destruct (governance (tRate env) (tSpam env) key c) as [[[]|e] cg] eqn:Hg;
      [|discriminate].
    apply governance_admitted in Hg as (_ & _ & _ & _ & Heff).
    cbn [fst snd] in Hcache |- *.
    subst hit cacheKey.
    set (cacheKey := makeCacheKey _ _ _).
    unfold retrievalStage, cleanupCache. repeat (progress munfold).
    cbv beta iota. cbn [fst snd cache setCache].
    rewrite Hcache.
    change (cache (let (_, y) := (Ret tt, setCache
              (filter (fun kv : list N * CacheEntry =>
                         (tCleanup env - ts kv.2 >? CACHE_TTL) = false)) c) in y))
      with (filter (fun kv : list N * CacheEntry =>
                      (tCleanup env - ts kv.2 >? CACHE_TTL) = false) (cache c)).
    unfold expectedEvents, expectedOutcome, failureBeforeStream, fragments.
    destruct (servable (tLookup env) _) as [cached|] eqn:Hhit.
    - exists [InFlightSet key; StreamWrite (DeltaEvent (reply cached) true)],
             [InFlightDelete key].
      cbn. rewrite Heff, <- !app_assoc. repeat split; try reflexivity.
      discriminate.
    - destruct (retrievalFailure env) as [e|].
      + exists [InFlightSet key; RetrievalCall; StreamWrite ErrorEvent],
               [InFlightDelete key].
        cbn. rewrite Heff, <- !app_assoc. repeat split; try reflexivity.
        discriminate.
      + destruct (streamCreation env) as [e|].
        * exists [InFlightSet key; RetrievalCall; ChatCompletion;
                  StreamWrite ErrorEvent], [InFlightDelete key].
          cbn. rewrite Heff, <- !app_assoc. repeat split; try reflexivity.
          discriminate.
        * rewrite forwardParts_run.
          destruct (streamFailure env) as [e|]; cbv beta iota.
          -- exists ([InFlightSet key; RetrievalCall; ChatCompletion]
                       ++ map (fun d => StreamWrite (DeltaEvent d false))
                              (List.filter Js.truthy (streamParts env))
                       ++ [StreamWrite ErrorEvent]),
                    [InFlightDelete key].
             cbn. rewrite Heff, <- !app_assoc. repeat split; try reflexivity.
             ++ rewrite !wire_app, wire_deltas. reflexivity.
             ++ discriminate.
          -- exists ([InFlightSet key; RetrievalCall; ChatCompletion]
                       ++ map (fun d => StreamWrite (DeltaEvent d false))
                              (List.filter Js.truthy (streamParts env))),
                    [InFlightDelete key].
             cbn. rewrite Heff, <- !app_assoc. repeat split; try reflexivity.
             ++ rewrite !wire_app, wire_deltas. reflexivity.
             ++ intros _ _. apply lookup_insert_eq. }
  destruct Hrun as (pre & post & Heffs & Hwire & Hpost & Hout & Hstored).
  exists (pre ++ [StreamWrite DoneEvent; StreamEnd] ++ post).
  assert (Hsame : wire (pre ++ [StreamWrite DoneEvent; StreamEnd] ++ post)
                  = expectedEvents env hit).
  { rewrite <- Hwire, !wire_app, Hpost. cbn. reflexivity. }
  repeat split; try assumption.
  - rewrite Hsame. apply expectedEvents_terminal.
  - exists pre, post. split; [reflexivity | exact Hpost].
Qed.

(** The scenario of the specification: fragments "Hel" and "lo" give three
    wire events and the final answer "Hello". *)
Lemma streaming_protocol_witness :
  wire (effects (handleChatStream demoEnv demoBody demoIp emptyCtx).2)
    = [DeltaEvent (Js.lit "Hel") false; DeltaEvent (Js.lit "lo") false; DoneEvent] /\
  cache (handleChatStream demoEnv demoBody demoIp emptyCtx).2
    !! makeCacheKey (bodyMessage demoBody) (bodyHistory demoBody)
         (normalizeCategory (bodyCategory demoBody))
    = Some {| ts := 2500; reply := Js.lit "Hello" |}.
Proof.
  assert (Hmsg : bodyMessage demoBody <> []) by (vm_compute; discriminate).
  assert (Hgov : (governance (tRate demoEnv) (tSpam demoEnv)
                    (getClientKey (clientId demoBody) demoIp) emptyCtx).1 = Ret tt)
    by (vm_compute; reflexivity).
  destruct (streaming_protocol demoEnv demoBody demoIp emptyCtx Hmsg Hgov)
    as (new & Heffs & Hwire & _ & _ & _ & Hstored).
  split.
  - rewrite Heffs. cbn [effects emptyCtx app]. rewrite Hwire. reflexivity.
  - apply Hstored; reflexivity.
Defined.


(** ** String lemmas *)

Lemma trimStart_length (s : list N) : (length (Js.trimStart s) <= length s)%nat.
Proof.
  induction s as [|c s IH]; cbn; [lia|].
  destruct (Js.isWhiteSpace c); cbn; lia.
Qed.

Lemma trimStart_fixed (s : list N) :
  length (Js.trimStart s) = length s -> Js.trimStart s = s.
Proof.
  destruct s as [|c s]; cbn; [reflexivity|].
  destruct (Js.isWhiteSpace c); [|reflexivity].
  pose proof (trimStart_length s). lia.
Qed.

Lemma trimStart_head (c : N) (s : list N) :
  Js.isWhiteSpace c = false -> Js.trimStart (c :: s) = c :: s.
Proof. intros H. cbn. rewrite H. reflexivity. Qed.

Lemma trimStart_fixed_head (s : list N) :
  s <> [] -> Js.trimStart s = s ->
  exists c r, s = c :: r /\ Js.isWhiteSpace c = false.
Proof.
  destruct s as [|c r]; [contradiction|]. intros _ H. exists c, r.
  split; [reflexivity|]. cbn in H.
  destruct (Js.isWhiteSpace c) eqn:E; [|reflexivity].
  pose proof (trimStart_length r) as Hl. rewrite H in Hl. cbn in Hl. lia.
Qed.

Lemma trimEnd_length (s : list N) : (length (Js.trimEnd s) <= length s)%nat.
Proof.
  unfold Js.trimEnd. rewrite length_rev.
  pose proof (trimStart_length (rev s)) as H. rewrite length_rev in H. exact H.
Qed.

Lemma trim_length (s : list N) : (length (Js.trim s) <= length s)%nat.
Proof.
  unfold Js.trim.
  pose proof (trimEnd_length (Js.trimStart s)). pose proof (trimStart_length s).
  lia.
Qed.

(** A solid line starts and ends with a code unit that is no white space. *)
Lemma solid_edges (s : list N) :
  solid s <-> s <> [] /\ Js.trimStart s = s /\ Js.trimStart (rev s) = rev s.
Proof.
  unfold solid, Js.trim, Js.trimEnd. split.
  - intros [Hne Htrim]. split; [exact Hne|].
    assert (Hstart : Js.trimStart s = s).
    { apply trimStart_fixed.
      pose proof (trimStart_length s) as H1.
      pose proof (trimStart_length (rev (Js.trimStart s))) as H2.
      rewrite length_rev in H2.
      apply (f_equal length) in Htrim. rewrite length_rev in Htrim. lia. }
    split; [exact Hstart|].
    rewrite Hstart in Htrim. apply (f_equal (@rev N)) in Htrim.
    rewrite rev_involutive in Htrim. exact Htrim.
  - intros (Hne & Hstart & Hend). split; [exact Hne|].
    rewrite Hstart, Hend. apply rev_involutive.
Qed.

Lemma trimStart_app (a b : list N) :
  a <> [] -> Js.trimStart a = a -> Js.trimStart (a ++ b) = a ++ b.
Proof.
  intros Hne Hfix.
  destruct (trimStart_fixed_head a Hne Hfix) as (c & r & -> & Hc).
  cbn. rewrite Hc. reflexivity.
Qed.

(** Two solid texts joined by a line feed are solid. *)
Lemma solid_glue (a b : list N) :
  solid a -> solid b -> solid (a ++ [Js.LF] ++ b).
Proof.
  rewrite !solid_edges. intros (Ha & Ha1 & Ha2) (Hb & Hb1 & Hb2).
  split; [destruct a; [contradiction | discriminate]|]. split.
  - apply trimStart_app; assumption.
  - rewrite !rev_app_distr, <- app_assoc. apply trimStart_app; [|exact Hb2].
    intros H. apply (f_equal (@rev N)) in H. rewrite rev_involutive in H.
    contradiction.
Qed.

Lemma squeeze_app (a b : list N) : squeeze (a ++ b) = squeeze a ++ squeeze b.
Proof. apply List.filter_app. Qed.

Lemma squeeze_trimStart (s : list N) : squeeze (Js.trimStart s) = squeeze s.
Proof.
  induction s as [|c s IH]; [reflexivity|]. cbn.
  destruct (Js.isWhiteSpace c) eqn:E; cbn; [exact IH|].
  rewrite E. reflexivity.
Qed.

Lemma squeeze_trim (s : list N) : squeeze (Js.trim s) = squeeze s.
Proof.
  unfold Js.trim, Js.trimEnd, squeeze.
  rewrite filter_rev. fold (squeeze (Js.trimStart (rev (Js.trimStart s)))).
  rewrite squeeze_trimStart. unfold squeeze. rewrite filter_rev, rev_involutive.
  apply squeeze_trimStart.
Qed.

Lemma squeeze_empty_trim (s : list N) : Js.trim s = [] -> squeeze s = [].
Proof. intros H. rewrite <- squeeze_trim, H. reflexivity. Qed.

Lemma join_cons (sep p : list N) (rest : list (list N)) :
  rest <> [] -> Js.join sep (p :: rest) = p ++ sep ++ Js.join sep rest.
Proof. destruct rest; [contradiction | reflexivity]. Qed.

Lemma join_snoc (sep x : list N) (l : list (list N)) :
  l <> [] -> Js.join sep (l ++ [x]) = Js.join sep l ++ sep ++ x.
Proof.
  induction l as [|p l IH]; [contradiction|]. intros _.
  destruct l as [|q l].
  - reflexivity.
  - change ((p :: q :: l) ++ [x]) with (p :: ((q :: l) ++ [x])).
    rewrite join_cons by (destruct l; discriminate).
    rewrite IH by discriminate.
    rewrite (join_cons sep p (q :: l)) by discriminate.
    rewrite <- !app_assoc. reflexivity.
Qed.

(** Appending to the last part is appending to the joined text. *)
Lemma join_extend_last (sep x y : list N) (l : list (list N)) :
  Js.join sep (l ++ [x ++ y]) = Js.join sep (l ++ [x]) ++ y.
Proof.
  destruct l as [|p l].
  - reflexivity.
  - rewrite !join_snoc by discriminate. rewrite <- !app_assoc. reflexivity.
Qed.

Lemma squeeze_join (ls : list (list N)) :
  squeeze (Js.join [Js.LF] ls) = concat (map squeeze ls).
Proof.
  induction ls as [|p ls IH]; [reflexivity|].
  destruct ls as [|q ls].
  - cbn. rewrite app_nil_r. reflexivity.
  - rewrite join_cons by discriminate.
    rewrite !squeeze_app, IH. reflexivity.
Qed.

(** *** The lines of a text *)

Lemma splitLines_LF (r : list N) : splitLines (Js.LF :: r) = [] :: splitLines r.
Proof. reflexivity. Qed.

Lemma splitLines_CRLF (r : list N) :
  splitLines (Js.CR :: Js.LF :: r) = [] :: splitLines r.
Proof. reflexivity. Qed.

Lemma splitLines_other (c : N) (r : list N) :
  c <> Js.LF -> (c <> Js.CR \/ head r <> Some Js.LF) ->
  splitLines (c :: r) = consHead c (splitLines r).
Proof.
  intros Hlf Hcr. cbn [splitLines].
  destruct (N.eqb_spec c Js.LF) as [|_]; [contradiction|].
  destruct r as [|d r']; [reflexivity|].
  destruct (N.eqb_spec c Js.CR) as [Hc|_]; [|reflexivity].
  destruct (N.eqb_spec d Js.LF) as [Hd|_]; [|reflexivity].
  destruct Hcr as [Hcr|Hcr]; [contradiction|]. cbn in Hcr. congruence.
Qed.

Lemma splitLines_nonempty (s : list N) : splitLines s <> [].
Proof.
  destruct s as [|c r]; [discriminate|]. cbn [splitLines].
  destruct (c =? Js.LF)%N; [discriminate|].
  destruct r as [|d r']; [discriminate|].
  destruct ((c =? Js.CR)%N && (d =? Js.LF)%N); [discriminate|].
  destruct (splitLines (d :: r')); discriminate.
Qed.

(** Induction along the way [splitLines] reads a text. *)
Lemma splitLines_ind (P : list N -> Prop) :
  P [] ->
  (forall r, P r -> P (Js.LF :: r)) ->
  (forall r, P r -> P (Js.CR :: Js.LF :: r)) ->
  (forall c r, c <> Js.LF -> (c <> Js.CR \/ head r <> Some Js.LF) ->
               P r -> P (c :: r)) ->
  forall s, P s.
Proof.
  intros Hnil Hlf Hcrlf Hother s.
  enough (H : P s /\ forall c, P (c :: s)) by apply H.
  induction s as [|d s [IH1 IH2]].
  - split; [exact Hnil|]. intros c.
    destruct (N.eq_dec c Js.LF) as [->|Hc]; [apply Hlf, Hnil|].
    apply Hother; [exact Hc | right; discriminate | exact Hnil].
  - split; [apply IH2|]. intros c.
    destruct (N.eq_dec c Js.LF) as [->|Hc]; [apply Hlf, IH2|].
    destruct (N.eq_dec c Js.CR) as [->|Hc'].
    + destruct (N.eq_dec d Js.LF) as [->|Hd]; [apply Hcrlf, IH1|].
      apply Hother; [exact Hc | right; cbn; congruence | apply IH2].
    + apply Hother; [exact Hc | left; exact Hc' | apply IH2].
Qed.

Lemma squeeze_consHead (c : N) (ls : list (list N)) :
  concat (map squeeze (consHead c ls)) = squeeze [c] ++ concat (map squeeze ls).
Proof.
  destruct ls as [|l ls]; cbn.
  - rewrite app_nil_r. reflexivity.
  - destruct (Js.isWhiteSpace c); reflexivity.
Qed.

(** Splitting into lines loses white space only. *)
Lemma squeeze_splitLines (s : list N) :
  concat (map squeeze (splitLines s)) = squeeze s.
Proof.
  induction s as [|r IH|r IH|c r Hlf Hcr IH] using splitLines_ind.
  - reflexivity.
  - rewrite splitLines_LF. cbn. exact IH.
  - rewrite splitLines_CRLF. cbn. exact IH.
  - rewrite splitLines_other by assumption.
    rewrite squeeze_consHead, IH. symmetry. apply (squeeze_app [c] r).
Qed.

(** With no carriage return in the text, joining the lines gives it back. *)
Lemma join_splitLines (s : list N) :
  Js.CR ∉ s -> Js.join [Js.LF] (splitLines s) = s.
Proof.
  induction s as [|r IH|r IH|c r Hlf Hcr IH] using splitLines_ind; intros Hno.
  - reflexivity.
  - rewrite splitLines_LF, join_cons by apply splitLines_nonempty.
    rewrite IH; [reflexivity|]. intros H. apply Hno. right. exact H.
  - exfalso. apply Hno. left.
  - rewrite splitLines_other by assumption.
    assert (Hr : Js.CR ∉ r) by (intros H; apply Hno; right; exact H).
    specialize (IH Hr).
    destruct (splitLines r) as [|l ls] eqn:E; [destruct (splitLines_nonempty r E)|].
    cbn [consHead]. destruct ls as [|l' ls].
    + cbn in *. congruence.
    + rewrite join_cons in IH by discriminate.
      rewrite join_cons by discriminate. rewrite <- IH. reflexivity.
Qed.

(** ** CorpusIndexer *)

Lemma fold_left_invariant {S A} (f : S -> A -> S) (I : list A -> S -> Prop)
    (Q : A -> Prop) :
  (forall done s a, I done s -> Q a -> I (done ++ [a]) (f s a)) ->
  forall rest done s,
    I done s -> Forall Q rest -> I (done ++ rest) (fold_left f rest s).
Proof.
  intros Hstep. induction rest as [|a rest IH]; intros done s Hs Hall.
  - rewrite app_nil_r. exact Hs.
  - apply Forall_cons in Hall as [Ha Hrest]. cbn [fold_left].
    replace (done ++ a :: rest) with ((done ++ [a]) ++ rest)
      by (rewrite <- app_assoc; reflexivity).
    apply IH; [apply Hstep; assumption | exact Hrest].
Qed.

Lemma packLine_flush (chunks : list (list N)) (buf line : list N) :
  buf <> [] ->
  (MAX_EMBED_CHUNK_CHARS < length (buf ++ [Js.LF] ++ line))%nat ->
  packLine (chunks, buf) line = (chunks ++ [Js.trim buf], line).
Proof.
  intros Hbuf Hlong. unfold packLine.
  destruct buf as [|c buf]; [contradiction|]. cbn [Js.truthy].
  apply Nat.ltb_lt in Hlong. rewrite Hlong. reflexivity.
Qed.

Lemma packLine_append (chunks : list (list N)) (buf line : list N) :
  buf <> [] ->
  (length (buf ++ [Js.LF] ++ line) <= MAX_EMBED_CHUNK_CHARS)%nat ->
  packLine (chunks, buf) line = (chunks, buf ++ [Js.LF] ++ line).
Proof.
  intros Hbuf Hshort. unfold packLine.
  destruct buf as [|c buf]; [contradiction|]. cbn [Js.truthy].
  apply Nat.ltb_ge in Hshort. rewrite Hshort. reflexivity.
Qed.

Lemma packLine_start (chunks : list (list N)) (line : list N) :
  packLine (chunks, []) line = (chunks, line).
Proof. unfold packLine. cbn [Js.truthy]. rewrite andb_false_r. reflexivity. Qed.

(** The three cases of one turn of the loop. *)
Lemma packLine_cases (chunks : list (list N)) (buf line : list N) :
  (buf = [] /\ packLine (chunks, buf) line = (chunks, line)) \/
  (buf <> [] /\
   (MAX_EMBED_CHUNK_CHARS < length (buf ++ [Js.LF] ++ line))%nat /\
   packLine (chunks, buf) line = (chunks ++ [Js.trim buf], line)) \/
  (buf <> [] /\
   (length (buf ++ [Js.LF] ++ line) <= MAX_EMBED_CHUNK_CHARS)%nat /\
   packLine (chunks, buf) line = (chunks, buf ++ [Js.LF] ++ line)).
Proof.
  destruct buf as [|c buf].
  - left. split; [reflexivity | apply packLine_start].
  - right.
    destruct (Nat.ltb_spec MAX_EMBED_CHUNK_CHARS
                (length ((c :: buf) ++ [Js.LF] ++ line))) as [Hlong|Hshort].
    + left. split; [discriminate|]. split; [exact Hlong|].
      apply packLine_flush; [discriminate | exact Hlong].
    + right. split; [discriminate|]. split; [exact Hshort|].
      apply packLine_append; [discriminate | exact Hshort].
Qed.

(** A chunk goes over the cap only as a single over-long line. *)
Lemma packLines_cap (lines : list (list N)) :
  Forall (withinCap lines) (packLines lines).
Proof.
  unfold packLines.
  pose (I := fun (_ : list (list N)) (st : list (list N) * list N) =>
               Forall (withinCap lines) st.1 /\
               ((length st.2 <= MAX_EMBED_CHUNK_CHARS)%nat \/
                (st.2 ∈ lines /\ (MAX_EMBED_CHUNK_CHARS < length st.2)%nat))).
  assert (Hinv : I ([] ++ lines) (fold_left packLine lines ([], []))).
  { apply (fold_left_invariant packLine I (fun line => line ∈ lines)).
    - intros done [chunks buf] line [Hchunks Hbuf] Hline. unfold I in *.
      cbn [fst snd] in *.
      assert (Hl : (length line <= MAX_EMBED_CHUNK_CHARS)%nat \/
                   (line ∈ lines /\ (MAX_EMBED_CHUNK_CHARS < length line)%nat))
        by (destruct (Nat.le_gt_cases (length line) MAX_EMBED_CHUNK_CHARS); auto).
      destruct (packLine_cases chunks buf line)
        as [[_ ->] | [(_ & _ & ->) | (_ & Hshort & ->)]]; cbn [fst snd].
      + split; assumption.
      + split; [|exact Hl]. apply Forall_app. split; [exact Hchunks|].
        constructor; [|constructor].
        destruct Hbuf as [Hb | [Hb1 Hb2]].
        * left. pose proof (trim_length buf). lia.
        * right. exists buf. repeat split; assumption.
      + split; [exact Hchunks|]. left. exact Hshort.
    - split; [constructor|]. left. cbn. lia.
    - apply Forall_forall. auto. }
  cbn [app] in Hinv. destruct (fold_left packLine lines ([], [])) as [chunks buf].
  destruct Hinv as [Hchunks Hbuf]. cbn [fst snd] in *.
  destruct (Js.truthy (Js.trim buf)); [|exact Hchunks].
  apply Forall_app. split; [exact Hchunks|]. constructor; [|constructor].
  destruct Hbuf as [Hb | [Hb1 Hb2]].
  - left. pose proof (trim_length buf). lia.
  - right. exists buf. repeat split; assumption.
Qed.

(** Packing loses white space only. *)
Lemma packLines_squeeze (lines : list (list N)) :
  concat (map squeeze (packLines lines)) = concat (map squeeze lines).
Proof.
  unfold packLines.
  pose (I := fun (done : list (list N)) (st : list (list N) * list N) =>
               concat (map squeeze st.1) ++ squeeze st.2
               = concat (map squeeze done)).
  assert (Hinv : I ([] ++ lines) (fold_left packLine lines ([], []))).
  { apply (fold_left_invariant packLine I (fun _ => True)).
    - intros done [chunks buf] line Hst _. unfold I in *. cbn [fst snd] in *.
      rewrite map_app, concat_app. cbn [map concat]. rewrite app_nil_r, <- Hst.
      destruct (packLine_cases chunks buf line)
        as [[-> ->] | [(_ & _ & ->) | (_ & _ & ->)]]; cbn [fst snd].
      + cbn. rewrite app_nil_r. reflexivity.
      + rewrite map_app, concat_app. cbn [map concat].
        rewrite app_nil_r, squeeze_trim, <- app_assoc. reflexivity.
      + rewrite !squeeze_app, <- app_assoc. reflexivity.
    - reflexivity.
    - apply Forall_forall. auto. }
  cbn [app] in Hinv. unfold I in Hinv.
  destruct (fold_left packLine lines ([], [])) as [chunks buf]. cbn [fst snd] in *.
  rewrite <- Hinv.
  destruct (Js.trim buf) as [|c t] eqn:Htrim; cbn [Js.truthy].
  - rewrite (squeeze_empty_trim buf Htrim), app_nil_r. reflexivity.
  - rewrite map_app, concat_app. cbn [map concat].
    rewrite app_nil_r, <- Htrim, squeeze_trim. reflexivity.
Qed.

(** Solid lines are packed without loss. *)
Lemma packLines_solid (lines : list (list N)) :
  lines <> [] -> Forall solid lines ->
  Js.join [Js.LF] (packLines lines) = Js.join [Js.LF] lines /\
  Forall solid (packLines lines).
Proof.
  intros Hne Hsolid. unfold packLines.
  pose (I := fun (done : list (list N)) (st : list (list N) * list N) =>
               (done = [] /\ st = ([], [])) \/
               (done <> [] /\ solid st.2 /\ Forall solid st.1 /\
                Js.join [Js.LF] (st.1 ++ [st.2]) = Js.join [Js.LF] done)).
  assert (Hinv : I ([] ++ lines) (fold_left packLine lines ([], []))).
  { apply (fold_left_invariant packLine I solid).
    - intros done [chunks buf] line Hst Hline. unfold I in *. right.
      split; [destruct done; discriminate|].
      destruct Hst as [[-> [= -> ->]] | (Hdone & Hbuf & Hchunks & Hjoin)];
        cbn [fst snd] in *.
      + rewrite packLine_start. cbn [fst snd]. repeat split; try assumption.
        * apply Hline.
        * apply Hline.
        * constructor.
      + destruct (packLine_cases chunks buf line)
          as [[-> _] | [(_ & _ & ->) | (_ & _ & ->)]]; cbn [fst snd].
        * destruct Hbuf as [Hbuf _]. contradiction.
        * destruct Hbuf as [Hb1 Hb2]. rewrite Hb2. split; [exact Hline|]. split.
          -- apply Forall_app. split; [exact Hchunks|].
             constructor; [split; assumption | constructor].
          -- rewrite (join_snoc _ line (chunks ++ [buf]))
               by (destruct chunks; discriminate).
             rewrite (join_snoc _ line done) by assumption.
             rewrite Hjoin. reflexivity.
        * split; [apply solid_glue; assumption|]. split; [exact Hchunks|].
          rewrite join_extend_last, Hjoin, join_snoc by assumption.
          reflexivity.
    - left. split; reflexivity.
    - exact Hsolid. }
  cbn [app] in Hinv. unfold I in Hinv.
  destruct (fold_left packLine lines ([], [])) as [chunks buf]. cbn [fst snd] in *.
  destruct Hinv as [[Hl _] | (_ & Hbuf & Hchunks & Hjoin)]; [contradiction|].
  destruct Hbuf as [Hb1 Hb2]. rewrite Hb2.
  destruct buf as [|c buf]; [contradiction|]. cbn [Js.truthy].
  split; [exact Hjoin|]. apply Forall_app. split; [exact Hchunks|].
  constructor; [split; assumption | constructor].
Qed.

Lemma solid_join (ls : list (list N)) :
  ls <> [] -> Forall solid ls -> solid (Js.join [Js.LF] ls).
Proof.
  induction ls as [|p ls IH]; [contradiction|]. intros _ Hall.
  apply Forall_cons in Hall as [Hp Hls].
  destruct ls as [|q ls]; [exact Hp|].
  rewrite join_cons by discriminate.
  apply solid_glue; [exact Hp | apply IH; [discriminate | exact Hls]].
Qed.

Lemma chunk_texts (key : list N) (texts : list (list N)) :
  forall start,
    map Chunk.text
        (imap (fun i chunk =>
                 Chunk.mk (key ++ Js.lit ":" ++ Js.decimal (start + i + 1)) key chunk)
              texts)
    = texts.
Proof.
  induction texts as [|t texts IH]; intros start; [reflexivity|].
  cbn [imap map Chunk.text]. f_equal.
  rewrite <- (IH (S start)) at 2. f_equal. apply imap_ext. intros i x _.
  unfold compose. replace (start + S i + 1)%nat with (S start + i + 1)%nat by lia.
  reflexivity.
Qed.

Lemma chunkSection_texts (key text : list N) :
  map Chunk.text (chunkSection key text) = packLines (splitLines text).
Proof. unfold chunkSection. cbv zeta. apply (chunk_texts key _ 0%nat). Qed.

(** C6, as the code has it. The chunks of a section carry the ids [key:1],
    [key:2], ... in order. A chunk exceeds the character cap only when it is
    a single line of the section that itself exceeds it, so no chunk does
    when no line does. Joined by line feeds, the chunks give back the section
    text up to white space; they give back its lines exactly when every line
    is solid (not empty, no white space at either end), and then the trimmed
    text itself when it has no carriage return. *)
Theorem chunker_contract (key text : list N) :
  let lines := splitLines text in
  let chunks := chunkSection key text in
  (forall i ch, chunks !! i = Some ch ->
     Chunk.id ch = key ++ Js.lit ":" ++ Js.decimal (i + 1) /\ Chunk.key ch = key) /\
  Forall (fun ch => withinCap lines (Chunk.text ch)) chunks /\
  (Forall (fun line => (length line <= MAX_EMBED_CHUNK_CHARS)%nat) lines ->
   Forall (fun ch => (length (Chunk.text ch) <= MAX_EMBED_CHUNK_CHARS)%nat) chunks) /\
  squeeze (Js.join [Js.LF] (map Chunk.text chunks)) = squeeze text /\
  (Forall solid lines ->
   Js.join [Js.LF] (map Chunk.text chunks) = Js.join [Js.LF] lines /\
   (Js.CR ∉ text -> Js.join [Js.LF] (map Chunk.text chunks) = Js.trim text)).
Proof.
  intros lines chunks.
  assert (Hcap : Forall (fun ch => withinCap lines (Chunk.text ch)) chunks).
  { pose proof (packLines_cap lines) as H. subst lines chunks.
    rewrite <- (chunkSection_texts key text) in H.
    exact (proj1 (Forall_map _ _ _) H). }
  split; [|split; [exact Hcap|split; [|split]]].
  - intros i ch Hi. subst chunks. unfold chunkSection in Hi. cbv zeta in Hi.
    apply list_lookup_imap_Some in Hi as (t & _ & ->). split; reflexivity.
  - intros Hlines. eapply Forall_impl; [exact Hcap|].
    intros ch [Hok | (line & Hin & Hlong & _)]; [exact Hok|].
    rewrite Forall_forall in Hlines. specialize (Hlines line Hin). cbn in *. lia.
  - subst chunks. rewrite squeeze_join, chunkSection_texts, packLines_squeeze.
    apply squeeze_splitLines.
  - intros Hsolid. subst chunks lines. rewrite chunkSection_texts.
    destruct (packLines_solid _ (splitLines_nonempty text) Hsolid) as [Hjoin _].
    split; [exact Hjoin|]. intros Hcr. rewrite Hjoin.
    pose proof (solid_join _ (splitLines_nonempty text) Hsolid) as [_ Htrim].
    rewrite (join_splitLines text Hcr) in *. symmetry. exact Htrim.
Qed.

(** A section with an over-long first line followed by a blank line: the
    first chunk is longer than the cap, and the chunks joined by line feeds
    are one code unit short of the trimmed text. *)
Lemma chunker_counterexample :
  let chunks := chunkSection (Js.lit "meze") overlongThenBlank in
  map (fun ch => length (Chunk.text ch)) chunks = [1401; 1]%nat /\
  MAX_EMBED_CHUNK_CHARS = 1400%nat /\
  length (Js.join [Js.LF] (map Chunk.text chunks)) = 1403%nat /\
  length (Js.trim overlongThenBlank) = 1404%nat /\
  Js.join [Js.LF] (map Chunk.text chunks) <> Js.trim overlongThenBlank.
Proof.
  cbv zeta.
  assert (H1 : length (Js.join [Js.LF]
                 (map Chunk.text (chunkSection (Js.lit "meze") overlongThenBlank)))
               = 1403%nat) by (vm_compute; reflexivity).
  assert (H2 : length (Js.trim overlongThenBlank) = 1404%nat)
    by (vm_compute; reflexivity).
  split; [vm_compute; reflexivity|]. split; [reflexivity|].
  split; [exact H1|]. split; [exact H2|].
  intros Heq. rewrite Heq, H2 in H1. discriminate H1.
Qed.

(** Two solid lines under the cap: one chunk, the text itself. *)
Example chunker_two_lines :
  Forall solid (splitLines twoLines) /\
  map Chunk.text (chunkSection (Js.lit "meze") twoLines) = [twoLines] /\
  map Chunk.id (chunkSection (Js.lit "meze") twoLines) = [Js.lit "meze:1"].
Proof.
  split; [|split; vm_compute; reflexivity].
  vm_compute. repeat constructor; discriminate.
Qed.

(** ** Retriever *)






(** *** The stable descending sort *)

Lemma insertSorted_perm (x : Scored) (l : list Scored) :
  insertSorted x l ≡ₚ x :: l.
Proof.
  induction l as [|y l IH]; [reflexivity|]. cbn [insertSorted].
  destruct (after x y); [|reflexivity].
  rewrite IH. apply Permutation_swap.
Qed.

Lemma sortByScore_perm (l : list Scored) : sortByScore l ≡ₚ l.
Proof.
  induction l as [|x l IH]; [reflexivity|]. cbn [sortByScore foldr].
  fold (sortByScore l). rewrite insertSorted_perm, IH. reflexivity.
Qed.

Lemma sortByScore_elem (l : list Scored) (x : Scored) :
  x ∈ sortByScore l <-> x ∈ l.
Proof. rewrite (sortByScore_perm l). reflexivity. Qed.





(** For a comparator that is consistent on the entries, the result is in
    order: no entry has to come after a later one. *)
Lemma insertSorted_sorted (x : Scored) (l : list Scored) :
  (forall y, y ∈ l -> after x y = true -> after y x = false) ->
  (forall y z, y ∈ l -> z ∈ l ->
     after x y = false -> after y z = false -> after x z = false) ->
  StronglySorted (fun a b => after a b = false) l ->
  StronglySorted (fun a b => after a b = false) (insertSorted x l).
Proof.
  intros Hasym Htrans Hsorted.
  induction Hsorted as [|y l Hl IH Hy]; cbn [insertSorted].
  - repeat constructor.
  - destruct (after x y) eqn:Hxy.
    + constructor.
      * apply IH.
        -- intros z Hz. apply Hasym. right. exact Hz.
        -- intros z w Hz Hw. apply Htrans; right; assumption.
      * apply Forall_forall. intros z Hz.
        rewrite (insertSorted_perm x l) in Hz.
        apply elem_of_cons in Hz as [->|Hz].
        -- apply Hasym; [left | exact Hxy].
        -- rewrite Forall_forall in Hy. apply Hy. exact Hz.
    + constructor; [constructor; assumption|].
      constructor; [exact Hxy|].
      apply Forall_forall. intros z Hz. rewrite Forall_forall in Hy.
      apply (Htrans y z); [left | right; exact Hz | exact Hxy | apply Hy, Hz].
Qed.

Lemma sortByScore_sorted (l : list Scored) :
  consistentOn l ->
  StronglySorted (fun a b => after a b = false) (sortByScore l).
Proof.
  intros [Hasym Htrans]. induction l as [|x l IH]; [constructor|].
  cbn [sortByScore foldr]. fold (sortByScore l).
  apply insertSorted_sorted.
  - intros y Hy. apply (proj1 (sortByScore_elem l y)) in Hy.
    apply Hasym; [left | right; exact Hy].
  - intros y z Hy Hz. apply (proj1 (sortByScore_elem l y)) in Hy.
    apply (proj1 (sortByScore_elem l z)) in Hz.
    apply Htrans; [left | right; exact Hy | right; exact Hz].
  - apply IH.
    + intros y z Hy Hz. apply Hasym; right; assumption.
    + intros y z w Hy Hz Hw. apply Htrans; right; assumption.
Qed.











(** ** ContextAssembler *)










Lemma scoreAll_indices (q : list float) (embeddings : list (list float)) :
  map idx (scoreAll q embeddings) = seq 0 (length embeddings).
Proof.
  unfold scoreAll.
  enough (H : forall start,
            map idx (imap (fun i vec => {| idx := start + i;
                                           score := cosineSimilarity q vec |})
                          embeddings)
            = seq start (length embeddings)) by apply (H 0%nat).
  induction embeddings as [|v embeddings IH]; intros start; [reflexivity|].
  cbn [imap map length seq idx]. rewrite Nat.add_0_r. f_equal.
  rewrite <- (IH (S start)). f_equal. apply imap_ext. intros i x _.
  unfold compose. f_equal. lia.
Qed.


(** The ranked entries carry different indices, all inside the corpus. *)
Lemma ranked_indices (q : list float) (embeddings : list (list float)) (k : nat) :
  NoDup (map idx (take k (sortByScore (scoreAll q embeddings)))) /\
  Forall (fun s => (idx s < length embeddings)%nat)
         (take k (sortByScore (scoreAll q embeddings))).
Proof.
  assert (Hperm : map idx (sortByScore (scoreAll q embeddings))
                  ≡ₚ seq 0 (length embeddings)).
  { rewrite <- (scoreAll_indices q). apply Permutation_map, sortByScore_perm. }
  split.
  - apply (sublist_NoDup _ (map idx (sortByScore (scoreAll q embeddings)))).
    + rewrite Hperm. apply NoDup_seq.
    + apply (fmap_sublist idx), sublist_take.
  - apply Forall_forall. intros s Hs.
    assert (Hin : idx s ∈ seq 0 (length embeddings)).
    { rewrite <- Hperm. apply list_elem_of_fmap. exists s. split; [reflexivity|].
      apply (subseteq_take k). exact Hs. }
    apply elem_of_seq in Hin. lia.
Qed.








Example context_of_sample :
  buildMenuContextForQuery demoChunks demoEmbeddings demoQuery
    demoIntentEmbeddings
  = Some (Js.join [Js.LF; Js.LF]
            [Js.lit "### INTRO (intro:1)" ++ [Js.LF] ++ Js.lit "Nyitva 12-22";
             Js.lit "### FOOTER (footer:1)" ++ [Js.LF]
               ++ Js.lit "Az arak forintban ertendoek";
             Js.lit "### DRINKS (drinks:1)" ++ [Js.LF] ++ Js.lit "Limonade 1500";
             Js.lit "### MEZE (meze:1)" ++ [Js.LF] ++ Js.lit "Humusz 2900"],
          Js.lit "cheapest").
Proof. vm_compute. reflexivity. Qed.

(** On the scores of the sample corpus the comparator is consistent, and the
    ranking is drinks, intro, footer, meze. *)
Example ranking_of_sample :
  consistentOn (scoreAll demoQuery demoEmbeddings) /\
  map idx (sortByScore (scoreAll demoQuery demoEmbeddings)) = [2; 0; 3; 1]%nat.
Proof.
  split; [|vm_compute; reflexivity].
  assert (Hall : scoreAll demoQuery demoEmbeddings
                 = [{| idx := 0; score := 0x1.6a09e667f3bccp-1 |};
                    {| idx := 1; score := 0 |};
                    {| idx := 2; score := 1 |};
                    {| idx := 3; score := 0x1.6a09e667f3bccp-1 |}]%float)
    by (vm_compute; reflexivity).
  rewrite Hall. split.
  - intros x y Hx Hy.
    repeat (apply elem_of_cons in Hx as [->|Hx]);
      try (inversion Hx; fail);
      repeat (apply elem_of_cons in Hy as [->|Hy]);
      try (inversion Hy; fail);
      vm_compute; congruence.
  - intros x y z Hx Hy Hz.
    repeat (apply elem_of_cons in Hx as [->|Hx]);
      try (inversion Hx; fail);
      repeat (apply elem_of_cons in Hy as [->|Hy]);
      try (inversion Hy; fail);
      repeat (apply elem_of_cons in Hz as [->|Hz]);
      try (inversion Hz; fail);
      vm_compute; congruence.
Qed.

(** * Further properties of the governance layer *)

(** ** The guards keep the clients apart *)

Lemma applyRateLimit_other (now : Z) (key other : list N) (c : Ctx) :
  other <> key ->
  rateState (applyRateLimitOrThrow now key c).2 !! other = rateState c !! other.
Proof.
  intros Hne. unfold applyRateLimitOrThrow. cbv zeta.
  match goal with |- context [if ?b then (Throw _, _) else _] => destruct b end;
    cbn; apply lookup_insert_ne; congruence.
Qed.

Lemma applySpamGuard_other (now : Z) (key other : list N) (c : Ctx) :
  other <> key ->
  spamState (applySpamGuardOrThrow now key c).2 !! other = spamState c !! other.
Proof.
  intros Hne. unfold applySpamGuardOrThrow. cbv zeta.
  repeat match goal with
         | |- context [if ?b then (Throw _, _) else _] => destruct b
         end;
    cbn; try reflexivity; apply lookup_insert_ne; congruence.
Qed.

Lemma applyBusyGuard_other (key other : list N) (c : Ctx) :
  other <> key ->
  inFlight (applyBusyGuardOrThrow key c).2 !! other = inFlight c !! other.
Proof.
  intros Hne. unfold applyBusyGuardOrThrow.
  destruct (default false (inFlight c !! key)); cbn; [reflexivity|].
  apply lookup_insert_ne. congruence.
Qed.

Lemma applyBusyGuard_frame (key : list N) (c : Ctx) :
  cache (applyBusyGuardOrThrow key c).2 = cache c /\
  rateState (applyBusyGuardOrThrow key c).2 = rateState c /\
  spamState (applyBusyGuardOrThrow key c).2 = spamState c.
Proof.
  unfold applyBusyGuardOrThrow.
  destruct (default false (inFlight c !! key)); cbn; auto.
Qed.

(** The state the guards leave, guard by guard. *)
Lemma governance_state (tR tS : Z) (key : list N) (c : Ctx) :
  let c1 := (applyRateLimitOrThrow tR key c).2 in
  let c2 := (applySpamGuardOrThrow tS key c1).2 in
  let c3 := (applyBusyGuardOrThrow key c2).2 in
  (governance tR tS key c).2 = c1 \/
  (governance tR tS key c).2 = c2 \/
  (governance tR tS key c).2 = c3.
Proof.
  cbv zeta. munfold.
  destruct (applyRateLimitOrThrow tR key c) as [[[]|e1] c1]; cbn [snd];
    [|left; reflexivity].
  destruct (applySpamGuardOrThrow tS key c1) as [[[]|e2] c2]; cbn [snd];
    [|right; left; reflexivity].
  right; right; reflexivity.
Qed.

(** X1. The guards and the release of one client touch no record of another
    client, whatever the outcome, and never the answer cache: a client that
    floods the service uses up its own budget only. *)
Theorem guards_isolate_clients (tR tS : Z) (key other : list N) (c : Ctx) :
  other <> key ->
  let c' := (governance tR tS key c).2 in
  rateState c' !! other = rateState c !! other /\
  spamState c' !! other = spamState c !! other /\
  inFlight c' !! other = inFlight c !! other /\
  inFlight (clearBusy key c').2 !! other = inFlight c !! other /\
  cache (clearBusy key c').2 = cache c.
Proof.
  intros Hne. cbv zeta.
  pose proof (applyRateLimit_other tR key other c Hne) as Hr.
  pose proof (applyRateLimit_frame tR key c) as (Hr1 & _ & Hr2 & Hr3).
  set (c1 := (applyRateLimitOrThrow tR key c).2) in *.
  pose proof (applySpamGuard_other tS key other c1 Hne) as Hs.
  pose proof (applySpamGuard_frame tS key c1) as (Hs1 & _ & Hs2 & Hs3).
  set (c2 := (applySpamGuardOrThrow tS key c1).2) in *.
  pose proof (applyBusyGuard_other key other c2 Hne) as Hb.
  pose proof (applyBusyGuard_frame key c2) as (Hb1 & Hb2 & Hb3).
  set (c3 := (applyBusyGuardOrThrow key c2).2) in *.
  assert (Hdel : forall x : Ctx,
            inFlight (clearBusy key x).2 !! other = inFlight x !! other)
    by (intros x; cbn; apply lookup_delete_ne; congruence).
  assert (Hcache : forall x : Ctx, cache (clearBusy key x).2 = cache x)
    by (intros x; reflexivity).
  rewrite Hdel, Hcache.
  destruct (governance_state tR tS key c) as [-> | [-> | ->]];
    fold c1; fold c2; fold c3;
    repeat split; congruence.
Qed.

(** Two clients, one of them at the cap of the rate limiter. *)
Lemma guards_isolate_clients_witness :
  rateState (governance 1000 1000 demoKey atCap).2 !! Js.lit "ip:203.0.113.7"
  = None.
Proof.
  assert (Hne : Js.lit "ip:203.0.113.7" <> demoKey) by (vm_compute; discriminate).
  destruct (guards_isolate_clients 1000 1000 demoKey _ atCap Hne) as (H & _).
  rewrite H. reflexivity.
Defined.

(** ** Bounds on the retry-after a client is told *)

Lemma ceilSeconds_bounds (ms n : Z) :
  0 <= ms <= 1000 * n -> 0 <= ceilSeconds ms <= n.
Proof. intros H. pose proof (ceilSeconds_ceiling ms). lia. Qed.

Lemma retryAfter_bounds (ms n : Z) :
  1 <= n -> ms <= 1000 * n -> 1 <= retryAfter ms <= n.
Proof.
  intros Hn H. unfold retryAfter. pose proof (ceilSeconds_ceiling ms). lia.
Qed.

(** One call of the rate limiter on a record whose reset time is one window
    after its start, at a time not before that start. *)
Lemma applyRateLimit_bounded (now : Z) (key : list N) (c : Ctx) :
  (forall st, rateState c !! key = Some st ->
     Rate.resetAt st = Rate.windowStart st + RL_WINDOW_MS /\
     Rate.windowStart st <= now) ->
  ((applyRateLimitOrThrow now key c).1 = Ret tt \/
   exists r, (applyRateLimitOrThrow now key c).1 = Throw (rateLimitError r) /\
             1 <= r <= 60) /\
  exists st', rateState (applyRateLimitOrThrow now key c).2 !! key = Some st' /\
              Rate.resetAt st' = Rate.windowStart st' + RL_WINDOW_MS /\
              Rate.windowStart st' <= now.
Proof.
  intros Hinv. destruct (rateState c !! key) as [st|] eqn:Hst.
  - destruct (Hinv st eq_refl) as [Hreset Hstart].
    unfold applyRateLimitOrThrow. rewrite Hst. cbn [default from_option id].
    destruct (now - Rate.windowStart st >? RL_WINDOW_MS) eqn:Ew; zbool;
      cbn [Rate.windowStart Rate.count Rate.resetAt];
      match goal with |- context [if ?b then (Throw _, _) else _] => destruct b end;
      cbn [fst snd]; (split; [|eexists; split; [apply lookup_insert_eq|cbn; lia]]);
      try (left; reflexivity); right; eexists; (split; [reflexivity|]);
      apply retryAfter_bounds; unfold RL_WINDOW_MS in *; lia.
  - rewrite (applyRateLimit_first now key c Hst). cbn [fst snd]. split.
    + left; reflexivity.
    + eexists. split; [apply lookup_insert_eq|]. cbn. lia.
Qed.

Lemma rateCalls_bounded (key : list N) (times : list Z) :
  forall (c : Ctx) (lo : Z),
    (forall st, rateState c !! key = Some st ->
       Rate.resetAt st = Rate.windowStart st + RL_WINDOW_MS /\
       Rate.windowStart st <= lo) ->
    Forall (Z.le lo) times ->
    StronglySorted Z.le times ->
    Forall (fun o => o = Ret tt \/
                     exists r, o = Throw (rateLimitError r) /\ 1 <= r <= 60)
           (rateCalls key times c).1.
Proof.
  induction times as [|t rest IH]; intros c lo Hinv Hlo Hsorted.
  - constructor.
  - apply Forall_cons in Hlo as [Ht Hlo].
    apply StronglySorted_inv in Hsorted as [Hsorted Hhead].
    cbn [rateCalls].
    assert (Hinv' : forall st, rateState c !! key = Some st ->
              Rate.resetAt st = Rate.windowStart st + RL_WINDOW_MS /\
              Rate.windowStart st <= t)
      by (intros st Hst; destruct (Hinv st Hst); split; [assumption|lia]).
    destruct (applyRateLimit_bounded t key c Hinv') as [Hout (st' & Hst' & Hr & Hs)].
    destruct (applyRateLimitOrThrow t key c) as [o c1]. cbn [fst snd] in *.
    specialize (IH c1 t).
    destruct (rateCalls key rest c1) as [os c2]. cbn [fst] in *.
    constructor; [exact Hout|].
    apply IH; [|exact Hhead|exact Hsorted].
    intros st Hst. rewrite Hst' in Hst. injection Hst as <-. split; assumption.
Qed.

(** X2. With a clock that does not run backwards, every rejection of the rate
    limiter tells a client not seen before a retry-after between 1 and 60
    seconds: never a wait longer than the window. *)
Theorem rate_limit_retry_after_bounds (key : list N) (times : list Z) (c : Ctx) :
  rateState c !! key = None ->
  StronglySorted Z.le times ->
  forall (i : nat) (o : Outcome unit),
    (rateCalls key times c).1 !! i = Some o ->
    o = Ret tt \/ exists r, o = Throw (rateLimitError r) /\ 1 <= r <= 60.
Proof.
  intros Hnone Hsorted i o Hi.
  destruct times as [|t rest]; [discriminate Hi|].
  assert (Hall : Forall (fun o => o = Ret tt \/
                   exists r, o = Throw (rateLimitError r) /\ 1 <= r <= 60)
                   (rateCalls key (t :: rest) c).1).
  { apply (rateCalls_bounded key (t :: rest) c t).
    - intros st Hst. congruence.
    - apply StronglySorted_inv in Hsorted as [_ Hhead].
      constructor; [lia|exact Hhead].
    - exact Hsorted. }
  rewrite Forall_lookup in Hall. exact (Hall i o Hi).
Qed.

(** Fourteen calls one second apart: the thirteenth is told 48 seconds. *)
Lemma rate_limit_retry_after_bounds_witness :
  exists r,
    (rateCalls demoKey (map (fun k => 1000 * Z.of_nat k) (seq 1 14)) emptyCtx).1
      !! 12%nat = Some (Throw (rateLimitError r)) /\
    1 <= r <= 60.
Proof.
  set (times := map (fun k => 1000 * Z.of_nat k) (seq 1 14)).
  assert (Hnone : rateState emptyCtx !! demoKey = None) by reflexivity.
  assert (Hsorted : StronglySorted Z.le times).
  { subst times. cbn.
    repeat (apply SSorted_cons; [|repeat constructor; lia]). constructor. }
  assert (Hi : (rateCalls demoKey times emptyCtx).1 !! 12%nat
               = Some (Throw (rateLimitError 48)))
    by (vm_compute; reflexivity).
  destruct (rate_limit_retry_after_bounds demoKey times emptyCtx Hnone Hsorted
              12%nat _ Hi) as [Hret | (r & Hr & Hbounds)].
  - discriminate Hret.
  - exists r. split; [|exact Hbounds]. rewrite Hi, Hr. reflexivity.
Defined.

(** One call of the spam guard, rule by rule, on the record [st] it reads
    (the stored one, or a fresh one), with the record [st'] it leaves. *)
Lemma applySpamGuard_step (now : Z) (key : list N) (c : Ctx) :
  let st := default (Spam.mk now 0 0 0) (spamState c !! key) in
  let run := applySpamGuardOrThrow now key c in
  (run.1 = Throw (spamError COOLDOWN (retryAfter (Spam.blockedUntil st - now))) /\
   Spam.blockedUntil st <> 0 /\ now < Spam.blockedUntil st /\ run.2 = c) \/
  (exists st', spamState run.2 !! key = Some st' /\
     ((run.1 = Throw (spamError TOO_FAST 3) /\
       Spam.lastAt st <> 0 /\ now - Spam.lastAt st < MIN_INTERVAL_MS /\
       Spam.blockedUntil st' = now + 3000 /\ Spam.lastAt st' = Spam.lastAt st) \/
      ((Spam.lastAt st = 0 \/ MIN_INTERVAL_MS <= now - Spam.lastAt st) /\
       Spam.lastAt st' = now /\
       ((run.1 = Throw (spamError SPAM_WINDOW 180) /\
         Spam.blockedUntil st' = now + SPAM_BLOCK_MS) \/
        (run.1 = Ret tt /\ Spam.blockedUntil st' = Spam.blockedUntil st))))).
Proof.
  cbv zeta. unfold applySpamGuardOrThrow.
  set (st := default (Spam.mk now 0 0 0) (spamState c !! key)).
  cbv zeta.
  destruct (truthyZ (Spam.blockedUntil st) && (now <? Spam.blockedUntil st)) eqn:E1.
  { left. unfold truthyZ in E1. zbool. cbn [fst snd]. auto. }
  right.
  destruct (truthyZ (Spam.lastAt st) && (now - Spam.lastAt st <? MIN_INTERVAL_MS))
    eqn:E2.
  { unfold truthyZ in E2. zbool. cbn [fst snd].
    eexists. split; [apply lookup_insert_eq|]. left. cbn. auto. }
  assert (Hfar : Spam.lastAt st = 0 \/ MIN_INTERVAL_MS <= now - Spam.lastAt st).
  { apply andb_false_iff in E2 as [E2|E2]; unfold truthyZ in E2; zbool; auto. }
  match goal with |- context [if ?b then (Throw _, _) else _] => destruct b end;
    cbn [fst snd]; (eexists; split; [apply lookup_insert_eq|]); right;
    (split; [exact Hfar|]); (split; [reflexivity|]); [left|right];
    (split; [reflexivity|]); cbn; [reflexivity|].
  destruct (now - Spam.windowStart st >? SPAM_WINDOW_MS); reflexivity.
Qed.

Lemma spamCalls_bounded (key : list N) (times : list Z) :
  forall (c : Ctx) (lo : Z),
    (forall st, spamState c !! key = Some st ->
       Spam.blockedUntil st = 0 \/ Spam.blockedUntil st <= lo + SPAM_BLOCK_MS) ->
    Forall (Z.le lo) times ->
    StronglySorted Z.le times ->
    Forall (fun o => o = Ret tt \/
                     exists name r, o = Throw (spamError name r) /\ 1 <= r <= 180)
           (spamCalls key times c).1.
Proof.
  induction times as [|t rest IH]; intros c lo Hinv Hlo Hsorted.
  - constructor.
  - apply Forall_cons in Hlo as [Ht Hlo].
    apply StronglySorted_inv in Hsorted as [Hsorted Hhead].
    cbn [spamCalls].
    pose proof (applySpamGuard_step t key c) as Hstep. cbv zeta in Hstep.
    set (st := default (Spam.mk t 0 0 0) (spamState c !! key)) in Hstep.
    assert (Hst : Spam.blockedUntil st = 0 \/
                  Spam.blockedUntil st <= lo + SPAM_BLOCK_MS).
    { subst st. destruct (spamState c !! key) as [s|] eqn:Hs; cbn; [|auto].
      apply Hinv. reflexivity. }
    destruct (applySpamGuardOrThrow t key c) as [o c1]. cbn [fst snd] in *.
    specialize (IH c1 t).
    destruct (spamCalls key rest c1) as [os c2]. cbn [fst] in *.
    assert (Hblock : SPAM_BLOCK_MS = 180 * 1000) by reflexivity.
    destruct Hstep as [(Ho & Hne & Hlt & Hc1)
                      | (st' & Hst' & [(Ho & _ & _ & Hb & _)
                                      | (_ & _ & [(Ho & Hb) | (Ho & Hb)])])];
      (constructor;
       [ subst o; try (left; reflexivity); right; do 2 eexists;
         (split; [reflexivity|]); try lia; apply retryAfter_bounds; lia
       | apply IH; [|exact Hhead|exact Hsorted] ]).
    + subst c1. intros s Hs. specialize (Hinv s Hs). lia.
    + intros s Hs. rewrite Hst' in Hs. injection Hs as <-. lia.
    + intros s Hs. rewrite Hst' in Hs. injection Hs as <-. lia.
    + intros s Hs. rewrite Hst' in Hs. injection Hs as <-. lia.
Qed.

(** X3. With a clock that does not run backwards, every rejection of the spam
    guard tells a client not seen before a retry-after between 1 and 180
    seconds, whichever rule rejects. *)
Theorem spam_retry_after_bounds (key : list N) (times : list Z) (c : Ctx) :
  spamState c !! key = None ->
  StronglySorted Z.le times ->
  forall (i : nat) (o : Outcome unit),
    (spamCalls key times c).1 !! i = Some o ->
    o = Ret tt \/
    exists name r, o = Throw (spamError name r) /\ 1 <= r <= 180.
Proof.
  intros Hnone Hsorted i o Hi.
  destruct times as [|t rest]; [discriminate Hi|].
  assert (Hall : Forall (fun o => o = Ret tt \/
                   exists name r, o = Throw (spamError name r) /\ 1 <= r <= 180)
                   (spamCalls key (t :: rest) c).1).
  { apply (spamCalls_bounded key (t :: rest) c t).
    - intros st Hst. congruence.
    - apply StronglySorted_inv in Hsorted as [_ Hhead].
      constructor; [lia|exact Hhead].
    - exact Hsorted. }
  rewrite Forall_lookup in Hall. exact (Hall i o Hi).
Qed.

(** Three calls: the second comes 100 ms after the first and is told 3
    seconds, the third comes inside that cool-down and is told the 3 seconds
    (2100 ms, rounded up) that remain. *)
Lemma spam_retry_after_bounds_witness :
  exists name r,
    (spamCalls demoKey [1000; 1100; 2000] emptyCtx).1 !! 2%nat
      = Some (Throw (spamError name r)) /\
    1 <= r <= 180.
Proof.
  assert (Hnone : spamState emptyCtx !! demoKey = None) by reflexivity.
  assert (Hsorted : StronglySorted Z.le [1000; 1100; 2000]).
  { repeat (apply SSorted_cons; [|repeat constructor; lia]). constructor. }
  assert (Hi : (spamCalls demoKey [1000; 1100; 2000] emptyCtx).1 !! 2%nat
               = Some (Throw (spamError COOLDOWN 3)))
    by (vm_compute; reflexivity).
  destruct (spam_retry_after_bounds demoKey _ emptyCtx Hnone Hsorted
              2%nat _ Hi) as [Hret | (name & r & Hr & Hbounds)].
  - discriminate Hret.
  - exists name, r. split; [|exact Hbounds]. rewrite Hi, Hr. reflexivity.
Defined.

(** ** Spacing of the admitted calls *)

Lemma spamCalls_spacing_from (key : list N) (times : list Z) :
  forall (c : Ctx) (t : Z) (st : Spam.state),
    spamState c !! key = Some st ->
    t <= Spam.lastAt st -> 0 < t ->
    Forall (Z.le t) times ->
    forall (j : nat) (tj : Z),
      (spamCalls key times c).1 !! j = Some (Ret tt) ->
      times !! j = Some tj ->
      MIN_INTERVAL_MS <= tj - t.
Proof.
  induction times as [|t1 rest IH]; intros c t st Hst Hlast Hpos Hall j tj Hj Htj.
  - discriminate Htj.
  - apply Forall_cons in Hall as [Ht1 Hall].
    cbn [spamCalls] in Hj.
    pose proof (applySpamGuard_step t1 key c) as Hstep. cbv zeta in Hstep.
    rewrite Hst in Hstep. cbn [default from_option id] in Hstep.
    destruct (applySpamGuardOrThrow t1 key c) as [o c1]. cbn [fst snd] in *.
    specialize (IH c1 t).
    destruct (spamCalls key rest c1) as [os c2]. cbn [fst] in *.
    destruct j as [|j]; cbn in Hj, Htj.
    + injection Hj as ->. injection Htj as ->.
      destruct Hstep as [(Ho & _)
                        | (st' & _ & [(Ho & _)
                                     | (Hfar & _ & [(Ho & _) | _])])];
        try discriminate Ho.
      lia.
    + destruct Hstep as [(_ & _ & _ & Hc1)
                        | (st' & Hst' & [(_ & _ & _ & _ & Hl)
                                        | (_ & Hl & _)])].
      * subst c1. exact (IH st Hst Hlast Hpos Hall j tj Hj Htj).
      * refine (IH st' Hst' _ Hpos Hall j tj Hj Htj). lia.
      * refine (IH st' Hst' _ Hpos Hall j tj Hj Htj). lia.
Qed.

(** X4. With a positive clock that does not run backwards, any two calls the
    spam guard admits for one client lie at least [MIN_INTERVAL_MS] apart,
    from whatever state the sequence starts. *)
Theorem spam_admitted_calls_spaced (key : list N) (times : list Z) :
  forall (c : Ctx),
    StronglySorted Z.le times ->
    Forall (Z.lt 0) times ->
    forall (i j : nat) (ti tj : Z),
      (i < j)%nat ->
      (spamCalls key times c).1 !! i = Some (Ret tt) ->
      (spamCalls key times c).1 !! j = Some (Ret tt) ->
      times !! i = Some ti -> times !! j = Some tj ->
      MIN_INTERVAL_MS <= tj - ti.
Proof.
  induction times as [|t1 rest IH]; intros c Hsorted Hpos i j ti tj Hij Hi Hj Hti Htj.
  - discriminate Hti.
  - apply StronglySorted_inv in Hsorted as [Hsorted Hhead].
    apply Forall_cons in Hpos as [Hpos1 Hpos].
    cbn [spamCalls] in Hi, Hj.
    pose proof (applySpamGuard_step t1 key c) as Hstep. cbv zeta in Hstep.
    pose proof (spamCalls_spacing_from key rest) as Hfrom.
    destruct (applySpamGuardOrThrow t1 key c) as [o c1]. cbn [fst snd] in *.
    specialize (IH c1 Hsorted Hpos). specialize (Hfrom c1 t1).
    destruct (spamCalls key rest c1) as [os c2]. cbn [fst] in *.
    destruct j as [|j]; [lia|]. cbn in Hj, Htj.
    destruct i as [|i]; cbn in Hi, Hti.
    + injection Hi as ->. injection Hti as ->.
      destruct Hstep as [(Ho & _)
                        | (st' & Hst' & [(Ho & _)
                                        | (_ & Hl & _)])];
        try discriminate Ho.
      apply (Hfrom st' Hst' ltac:(lia) Hpos1 Hhead j tj Hj Htj).
    + apply (IH i j ti tj); try assumption. lia.
Qed.

(** Four calls, the second too early: the first and the third are admitted,
    and so is the fourth, each 650 ms or more after the one before. *)
Lemma spam_admitted_calls_spaced_witness :
  (spamCalls demoKey [1000; 1200; 4300; 5000] emptyCtx).1
    = [Ret tt; Throw (spamError TOO_FAST 3); Ret tt; Ret tt] /\
  MIN_INTERVAL_MS <= 5000 - 4300.
Proof.
  split; [vm_compute; reflexivity|].
  assert (Hsorted : StronglySorted Z.le [1000; 1200; 4300; 5000]).
  { repeat (apply SSorted_cons; [|repeat constructor; lia]). constructor. }
  assert (Hpos : Forall (Z.lt 0) [1000; 1200; 4300; 5000])
    by (repeat constructor).
  assert (H2 : (spamCalls demoKey [1000; 1200; 4300; 5000] emptyCtx).1 !! 2%nat
               = Some (Ret tt)) by (vm_compute; reflexivity).
  assert (H3 : (spamCalls demoKey [1000; 1200; 4300; 5000] emptyCtx).1 !! 3%nat
               = Some (Ret tt)) by (vm_compute; reflexivity).
  assert (Hlt : (2 < 3)%nat) by lia.
  exact (spam_admitted_calls_spaced demoKey _ emptyCtx Hsorted Hpos
           2%nat 3%nat 4300 5000 Hlt H2 H3 eq_refl eq_refl).
Defined.

(** ** A client over the cap stays blocked until its window ends *)

(** X5. A record whose count is over the cap, as a SPAM_WINDOW rejection leaves
    it, read after its cool-down has run out: while the five-minute window
    that filled up is still open the call is rejected SPAM_WINDOW again and
    the client is blocked for another three minutes; once the window has
    elapsed the call is admitted and the count restarts at one. *)
Theorem spam_block_renewed_inside_window (now : Z) (key : list N) (c : Ctx)
    (st : Spam.state) :
  spamState c !! key = Some st ->
  SPAM_LIMIT < Spam.count st ->
  Spam.blockedUntil st <= now ->
  MIN_INTERVAL_MS <= now - Spam.lastAt st ->
  (now - Spam.windowStart st <= SPAM_WINDOW_MS ->
     applySpamGuardOrThrow now key c =
       (Throw (spamError SPAM_WINDOW 180),
        setSpamState
          (insert key (Spam.mk (Spam.windowStart st) (Spam.count st + 1)
                               (now + SPAM_BLOCK_MS) now)) c)) /\
  (SPAM_WINDOW_MS < now - Spam.windowStart st ->
     applySpamGuardOrThrow now key c =
       (Ret tt,
        setSpamState (insert key (Spam.mk now 1 (Spam.blockedUntil st) now)) c)).
Proof.
  intros Hst Hcount Hblock Hfar. split; intros Hw.
  - rewrite (spam_window_exceeded now key c st Hst); auto. lia.
  - unfold applySpamGuardOrThrow. rewrite Hst. cbn [default from_option id].
    destruct (truthyZ (Spam.blockedUntil st) && (now <? Spam.blockedUntil st))
      eqn:E1; [zbool; lia|].
    destruct (truthyZ (Spam.lastAt st) && (now - Spam.lastAt st <? MIN_INTERVAL_MS))
      eqn:E2; [zbool; lia|].
    destruct (now - Spam.windowStart st >? SPAM_WINDOW_MS) eqn:E3; zbool; [|lia].
    cbn. reflexivity.
Qed.

(** Blocked at 10 s with the window opened at 0: the call at 200 s, after
    the cool-down, is blocked again; the call at 301 s would pass. *)
Lemma spam_block_renewed_inside_window_witness :
  (applySpamGuardOrThrow 200000 demoKey
     (setSpamState (insert demoKey (Spam.mk 0 31 190000 10000)) emptyCtx)).1
  = Throw (spamError SPAM_WINDOW 180).
Proof.
  set (c := setSpamState (insert demoKey (Spam.mk 0 31 190000 10000)) emptyCtx).
  assert (Hst : spamState c !! demoKey = Some (Spam.mk 0 31 190000 10000))
    by reflexivity.
  assert (Hcount : SPAM_LIMIT < Spam.count (Spam.mk 0 31 190000 10000))
    by (vm_compute; reflexivity).
  assert (Hblock : Spam.blockedUntil (Spam.mk 0 31 190000 10000) <= 200000)
    by (vm_compute; discriminate).
  assert (Hfar : MIN_INTERVAL_MS <= 200000 - Spam.lastAt (Spam.mk 0 31 190000 10000))
    by (vm_compute; discriminate).
  assert (Hw : 200000 - Spam.windowStart (Spam.mk 0 31 190000 10000)
               <= SPAM_WINDOW_MS) by (vm_compute; discriminate).
  destruct (spam_block_renewed_inside_window 200000 demoKey c _ Hst Hcount
              Hblock Hfar) as [Hin _].
  rewrite (Hin Hw). reflexivity.
Defined.

(** * Further properties of the handlers *)

(** ** The runs of the two handlers, case by case *)

Lemma emits_app (es1 es2 : list Effect) (c : Ctx) :
  emits es2 (emits es1 c) = emits (es1 ++ es2) c.
Proof. unfold emits. cbn. rewrite <- app_assoc. reflexivity. Qed.

Lemma emit_emits (e : Effect) (c : Ctx) : emit e c = emits [e] c.
Proof. reflexivity. Qed.

(** Two states built by the same writes are equal: the journals agree up to
    the grouping of the appended effects. *)
Lemma ctx_ext (c1 c2 : Ctx) :
  cache c1 = cache c2 -> spamState c1 = spamState c2 ->
  rateState c1 = rateState c2 -> inFlight c1 = inFlight c2 ->
  effects c1 = effects c2 -> c1 = c2.
Proof. destruct c1, c2. cbn. intros. subst. reflexivity. Qed.

Ltac same_ctx :=
  apply ctx_ext;
  cbn [clearBusy modify emits emit setInFlight setCache fst snd
       cache spamState rateState inFlight effects app];
  try reflexivity;
  repeat first [rewrite <- app_assoc | progress (cbn [app])]; reflexivity.

(** The streaming handler on a request the guards admit, from the state [cg]
    they leave. *)
Lemma handleChatStream_admitted (env : Env) (body : Body) (ip : list N)
    (c cg : Ctx) :
  bodyMessage body <> [] ->
  governance (tRate env) (tSpam env) (getClientKey (clientId body) ip) c
    = (Ret tt, cg) ->
  let key := getClientKey (clientId body) ip in
  let cacheKey := makeCacheKey (bodyMessage body) (bodyHistory body)
                    (normalizeCategory (bodyCategory body)) in
  let c1 := (cleanupCache (tCleanup env) cg).2 in
  let deltas := map (fun d => StreamWrite (DeltaEvent d false)) (fragments env) in
  let failed := [StreamWrite ErrorEvent; StreamWrite DoneEvent; StreamEnd] in
  handleChatStream env body ip c =
    match servable (tLookup env) (cache c1 !! cacheKey) with
    | Some cached =>
        (Ret tt,
         (clearBusy key
            (emits [StreamWrite (DeltaEvent (reply cached) true);
                    StreamWrite DoneEvent; StreamEnd] c1)).2)
    | None =>
        match retrievalFailure env with
        | Some e => (Throw e, (clearBusy key (emits (RetrievalCall :: failed) c1)).2)
        | None =>
            match streamCreation env with
            | Some e =>
                (Throw e,
                 (clearBusy key
                    (emits (RetrievalCall :: ChatCompletion :: failed) c1)).2)
            | None =>
                match streamFailure env with
                | Some e =>
                    (Throw e,
                     (clearBusy key
                        (emits (RetrievalCall :: ChatCompletion :: deltas ++ failed)
                               c1)).2)
                | None =>
                    (Ret tt,
                     (clearBusy key
                        (emits [StreamWrite DoneEvent; StreamEnd]
                           (setCache
                              (insert cacheKey
                                 {| ts := tStore env;
                                    reply := Js.trim (concat (fragments env)) |})
                              (emits (RetrievalCall :: ChatCompletion :: deltas)
                                     c1)))).2)
                end
            end
        end
    end.
Proof.
  intros Hmsg Hg. cbv zeta.
  set (key := getClientKey (clientId body) ip) in *.
  unfold handleChatStream.
  destruct (bodyMessage body) as [|u message] eqn:Hm; [contradiction|].
  cbn [Js.truthy negb]. cbv zeta. fold key. rewrite guarded_shape, Hg.
  set (cacheKey := makeCacheKey _ _ _).
  unfold retrievalStage, cleanupCache, fragments, failWith.
  destruct (retrievalFailure env) as [e1|]; destruct (streamCreation env) as [e2|];
    destruct (streamFailure env) as [e3|];
    repeat (progress munfold); cbv beta iota; cbn [fst snd cache setCache];
    (destruct (servable (tLookup env) _) as [cached|] eqn:Hhit;
     [ cbn [fst snd]; apply (f_equal (pair _)); same_ctx | ]);
    rewrite ?forwardParts_run; cbv beta iota; cbn [fst snd];
    apply (f_equal (pair _)); same_ctx.
Qed.

(** The buffered handler on a request the guards admit, from the state [cg]
    they leave. *)
Lemma handleChatBuffered_admitted (env : Env) (body : Body) (ip : list N)
    (c cg : Ctx) :
  bodyMessage body <> [] ->
  governance (tRate env) (tSpam env) (getClientKey (clientId body) ip) c
    = (Ret tt, cg) ->
  let key := getClientKey (clientId body) ip in
  let cacheKey := makeCacheKey (bodyMessage body) (bodyHistory body)
                    (normalizeCategory (bodyCategory body)) in
  let c1 := (cleanupCache (tCleanup env) cg).2 in
  handleChatBuffered env body ip c =
    match servable (tLookup env) (cache c1 !! cacheKey) with
    | Some cached => (Ret (Answer (reply cached) true), (clearBusy key c1).2)
    | None =>
        match retrievalFailure env with
        | Some e => (Throw e, (clearBusy key (emits [RetrievalCall] c1)).2)
        | None =>
            match completion env with
            | Throw e =>
                (Throw e,
                 (clearBusy key (emits [RetrievalCall; ChatCompletion] c1)).2)
            | Ret content =>
                let r := Js.orElse (Js.trim content) [] in
                (Ret (Answer r false),
                 (clearBusy key
                    (setCache (insert cacheKey {| ts := tStore env; reply := r |})
                       (emits [RetrievalCall; ChatCompletion] c1))).2)
            end
        end
    end.
Proof.
  intros Hmsg Hg. cbv zeta.
  set (key := getClientKey (clientId body) ip) in *.
  unfold handleChatBuffered.
  destruct (bodyMessage body) as [|u message] eqn:Hm; [contradiction|].
  cbn [Js.truthy negb]. cbv zeta. fold key. rewrite guarded_shape, Hg.
  set (cacheKey := makeCacheKey _ _ _).
  unfold mbind, M_bind, bind. rewrite computeReply_unfold. cbv zeta.
  fold cacheKey.
  destruct (servable (tLookup env) _) as [cached|] eqn:Hhit.
  - reflexivity.
  - rewrite regenerate_run.
    destruct (retrievalFailure env) as [e|]; [cbn [fst snd]; f_equal; same_ctx|].
    destruct (completion env) as [content|e]; cbv zeta;
      unfold mret, M_ret, ret; cbn [fst snd];
      apply (f_equal (pair _)); same_ctx.
Qed.

(** ** A failed request leaves no answer behind *)

Lemma cleanupCache_subseteq (now : Z) (c : Ctx) :
  cache (cleanupCache now c).2 ⊆ cache c.
Proof. cbn. apply map_filter_subseteq. Qed.

(** X6. When a chat request ends in an error -- a rejection by a guard, a failed
    retrieval or a failed or interrupted generation -- the answer cache holds
    nothing it did not hold before: no entry is added and none is changed,
    in the buffered mode and in the streaming mode alike. *)
Theorem failed_request_keeps_cache (env : Env) (body : Body) (ip : list N)
    (c : Ctx) :
  (forall e, (handleChatBuffered env body ip c).1 = Throw e ->
             cache (handleChatBuffered env body ip c).2 ⊆ cache c) /\
  (forall e, (handleChatStream env body ip c).1 = Throw e ->
             cache (handleChatStream env body ip c).2 ⊆ cache c).
Proof.
  set (key := getClientKey (clientId body) ip).
  pose proof (governance_cache (tRate env) (tSpam env) key c) as Hcache.
  destruct (decide (bodyMessage body = [])) as [Hm|Hm].
  { split; intros e He.
    - unfold handleChatBuffered in He. rewrite Hm in He. discriminate He.
    - unfold handleChatStream in He. rewrite Hm in He. discriminate He. }
  destruct (governance (tRate env) (tSpam env) key c) as [[[]|eg] cg] eqn:Hg.
  - cbn [snd] in Hcache.
    assert (Hclean : cache (cleanupCache (tCleanup env) cg).2 ⊆ cache c)
      by (rewrite <- Hcache; apply cleanupCache_subseteq).
    split; intros e.
    + rewrite (handleChatBuffered_admitted env body ip c cg Hm Hg). cbv zeta.
      destruct (servable _ _); [discriminate|].
      destruct (retrievalFailure env); [intros _; exact Hclean|].
      destruct (completion env); [discriminate|intros _; exact Hclean].
    + rewrite (handleChatStream_admitted env body ip c cg Hm Hg). cbv zeta.
      destruct (servable _ _); [discriminate|].
      destruct (retrievalFailure env); [intros _; exact Hclean|].
      destruct (streamCreation env); [intros _; exact Hclean|].
      destruct (streamFailure env); [intros _; exact Hclean|discriminate].
  - cbn [snd] in Hcache. split; intros e _.
    + unfold handleChatBuffered.
      destruct (bodyMessage body) as [|u m]; [contradiction|].
      cbn [Js.truthy negb]. cbv zeta. fold key. rewrite guarded_shape, Hg.
      cbn [snd]. rewrite Hcache. reflexivity.
    + unfold handleChatStream.
      destruct (bodyMessage body) as [|u m]; [contradiction|].
      cbn [Js.truthy negb]. cbv zeta. fold key. rewrite guarded_shape, Hg.
      cbn [snd]. rewrite Hcache. reflexivity.
Qed.

(** ** The two modes answer alike *)

Lemma concat_fragments (parts : list (list N)) :
  concat (List.filter Js.truthy parts) = concat parts.
Proof.
  induction parts as [|p parts IH]; [reflexivity|].
  destruct p as [|u p]; cbn; [exact IH|]. rewrite IH. reflexivity.
Qed.

Lemma wire_emits (es : list Effect) (c : Ctx) :
  wire (effects (emits es c)) = wire (effects c) ++ wire es.
Proof. cbn. apply wire_app. Qed.

(** X7. When no collaborator fails and the generation produces the same text in
    one piece as in parts, a request served in the buffered mode and the same
    request served in the streaming mode leave the same cache and the same
    guard records; where the buffered handler answers [r], the stream
    carries [r] as one cached fragment, or the fragments whose concatenation,
    trimmed, is [r]; and either both reject the request with the same error
    or neither does. The two differ on an empty message: the buffered
    handler returns the NO_MESSAGE response, whose status is 400, while the
    streaming handler writes the NO_MESSAGE body to the stream as it was
    passed in, on which no status has been set, and nothing else. *)
Theorem modes_agree (env : Env) (body : Body) (ip : list N) (c : Ctx) :
  retrievalFailure env = None ->
  streamCreation env = None ->
  streamFailure env = None ->
  completion env = Ret (concat (streamParts env)) ->
  let buffered := handleChatBuffered env body ip c in
  let streamed := handleChatStream env body ip c in
  cache buffered.2 = cache streamed.2 /\
  rateState buffered.2 = rateState streamed.2 /\
  spamState buffered.2 = spamState streamed.2 /\
  inFlight buffered.2 = inFlight streamed.2 /\
  match buffered.1 with
  | Ret NoMessage =>
      streamed.1 = Ret tt /\
      responseStatus NoMessage = 400 /\
      wire (effects streamed.2) = wire (effects c) ++ [BareBodyEvent]
  | Ret (Answer r cached) =>
      streamed.1 = Ret tt /\
      wire (effects streamed.2)
        = wire (effects c)
            ++ (if cached then [DeltaEvent r true]
                else map (fun d => DeltaEvent d false) (fragments env))
            ++ [DoneEvent] /\
      (cached = false -> r = Js.trim (concat (fragments env)))
  | Throw e => streamed.1 = Throw e
  end.
Proof.
  intros Hretrieval Hcreation Hfailure Hcompletion. cbv zeta.
  set (key := getClientKey (clientId body) ip).
  destruct (decide (bodyMessage body = [])) as [Hm|Hm].
  { unfold handleChatBuffered, handleChatStream. rewrite Hm.
    cbn [Js.truthy negb]. repeat split.
    repeat (progress munfold). cbn [fst snd effects emit].
    rewrite !wire_app. cbn. rewrite app_nil_r. reflexivity. }
  destruct (governance (tRate env) (tSpam env) key c) as [[[]|eg] cg] eqn:Hg.
  - rewrite (handleChatBuffered_admitted env body ip c cg Hm Hg).
    rewrite (handleChatStream_admitted env body ip c cg Hm Hg). cbv zeta.
    apply governance_admitted in Hg as (_ & _ & _ & _ & Heff).
    assert (Hwire : wire (effects cg) = wire (effects c))
      by (rewrite Heff, wire_app; cbn; apply app_nil_r).
    rewrite Hretrieval, Hcreation, Hfailure, Hcompletion.
    destruct (servable _ _) as [hit|]; cbv zeta; cbn [fst snd].
    + repeat split; [|discriminate].
      cbn [clearBusy modify snd emits emit effects setInFlight cleanupCache setCache].
      rewrite !wire_app, Hwire. cbn. rewrite app_nil_r. reflexivity.
    + unfold fragments. rewrite concat_fragments.
      assert (Hor : forall s : list N, Js.orElse s [] = s)
        by (intros [|u s]; reflexivity).
      rewrite Hor. repeat split.
      cbn [clearBusy modify snd emits emit effects setInFlight cleanupCache setCache].
      rewrite !wire_app, Hwire. cbn [wire flat_map app].
      rewrite wire_deltas, !app_nil_r, <- !app_assoc. reflexivity.
  - unfold handleChatBuffered, handleChatStream.
    destruct (bodyMessage body) as [|u m]; [contradiction|].
    cbn [Js.truthy negb]. cbv zeta. fold key. rewrite !guarded_shape, Hg.
    repeat split.
Qed.

(** The sample request with a generation of "Hello", whole or in two
    parts; and a request without a message, which the streaming handler
    answers with the bare body. *)
Lemma modes_agree_witness :
  cache (handleChatBuffered wholeOrParts demoBody demoIp emptyCtx).2
  = cache (handleChatStream wholeOrParts demoBody demoIp emptyCtx).2 /\
  wire (effects (handleChatStream wholeOrParts emptyBody demoIp emptyCtx).2)
  = [BareBodyEvent].
Proof.
  assert (H1 : retrievalFailure wholeOrParts = None) by reflexivity.
  assert (H2 : streamCreation wholeOrParts = None) by reflexivity.
  assert (H3 : streamFailure wholeOrParts = None) by reflexivity.
  assert (H4 : completion wholeOrParts = Ret (concat (streamParts wholeOrParts)))
    by reflexivity.
  split.
  - destruct (modes_agree wholeOrParts demoBody demoIp emptyCtx H1 H2 H3 H4)
      as [Hcache _].
    exact Hcache.
  - destruct (modes_agree wholeOrParts emptyBody demoIp emptyCtx H1 H2 H3 H4)
      as (_ & _ & _ & _ & Hempty).
    change (handleChatBuffered wholeOrParts emptyBody demoIp emptyCtx).1
      with (@Ret Response NoMessage) in Hempty.
    destruct Hempty as (_ & _ & Hwire). exact Hwire.
Defined.

(** * The entry point *)

(** ** Routing *)

Lemma endsWith_app (base suffix : list N) : endsWith (base ++ suffix) suffix = true.
Proof.
  unfold endsWith, Js.lastN. apply bool_decide_eq_true.
  rewrite length_app.
  replace (length base + length suffix - length suffix)%nat with (length base)
    by lia.
  apply drop_app_length.
Qed.

Lemma endsWith_last (s suffix : list N) (u : N) :
  endsWith s suffix = true -> last suffix = Some u -> last s = Some u.
Proof.
  unfold endsWith, Js.lastN. intros H Hlast. apply bool_decide_eq_true in H.
  rewrite <- (take_drop (length s - length suffix) s), H, last_app, Hlast.
  reflexivity.
Qed.

Lemma orElse_app (base suffix fallback : list N) :
  suffix <> [] -> Js.orElse (base ++ suffix) fallback = base ++ suffix.
Proof.
  intros Hne. unfold Js.orElse.
  destruct (base ++ suffix) eqn:E; [|reflexivity].
  apply app_eq_nil in E as [_ E]. contradiction.
Qed.

(** A POST whose path ends in [/api/chat-stream] reaches the streaming
    handler, inside the [try] of the entry point. *)
Lemma handlerImpl_stream_route (env : Env) (req : Request) (base : list N) :
  reqMethod req = Js.lit "POST" ->
  reqPath req = base ++ Js.lit "/api/chat-stream" ->
  handlerImpl env req =
    tryCatch (body ← readBodyAsJson req; handleChatStream env body (reqIp req))
             (fun err => respond (errStatus (errorResponse err))).
Proof.
  intros Hmethod Hpath. unfold handlerImpl. cbv zeta. rewrite Hmethod, Hpath.
  rewrite orElse_app by discriminate.
  rewrite endsWith_app, orb_true_r.
  reflexivity.
Qed.

(** A POST whose path ends in [/api/chat] reaches the buffered handler and
    writes the response it returns. *)
Lemma handlerImpl_chat_route (env : Env) (req : Request) (base : list N) :
  reqMethod req = Js.lit "POST" ->
  reqPath req = base ++ Js.lit "/api/chat" ->
  handlerImpl env req =
    tryCatch (body ← readBodyAsJson req;
              out ← handleChatBuffered env body (reqIp req);
              respond (responseStatus out))
             (fun err => respond (errStatus (errorResponse err))).
Proof.
  intros Hmethod Hpath. unfold handlerImpl. cbv zeta. rewrite Hmethod, Hpath.
  rewrite orElse_app by discriminate.
  rewrite (endsWith_app base (Js.lit "/api/chat")), orb_true_r.
  assert (Hnot : endsWith (base ++ Js.lit "/api/chat") (Js.lit "/api/chat-stream")
                 = false).
  { destruct (endsWith _ _) eqn:E; [|reflexivity].
    apply (endsWith_last _ _ 109%N) in E; [|reflexivity].
    rewrite last_app in E. discriminate E. }
  assert (Hne : bool_decide (base ++ Js.lit "/api/chat" = Js.lit "/api/chat-stream")
                = false).
  { apply bool_decide_eq_false. intros E.
    apply (f_equal last) in E. rewrite last_app in E. discriminate E. }
  rewrite Hnot, Hne.
  reflexivity.
Qed.

Lemma handlerImpl_stream_parsed (env : Env) (req : Request) (base : list N)
    (body : Body) (c : Ctx) :
  reqMethod req = Js.lit "POST" ->
  reqPath req = base ++ Js.lit "/api/chat-stream" ->
  reqBody req = Some body ->
  handlerImpl env req c =
    tryCatch (handleChatStream env body (reqIp req))
             (fun err => respond (errStatus (errorResponse err))) c.
Proof.
  intros Hmethod Hpath Hbody.
  rewrite (handlerImpl_stream_route env req base Hmethod Hpath).
  unfold tryCatch, readBodyAsJson, mbind, M_bind, bind. rewrite Hbody.
  reflexivity.
Qed.

Lemma handlerImpl_chat_parsed (env : Env) (req : Request) (base : list N)
    (body : Body) (c : Ctx) :
  reqMethod req = Js.lit "POST" ->
  reqPath req = base ++ Js.lit "/api/chat" ->
  reqBody req = Some body ->
  handlerImpl env req c =
    tryCatch (out ← handleChatBuffered env body (reqIp req);
              respond (responseStatus out))
             (fun err => respond (errStatus (errorResponse err))) c.
Proof.
  intros Hmethod Hpath Hbody.
  rewrite (handlerImpl_chat_route env req base Hmethod Hpath).
  unfold tryCatch, readBodyAsJson, mbind, M_bind, bind. rewrite Hbody.
  reflexivity.
Qed.

(** ** Rejections become responses *)

(** The errors the guards throw. *)
Lemma governance_errors (tR tS : Z) (key : list N) (c : Ctx) (e : Err) :
  (governance tR tS key c).1 = Throw e ->
  (exists r, e = rateLimitError r /\ 1 <= r) \/
  (exists name r, e = spamError name r /\ 1 <= r /\
                  (name = COOLDOWN \/ name = TOO_FAST \/ name = SPAM_WINDOW)) \/
  e = busyError.
Proof.
  unfold governance, mbind, M_bind, bind.
  destruct (applyRateLimitOrThrow tR key c) as [[[]|e1] c1] eqn:Hrate.
  - pose proof (applySpamGuard_step tS key c1) as Hstep. cbv zeta in Hstep.
    destruct (applySpamGuardOrThrow tS key c1) as [[[]|e2] c2] eqn:Hspam;
      cbn [fst snd] in *.
    + unfold applyBusyGuardOrThrow.
      destruct (default false (inFlight c2 !! key)); cbn [fst]; [|discriminate].
      intros H. injection H as <-. right; right. reflexivity.
    + intros H. injection H as <-. right; left.
      destruct Hstep as [(Ho & _)
                        | (st' & _ & [(Ho & _) | (_ & _ & [(Ho & _) | (Ho & _)])])];
        try discriminate Ho; injection Ho as ->; do 2 eexists;
        (split; [reflexivity|]); (split; [|tauto]); try lia.
      apply retryAfter_min.
  - cbn [fst]. intros H. injection H as <-. left.
    unfold applyRateLimitOrThrow in Hrate. cbv zeta in Hrate.
    match type of Hrate with
    | (if ?b then _ else _) = _ => destruct b; [|discriminate Hrate]
    end.
    injection Hrate as <- _. eexists. split; [reflexivity|]. apply retryAfter_min.
Qed.

Lemma respond_run (status : Z) (c : Ctx) :
  respond status c
  = (Ret tt, emits [StreamWrite (BodyEvent status); StreamEnd] c).
Proof.
  unfold respond. repeat (progress munfold). cbv beta iota.
  apply (f_equal (pair _)). same_ctx.
Qed.

(** X8. A chat request the guards reject, on either route of the entry point:
    the stream receives one JSON body and is ended once, and nothing else
    happens. A rejection by the rate limiter or the spam guard is answered
    429 with the retry-after, at least one second, both in the [Retry-After]
    header and in the payload; a busy client is answered 409 without either.
    The [error] property is the name of the rule. *)
Theorem rejections_become_responses (env : Env) (req : Request) (base : list N)
    (body : Body) (c cg : Ctx) (e : Err) :
  reqMethod req = Js.lit "POST" ->
  reqPath req = base ++ Js.lit "/api/chat" \/
  reqPath req = base ++ Js.lit "/api/chat-stream" ->
  reqBody req = Some body ->
  bodyMessage body <> [] ->
  governance (tRate env) (tSpam env) (getClientKey (clientId body) (reqIp req)) c
    = (Throw e, cg) ->
  let response := errorResponse e in
  handlerImpl env req c
    = (Ret tt,
       emits [StreamWrite (BodyEvent (errStatus response)); StreamEnd] cg) /\
  errError response = errorText (message e) /\
  ((errStatus response = 429 /\
    exists r, 1 <= r /\ errRetryAfterHeader response = Some r /\
              errRetryAfterSec response = Some r) \/
   (errStatus response = 409 /\ message e = BUSY /\
    errRetryAfterHeader response = None /\ errRetryAfterSec response = None)).
Proof.
  intros Hmethod Hpath Hbody Hmsg Hg. cbv zeta. split.
  - destruct Hpath as [Hpath|Hpath].
    + rewrite (handlerImpl_chat_parsed env req base body c Hmethod Hpath Hbody).
      unfold tryCatch, mbind, M_bind, bind, handleChatBuffered.
      destruct (bodyMessage body) as [|u m]; [contradiction|].
      cbn [Js.truthy negb]. cbv zeta. rewrite guarded_shape, Hg.
      apply respond_run.
    + rewrite (handlerImpl_stream_parsed env req base body c Hmethod Hpath Hbody).
      unfold tryCatch, handleChatStream.
      destruct (bodyMessage body) as [|u m]; [contradiction|].
      cbn [Js.truthy negb]. cbv zeta. rewrite guarded_shape, Hg.
      apply respond_run.
  - assert (He : (governance (tRate env) (tSpam env)
                    (getClientKey (clientId body) (reqIp req)) c).1 = Throw e)
      by (rewrite Hg; reflexivity).
    apply governance_errors in He
      as [(r & -> & Hr) | [(name & r & -> & Hr & Hname) | ->]].
    + split; [reflexivity|]. left. split; [reflexivity|]. exists r.
      unfold errorResponse, truthyNumber, truthyZ. cbn.
      destruct (r =? 0) eqn:E; zbool; [lia|]. repeat split; [lia|..]; reflexivity.
    + split; [destruct Hname as [-> | [-> | ->]]; reflexivity|].
      left. split; [reflexivity|]. exists r.
      unfold errorResponse, truthyNumber, truthyZ. cbn.
      destruct (r =? 0) eqn:E; zbool; [lia|]. repeat split; [lia|..]; reflexivity.
    + split; [reflexivity|]. right. repeat split.
Qed.

(** A client that calls again too early, on the buffered chat route: one
    body with status 429. *)
Lemma rejections_become_responses_witness :
  (handlerImpl demoEnv chatRequest atCap).1 = Ret tt /\
  wire (effects (handlerImpl demoEnv chatRequest atCap).2) = [BodyEvent 429].
Proof.
  assert (Hmethod : reqMethod chatRequest = Js.lit "POST") by reflexivity.
  assert (Hpath : reqPath chatRequest = [] ++ Js.lit "/api/chat" \/
                  reqPath chatRequest = [] ++ Js.lit "/api/chat-stream")
    by (left; reflexivity).
  assert (Hbody : reqBody chatRequest = Some demoBody) by reflexivity.
  assert (Hmsg : bodyMessage demoBody <> []) by (vm_compute; discriminate).
  assert (Hg : governance (tRate demoEnv) (tSpam demoEnv)
                 (getClientKey (clientId demoBody) (reqIp chatRequest)) atCap
               = (Throw (spamError TOO_FAST 3),
                  (governance (tRate demoEnv) (tSpam demoEnv)
                     (getClientKey (clientId demoBody) (reqIp chatRequest))
                     atCap).2))
    by (vm_compute; reflexivity).
  destruct (rejections_become_responses demoEnv chatRequest [] demoBody atCap _ _
              Hmethod Hpath Hbody Hmsg Hg) as [Hrun _].
  rewrite Hrun. split; [reflexivity | vm_compute; reflexivity].
Defined.

(** ** A failure after the stream was opened *)

Lemma streamEnds_app (l1 l2 : list Effect) :
  streamEnds (l1 ++ l2) = (streamEnds l1 + streamEnds l2)%nat.
Proof. unfold streamEnds. rewrite List.filter_app, length_app. reflexivity. Qed.




(** ** Every invocation is answered *)

Lemma governance_effects (tR tS : Z) (key : list N) (c : Ctx) :
  exists new, effects (governance tR tS key c).2 = effects c ++ new /\
              streamEnds new = 0%nat.
Proof.
  destruct (governance tR tS key c) as [[[]|e] cg] eqn:Hg; cbn [snd].
  - apply governance_admitted in Hg as (_ & _ & _ & _ & Heff).
    exists [InFlightSet key]. split; [exact Heff | reflexivity].
  - apply governance_rejected in Hg as [_ Heff].
    exists []. rewrite app_nil_r. split; [exact Heff | reflexivity].
Qed.

(** What the streaming handler writes is appended to the journal, and a run
    that returns has ended the stream. *)
Lemma handleChatStream_effects (env : Env) (body : Body) (ip : list N) (c : Ctx) :
  exists new,
    effects (handleChatStream env body ip c).2 = effects c ++ new /\
    ((handleChatStream env body ip c).1 = Ret tt -> (1 <= streamEnds new)%nat).
Proof.
  destruct (decide (bodyMessage body = [])) as [Hm|Hm].
  { unfold handleChatStream. rewrite Hm. cbn [Js.truthy negb].
    exists [StreamWrite BareBodyEvent; StreamEnd].
    repeat (progress munfold). cbn [fst snd effects emit].
    rewrite <- app_assoc. split; [reflexivity|]. intros _. cbn. lia. }
  set (key := getClientKey (clientId body) ip).
  destruct (governance (tRate env) (tSpam env) key c) as [[[]|eg] cg] eqn:Hg.
  - rewrite (handleChatStream_admitted env body ip c cg Hm Hg). cbv zeta.
    apply governance_admitted in Hg as (_ & _ & _ & _ & Heff). fold key.
    destruct (servable _ _) as [hit|];
      [|destruct (retrievalFailure env);
        [|destruct (streamCreation env); [|destruct (streamFailure env)]]];
      cbn [fst snd clearBusy modify emits emit effects setInFlight cleanupCache
           setCache];
      rewrite Heff; repeat first [rewrite <- app_assoc | progress (cbn [app])];
      eexists; (split; [reflexivity|]); try discriminate; intros _;
      unfold streamEnds; cbn [List.filter];
      rewrite ?List.filter_app, ?length_app; cbn; lia.
  - unfold handleChatStream.
    destruct (bodyMessage body) as [|u m]; [contradiction|].
    cbn [Js.truthy negb]. cbv zeta. fold key. rewrite guarded_shape, Hg.
    apply governance_rejected in Hg as [_ Heff].
    exists []. rewrite app_nil_r. split; [exact Heff | discriminate].
Qed.

Lemma handleChatBuffered_effects (env : Env) (body : Body) (ip : list N)
    (c : Ctx) :
  exists new, effects (handleChatBuffered env body ip c).2 = effects c ++ new.
Proof.
  destruct (decide (bodyMessage body = [])) as [Hm|Hm].
  { unfold handleChatBuffered. rewrite Hm. exists []. cbn. symmetry.
    apply app_nil_r. }
  destruct (handleChatBuffered_release env body ip c Hm) as [Hok Hko].
  destruct (governance (tRate env) (tSpam env) (getClientKey (clientId body) ip) c)
    as [[[]|eg] cg].
  - destruct (Hok eq_refl) as (_ & new & Heffs & _). exists new. exact Heffs.
  - destruct (Hko eg eq_refl) as (_ & _ & Heffs). exists []. rewrite app_nil_r.
    exact Heffs.
Qed.

Lemma tryCatch_responds (body : M unit) (status : Err -> Z) (c : Ctx) :
  (exists new, effects (body c).2 = effects c ++ new /\
               ((body c).1 = Ret tt -> (1 <= streamEnds new)%nat)) ->
  (tryCatch body (fun err => respond (status err)) c).1 = Ret tt /\
  exists new,
    effects (tryCatch body (fun err => respond (status err)) c).2
      = effects c ++ new /\
    (1 <= streamEnds new)%nat.
Proof.
  intros (new & Heffs & Hends). unfold tryCatch.
  destruct (body c) as [[[]|e] c']; cbn [fst snd] in *.
  - split; [reflexivity|]. exists new. auto.
  - rewrite respond_run. split; [reflexivity|].
    exists (new ++ [StreamWrite (BodyEvent (status e)); StreamEnd]).
    cbn [snd emits effects]. rewrite Heffs, <- app_assoc.
    split; [reflexivity|]. rewrite streamEnds_app. cbn. lia.
Qed.

(** X10. Whatever the request and whatever the collaborators do, the entry point
    returns normally and has ended the response stream at least once: no
    error escapes it and no invocation is left without an end of stream.
    What it writes is appended to what was written. *)
Theorem entry_point_always_responds (env : Env) (req : Request) (c : Ctx) :
  (handlerImpl env req c).1 = Ret tt /\
  exists new,
    effects (handlerImpl env req c).2 = effects c ++ new /\
    (1 <= streamEnds new)%nat.
Proof.
  unfold handlerImpl. cbv zeta.
  destruct (bool_decide (reqMethod req = Js.lit "OPTIONS")).
  { split; [reflexivity|]. exists [StreamEnd]. split; [reflexivity|]. cbn. lia. }
  assert (Hrespond : forall status c0,
            exists new, effects (respond status c0).2 = effects c0 ++ new /\
                        ((respond status c0).1 = Ret tt -> (1 <= streamEnds new)%nat)).
  { intros status c0. rewrite respond_run. eexists. split; [reflexivity|].
    intros _. cbn. lia. }
  apply tryCatch_responds.
  destruct (_ && _); [apply Hrespond|].
  destruct (_ && _).
  { unfold readBodyAsJson, mbind, M_bind, bind.
    destruct (reqBody req) as [body|]; cbn [throw ret].
    - apply handleChatStream_effects.
    - exists []. rewrite app_nil_r. split; [reflexivity|discriminate]. }
  destruct (_ && _); [|apply Hrespond].
  unfold readBodyAsJson, mbind, M_bind, bind.
  destruct (reqBody req) as [body|]; cbn [throw ret].
  - destruct (handleChatBuffered_effects env body (reqIp req) c) as (new & Heffs).
    destruct (handleChatBuffered env body (reqIp req) c) as [[out|e] c']; cbn [snd] in *.
    + rewrite respond_run. eexists. cbn [fst snd emits effects]. rewrite Heffs.
      rewrite <- app_assoc. split; [reflexivity|]. intros _.
      rewrite streamEnds_app. cbn. lia.
    + exists new. split; [exact Heffs|discriminate].
  - exists []. rewrite app_nil_r. split; [reflexivity|discriminate].
Qed.

(** * Further properties of the corpus indexer *)

(** ** Trimming *)

Lemma trimStart_idem (s : list N) : Js.trimStart (Js.trimStart s) = Js.trimStart s.
Proof.
  induction s as [|c s IH]; [reflexivity|]. cbn.
  destruct (Js.isWhiteSpace c) eqn:E; [exact IH|]. cbn. rewrite E. reflexivity.
Qed.

Lemma trimStart_suffix (s : list N) : exists w, s = w ++ Js.trimStart s.
Proof.
  induction s as [|c s [w IH]]; [exists []; reflexivity|]. cbn.
  destruct (Js.isWhiteSpace c).
  - exists (c :: w). cbn. f_equal. exact IH.
  - exists []. reflexivity.
Qed.

Lemma trimEnd_prefix (s : list N) : exists w, s = Js.trimEnd s ++ w.
Proof.
  unfold Js.trimEnd. destruct (trimStart_suffix (rev s)) as [w Hw].
  exists (rev w). rewrite <- rev_app_distr, <- Hw, rev_involutive. reflexivity.
Qed.

Lemma trimEnd_idem (s : list N) : Js.trimEnd (Js.trimEnd s) = Js.trimEnd s.
Proof. unfold Js.trimEnd. rewrite rev_involutive, trimStart_idem. reflexivity. Qed.

(** Trimming the end of a string that starts with no white space leaves its
    start alone. *)
Lemma trimStart_trimEnd (s : list N) :
  Js.trimStart s = s -> Js.trimStart (Js.trimEnd s) = Js.trimEnd s.
Proof.
  intros Hs. destruct (trimEnd_prefix s) as [w Hw].
  destruct (Js.trimEnd s) as [|c y] eqn:Hy; [reflexivity|].
  assert (Hne : s <> []) by (rewrite Hw; discriminate).
  destruct (trimStart_fixed_head s Hne Hs) as (c' & r & Hcr & Hws).
  rewrite Hcr in Hw. injection Hw as -> _.
  apply trimStart_head. exact Hws.
Qed.

Lemma trim_idem (s : list N) : Js.trim (Js.trim s) = Js.trim s.
Proof.
  unfold Js.trim.
  rewrite (trimStart_trimEnd (Js.trimStart s) (trimStart_idem s)).
  apply trimEnd_idem.
Qed.

Lemma trim_solid (s : list N) : Js.trim s <> [] -> solid (Js.trim s).
Proof. intros Hne. split; [exact Hne | apply trim_idem]. Qed.

(** A string has something left after trimming exactly when it holds a code
    unit that is no white space. *)
Lemma trim_nonempty_squeeze (s : list N) : Js.trim s <> [] <-> squeeze s <> [].
Proof.
  split; intros H.
  - destruct (proj1 (solid_edges _) (trim_solid s H)) as (Hne & Hstart & _).
    destruct (trimStart_fixed_head _ Hne Hstart) as (c & r & Hcr & Hws).
    rewrite <- squeeze_trim, Hcr. cbn. unfold squeeze. cbn. rewrite Hws. discriminate.
  - intros Hnil. apply H. apply squeeze_empty_trim. exact Hnil.
Qed.

(** ** The chunks of a section *)

Lemma packLines_trimmed (lines : list (list N)) :
  Forall (fun t => Js.trim t = t) (packLines lines).
Proof.
  unfold packLines.
  pose proof (fold_left_invariant packLine
                (fun _ st => Forall (fun t => Js.trim t = t) st.1)
                (fun _ => True)) as Hinv.
  specialize (Hinv ltac:(
    intros done [chunks buf] line Hchunks _; cbn [fst] in *;
    destruct (packLine_cases chunks buf line)
      as [(_ & ->) | [(_ & _ & ->) | (_ & _ & ->)]]; cbn [fst];
    try assumption;
    apply Forall_app; split; [assumption|];
    constructor; [apply trim_idem | constructor])).
  specialize (Hinv lines [] ([], []) ltac:(constructor)
                ltac:(apply Forall_forall; intros; exact I)).
  cbn [app] in Hinv.
  destruct (fold_left packLine lines ([], [])) as [chunks buf]. cbn [fst] in Hinv.
  destruct (Js.truthy (Js.trim buf)); [|exact Hinv].
  apply Forall_app. split; [exact Hinv|].
  constructor; [apply trim_idem | constructor].
Qed.

Lemma packLines_nonempty (lines : list (list N)) :
  Forall (fun line => line = [] \/ Js.trim line <> []) lines ->
  Forall (fun t => t <> []) (packLines lines).
Proof.
  intros Hlines. unfold packLines.
  pose proof (fold_left_invariant packLine
                (fun _ st => Forall (fun t => t <> []) st.1 /\
                             (st.2 = [] \/ squeeze st.2 <> []))
                (fun line => line = [] \/ Js.trim line <> [])) as Hinv.
  assert (Hstep : forall (done : list (list N)) (s : list (list N) * list N)
                         (a : list N),
            Forall (fun t => t <> []) s.1 /\ (s.2 = [] \/ squeeze s.2 <> []) ->
            a = [] \/ Js.trim a <> [] ->
            Forall (fun t => t <> []) (packLine s a).1 /\
            ((packLine s a).2 = [] \/ squeeze (packLine s a).2 <> [])).
  { intros _ [chunks buf] line [Hchunks Hbuf] Hline. cbn [fst snd] in *.
    assert (Hline' : line = [] \/ squeeze line <> []).
    { destruct Hline as [->|H]; [left; reflexivity|].
      right. apply trim_nonempty_squeeze. exact H. }
    destruct (packLine_cases chunks buf line)
      as [(_ & ->) | [(Hne & _ & ->) | (Hne & _ & ->)]]; cbn [fst snd].
    - split; assumption.
    - split; [|assumption]. apply Forall_app. split; [assumption|].
      constructor; [|constructor].
      apply trim_nonempty_squeeze. destruct Hbuf; [contradiction|assumption].
    - split; [assumption|]. right. rewrite squeeze_app.
      destruct Hbuf as [Hbuf|Hbuf]; [contradiction|].
      intros Hnil. apply app_eq_nil in Hnil as [Hnil _]. contradiction. }
  specialize (Hinv Hstep lines [] ([], [])
                ltac:(split; [constructor | left; reflexivity]) Hlines).
  cbn [app] in Hinv.
  destruct (fold_left packLine lines ([], [])) as [chunks buf].
  cbn [fst snd] in Hinv. destruct Hinv as [Hchunks _].
  destruct (Js.truthy (Js.trim buf)) eqn:E; [|exact Hchunks].
  apply Forall_app. split; [exact Hchunks|].
  constructor; [|constructor]. intros Hnil. rewrite Hnil in E. discriminate E.
Qed.

(** X11. Every chunk text of a section is trimmed: it carries no white space at
    either end. No chunk text is empty when every line of the section is
    either empty or holds a code unit that is no white space; a line of
    white space only can make the loop push an empty chunk. *)
Theorem chunks_trimmed_and_nonempty (key text : list N) :
  Forall (fun ch => Js.trim (Chunk.text ch) = Chunk.text ch)
         (chunkSection key text) /\
  (Forall (fun line => line = [] \/ Js.trim line <> []) (splitLines text) ->
   Forall (fun ch => Chunk.text ch <> []) (chunkSection key text)).
Proof.
  split; [|intros Hlines].
  - pose proof (packLines_trimmed (splitLines text)) as H.
    rewrite <- (chunkSection_texts key text) in H.
    exact (proj1 (Forall_map _ _ _) H).
  - pose proof (packLines_nonempty (splitLines text) Hlines) as H.
    rewrite <- (chunkSection_texts key text) in H.
    exact (proj1 (Forall_map _ _ _) H).
Qed.

(** A line of one space between two lines of 1400 code units: the space is
    flushed as a chunk of its own, which is empty once trimmed. *)
Example whitespace_line_gives_empty_chunk :
  map Chunk.text
      (chunkSection (Js.lit "meze")
         (replicate 1400 97%N ++ [Js.LF; 32%N; Js.LF] ++ replicate 1400 98%N))
  = [replicate 1400 97%N; []; replicate 1400 98%N].
Proof. vm_compute. reflexivity. Qed.

(** ** A section that fits in one chunk *)

Lemma join_length_prefix (sep : list N) (a b : list (list N)) :
  (length (Js.join sep a) <= length (Js.join sep (a ++ b)))%nat.
Proof.
  induction a as [|x a IH]; [cbn; lia|].
  destruct a as [|y a].
  - destruct b as [|z b]; [cbn; lia|].
    change (([x] ++ z :: b)) with (x :: z :: b).
    rewrite (join_cons sep x (z :: b)) by discriminate.
    cbn [Js.join]. rewrite !length_app. lia.
  - change ((x :: y :: a) ++ b) with (x :: (y :: a) ++ b).
    rewrite (join_cons sep x (y :: a)) by discriminate.
    rewrite (join_cons sep x ((y :: a) ++ b)) by discriminate.
    rewrite !length_app. lia.
Qed.

Lemma trimStart_linefeeds (k : nat) (s : list N) :
  Js.trimStart (replicate k Js.LF ++ s) = Js.trimStart s.
Proof. induction k as [|k IH]; [reflexivity | exact IH]. Qed.

(** The loop on lines whose join fits under the cap: nothing is flushed, and
    the buffer is the join of the lines read, less the line feeds the join
    starts with. *)
Lemma packLines_short (lines : list (list N)) :
  (length (Js.join [Js.LF] lines) <= MAX_EMBED_CHUNK_CHARS)%nat ->
  packLines lines =
    if Js.truthy (Js.trim (Js.join [Js.LF] lines))
    then [Js.trim (Js.join [Js.LF] lines)] else [].
Proof.
  intros Hlen. unfold packLines.
  pose proof (fold_left_invariant packLine
                (fun done st =>
                   (exists rest, lines = done ++ rest) ->
                   st.1 = [] /\
                   exists k, Js.join [Js.LF] done = replicate k Js.LF ++ st.2)
                (fun _ => True)) as Hinv.
  assert (Hstep : forall (done : list (list N)) (s : list (list N) * list N)
                         (a : list N),
            ((exists rest, lines = done ++ rest) ->
             s.1 = [] /\
             exists k, Js.join [Js.LF] done = replicate k Js.LF ++ s.2) ->
            True ->
            (exists rest, lines = (done ++ [a]) ++ rest) ->
            (packLine s a).1 = [] /\
            exists k, Js.join [Js.LF] (done ++ [a])
                      = replicate k Js.LF ++ (packLine s a).2).
  { intros done [chunks buf] line IH _ [rest Hrest]. cbn [fst snd] in *.
    destruct IH as [-> [k Hk]].
    { exists (line :: rest). rewrite Hrest, <- app_assoc. reflexivity. }
    assert (Hfit : (length (Js.join [Js.LF] (done ++ [line]))
                    <= MAX_EMBED_CHUNK_CHARS)%nat).
    { pose proof (join_length_prefix [Js.LF] (done ++ [line]) rest) as H.
      rewrite <- Hrest in H. lia. }
    destruct done as [|d done].
    - cbn in Hk. assert (buf = []) as ->.
      { destruct k; cbn in Hk; [symmetry; exact Hk | discriminate Hk]. }
      rewrite packLine_start. cbn [fst snd]. split; [reflexivity|].
      exists 0%nat. reflexivity.
    - rewrite join_snoc in Hfit |- * by discriminate. rewrite Hk in Hfit |- *.
      destruct (packLine_cases [] buf line)
        as [(-> & ->) | [(Hne & Hlong & _) | (Hne & _ & ->)]]; cbn [fst snd].
      + split; [reflexivity|]. exists (S k). rewrite app_nil_r.
        change (replicate (S k) Js.LF) with (Js.LF :: replicate k Js.LF).
        rewrite <- (app_nil_r (replicate k Js.LF)) at 1.
        cbn. f_equal.
        clear. induction k as [|k IH]; [reflexivity|]. cbn. f_equal. exact IH.
      + rewrite !length_app in Hfit, Hlong. cbn in Hfit, Hlong. lia.
      + split; [reflexivity|]. exists k. rewrite <- !app_assoc. reflexivity. }
  specialize (Hinv Hstep lines [] ([], [])).
  cbn [app fst snd] in Hinv.
  destruct Hinv as [Hchunks [k Hk]].
  - intros _. split; [reflexivity|]. exists 0%nat. reflexivity.
  - apply Forall_forall. intros; exact I.
  - exists []. rewrite app_nil_r. reflexivity.
  - destruct (fold_left packLine lines ([], [])) as [chunks buf].
    cbn [fst snd] in *. subst chunks.
    assert (Htrim : Js.trim (Js.join [Js.LF] lines) = Js.trim buf).
    { rewrite Hk. unfold Js.trim. rewrite trimStart_linefeeds. reflexivity. }
    rewrite Htrim. reflexivity.
Qed.

(** X12. A section of at most [MAX_EMBED_CHUNK_CHARS] code units, without carriage
    returns, is one chunk: its trimmed text, with the id [key:1]. A section
    of white space only gives no chunk at all. *)
Theorem short_section_is_one_chunk (key text : list N) :
  (length text <= MAX_EMBED_CHUNK_CHARS)%nat ->
  Js.CR ∉ text ->
  chunkSection key text =
    if Js.truthy (Js.trim text)
    then [Chunk.mk (key ++ Js.lit ":1") key (Js.trim text)]
    else [].
Proof.
  intros Hlen Hcr. unfold chunkSection. cbv zeta.
  rewrite packLines_short; rewrite (join_splitLines text Hcr); [|exact Hlen].
  destruct (Js.truthy (Js.trim text)); reflexivity.
Qed.

(** The two-line sample section. *)
Lemma short_section_is_one_chunk_witness :
  chunkSection (Js.lit "meze") twoLines
  = [Chunk.mk (Js.lit "meze:1") (Js.lit "meze") twoLines].
Proof.
  assert (Hlen : (length twoLines <= MAX_EMBED_CHUNK_CHARS)%nat)
    by (vm_compute; lia).
  assert (Hcr : Js.CR ∉ twoLines).
  { intros Hin. apply list_elem_of_In in Hin. vm_compute in Hin.
    repeat (destruct Hin as [Hin|Hin]; [discriminate Hin|]). exact Hin. }
  rewrite (short_section_is_one_chunk (Js.lit "meze") twoLines Hlen Hcr).
  reflexivity.
Defined.

(** ** Chunk ids *)

Lemma digitsOfUint_inj (u v : Decimal.uint) :
  Js.digitsOfUint u = Js.digitsOfUint v -> u = v.
Proof.
  revert v. induction u; intros v H; destruct v; cbn in H;
    try discriminate H; try reflexivity;
    injection H as H; f_equal; apply IHu; exact H.
Qed.

Lemma decimal_inj (n m : nat) : Js.decimal n = Js.decimal m -> n = m.
Proof.
  unfold Js.decimal. intros H. apply Unsigned.to_uint_inj.
  apply digitsOfUint_inj. exact H.
Qed.

(** A decimal rendering holds digits only, so no colon. *)
Lemma decimal_no_colon (n : nat) : 58%N ∉ Js.decimal n.
Proof.
  unfold Js.decimal. generalize (Nat.to_uint n). intros u.
  induction u; cbn; intros Hin;
    try (apply elem_of_cons in Hin as [Hin|Hin]; [discriminate Hin | auto]).
  inversion Hin.
Qed.

(** A text is split in one way at its last occurrence of a code unit. *)
Lemma split_at_last (c : N) (a b x y : list N) :
  c ∉ x -> c ∉ y -> a ++ c :: x = b ++ c :: y -> a = b /\ x = y.
Proof.
  intros Hx Hy. revert b. induction a as [|u a IH]; intros b H.
  - destruct b as [|v b]; cbn in H.
    + injection H as <-. split; reflexivity.
    + injection H as <- ->. exfalso. apply Hx.
      apply elem_of_app. right. left.
  - destruct b as [|v b]; cbn in H.
    + injection H as -> <-. exfalso. apply Hy.
      apply elem_of_app. right. left.
    + injection H as <- H. destruct (IH b H) as [-> ->]. split; reflexivity.
Qed.

(** The id of a chunk determines its section key and its number. *)
Lemma chunk_id_inj (k1 k2 : list N) (n1 n2 : nat) :
  k1 ++ Js.lit ":" ++ Js.decimal n1 = k2 ++ Js.lit ":" ++ Js.decimal n2 ->
  k1 = k2 /\ n1 = n2.
Proof.
  intros H.
  destruct (split_at_last 58%N k1 k2 (Js.decimal n1) (Js.decimal n2)
              (decimal_no_colon n1) (decimal_no_colon n2) H) as [-> Hd].
  split; [reflexivity | apply decimal_inj; exact Hd].
Qed.

Lemma chunkSection_elem (key text : list N) (ch : Chunk.t) :
  ch ∈ chunkSection key text ->
  exists i, Chunk.id ch = key ++ Js.lit ":" ++ Js.decimal (i + 1) /\
            Chunk.key ch = key /\ chunkSection key text !! i = Some ch.
Proof.
  intros Hin. apply list_elem_of_lookup in Hin as [i Hi]. exists i.
  pose proof Hi as Hi'. unfold chunkSection in Hi'. cbv zeta in Hi'.
  apply list_lookup_imap_Some in Hi' as (t & _ & ->). repeat split. exact Hi.
Qed.

Lemma chunkSection_ids (key text : list N) :
  NoDup (map Chunk.id (chunkSection key text)).
Proof.
  apply NoDup_alt. intros i j x Hi Hj.
  rewrite list_lookup_fmap in Hi, Hj.
  destruct (chunkSection key text !! i) as [ci|] eqn:Ei; [|discriminate Hi].
  destruct (chunkSection key text !! j) as [cj|] eqn:Ej; [|discriminate Hj].
  cbn in Hi, Hj. injection Hi as Hi. injection Hj as Hj.
  unfold chunkSection in Ei, Ej. cbv zeta in Ei, Ej.
  apply list_lookup_imap_Some in Ei as (ti & _ & ->).
  apply list_lookup_imap_Some in Ej as (tj & _ & ->).
  cbn in Hi, Hj. subst x.
  apply chunk_id_inj in Hj as [_ Hj]. lia.
Qed.

(** ** The sections of the menu *)

Lemma insertByPos_perm (x : Position) (l : list Position) :
  insertByPos x l ≡ₚ x :: l.
Proof.
  induction l as [|y l IH]; [reflexivity|]. cbn [insertByPos].
  destruct (pos y <? pos x)%nat; [|reflexivity].
  rewrite IH. apply Permutation_swap.
Qed.

Lemma sortByPos_perm (l : list Position) : sortByPos l ≡ₚ l.
Proof.
  induction l as [|x l IH]; [reflexivity|]. cbn [sortByPos foldr].
  fold (sortByPos l). rewrite insertByPos_perm, IH. reflexivity.
Qed.

Lemma insertByPos_sorted (x : Position) (l : list Position) :
  StronglySorted (fun a b => (pos a <= pos b)%nat) l ->
  StronglySorted (fun a b => (pos a <= pos b)%nat) (insertByPos x l).
Proof.
  induction l as [|y l IH]; intros Hs; cbn [insertByPos].
  - repeat constructor.
  - apply StronglySorted_inv in Hs as [Hs Hy].
    destruct (pos y <? pos x)%nat eqn:E.
    + apply Nat.ltb_lt in E. constructor; [apply IH; exact Hs|].
      rewrite insertByPos_perm. constructor; [lia | exact Hy].
    + apply Nat.ltb_ge in E. constructor; [constructor; assumption|].
      constructor; [exact E|].
      eapply Forall_impl; [exact Hy|]. cbv beta. intros. lia.
Qed.

Lemma sortByPos_sorted (l : list Position) :
  StronglySorted (fun a b => (pos a <= pos b)%nat) (sortByPos l).
Proof.
  induction l as [|x l IH]; [constructor|]. cbn [sortByPos foldr].
  apply insertByPos_sorted, IH.
Qed.

(** The markers that were found keep their keys, each at most once. *)
Lemma found_markers_keys (search : Rx -> option nat) :
  map posKey
      (omap (fun m => (fun p => {| posKey := markerKey m; pos := p |})
                        <$> search (rx m)) markers)
  `sublist_of` map markerKey markers.
Proof.
  induction markers as [|m ms IH]; [constructor|]. cbn.
  destruct (search (rx m)); cbn.
  - apply sublist_skip. exact IH.
  - apply sublist_cons. exact IH.
Qed.

Lemma markerSections_keys (t : list N) (positions : list Position) :
  map MenuSection.key (markerSections t positions) `sublist_of` map posKey positions.
Proof.
  induction positions as [|p rest IH]; [constructor|].
  cbn [markerSections]. cbv zeta. rewrite map_app. cbn [map].
  destruct (Js.truthy _); cbn.
  - apply sublist_skip. exact IH.
  - apply sublist_cons. exact IH.
Qed.

Lemma markers_distinct : NoDup (map markerKey markers).
Proof.
  apply (@bool_decide_unpack _ (NoDup_dec (map markerKey markers))).
  vm_compute. exact I.
Qed.

(** Decides a closed decidable proposition by computation. *)
Ltac by_compute := refine (bool_decide_unpack _ _); vm_compute; exact I.

Lemma filter_sublist {A} (p : A -> bool) (l : list A) :
  List.filter p l `sublist_of` l.
Proof.
  induction l as [|x l IH]; [constructor|]. cbn.
  destruct (p x); [apply sublist_skip | apply sublist_cons]; exact IH.
Qed.

Lemma sorted_positions_keys (search : Rx -> option nat) (t : list N) :
  let positions :=
    sortByPos (omap (fun m => (fun p => {| posKey := markerKey m; pos := p |})
                              <$> search (rx m)) markers) in
  NoDup (map MenuSection.key (markerSections t positions)) /\
  forall k, k ∈ map MenuSection.key (markerSections t positions) ->
            k ∈ map markerKey markers.
Proof.
  cbv zeta. set (found := omap _ markers).
  assert (Hfound : NoDup (map posKey found))
    by (eapply sublist_NoDup; [apply markers_distinct | apply found_markers_keys]).
  assert (Hperm : map posKey (sortByPos found) ≡ₚ map posKey found)
    by (apply fmap_Permutation, sortByPos_perm).
  split.
  - eapply sublist_NoDup; [|apply markerSections_keys].
    rewrite Hperm. exact Hfound.
  - intros k Hk.
    apply (sublist_subseteq _ _ (markerSections_keys t (sortByPos found))) in Hk.
    rewrite Hperm in Hk.
    exact (sublist_subseteq _ _ (found_markers_keys search) _ Hk).
Qed.

Lemma sections_distinct_nonempty_keys
    (indexOfRegex : list N -> Rx -> option nat) (restaurantInfo : list N) :
  NoDup (map MenuSection.key (splitSections indexOfRegex restaurantInfo)).
Proof.
  unfold splitSections. cbv zeta.
  eapply sublist_NoDup; [|apply fmap_sublist, filter_sublist].
  destruct (sorted_positions_keys (indexOfRegex restaurantInfo) restaurantInfo)
    as [Hnodup Hin].
  cbv zeta in Hnodup, Hin.
  set (positions := sortByPos _) in *.
  set (intro := match positions with [] => _ | _ => _ end).
  set (footer := match indexOfRegex restaurantInfo RX_FOOTER with
                 | Some _ => _ | None => _ end).
  assert (Hintro : map MenuSection.key intro = []
                   \/ map MenuSection.key intro = [Js.lit "intro"]).
  { subst intro. destruct positions as [|first ?];
      [destruct (Js.truthy _) | destruct (0 <? pos first)%nat];
      [right|left|right|left]; reflexivity. }
  assert (Hfooter : map MenuSection.key footer = []
                    \/ map MenuSection.key footer = [Js.lit "footer"]).
  { subst footer. destruct (indexOfRegex restaurantInfo RX_FOOTER);
      [|left; reflexivity].
    cbv zeta. destruct (Js.truthy (Js.trim (drop _ restaurantInfo)));
      [right|left]; reflexivity. }
  assert (Hi : Js.lit "intro" ∉ map markerKey markers) by by_compute.
  assert (Hf : Js.lit "footer" ∉ map markerKey markers) by by_compute.
  rewrite !map_app. apply NoDup_app. split; [|split].
  - destruct Hintro as [-> | ->]; [constructor | apply NoDup_singleton].
  - intros k Hk Hk'. apply elem_of_app in Hk' as [Hk'|Hk'].
    + destruct Hintro as [H|H]; rewrite H in Hk; [inversion Hk|].
      apply list_elem_of_singleton in Hk as ->. exact (Hi (Hin _ Hk')).
    + destruct Hintro as [H|H]; rewrite H in Hk; [inversion Hk|].
      apply list_elem_of_singleton in Hk as ->.
      destruct Hfooter as [H'|H']; rewrite H' in Hk'; [inversion Hk'|].
      apply list_elem_of_singleton in Hk'. discriminate Hk'.
  - apply NoDup_app. split; [exact Hnodup|split].
    + intros k Hk Hk'.
      destruct Hfooter as [H'|H']; rewrite H' in Hk'; [inversion Hk'|].
      apply list_elem_of_singleton in Hk' as ->. exact (Hf (Hin _ Hk)).
    + destruct Hfooter as [-> | ->]; [constructor | apply NoDup_singleton].
Qed.

(** X13. The sections of a menu text, whatever the text and wherever the markers
    are found: no two sections share a key, and no section has an empty
    text. *)
Theorem sections_distinct_and_nonempty
    (indexOfRegex : list N -> Rx -> option nat) (restaurantInfo : list N) :
  NoDup (map MenuSection.key (splitSections indexOfRegex restaurantInfo)) /\
  Forall (fun s => MenuSection.text s <> [])
         (splitSections indexOfRegex restaurantInfo).
Proof.
  split; [apply sections_distinct_nonempty_keys|].
  unfold splitSections. cbv zeta.
  apply Forall_forall. intros s Hs. apply list_elem_of_In in Hs.
  apply List.filter_In in Hs as [_ Hs]. intros Hnil. rewrite Hnil in Hs.
  discriminate Hs.
Qed.

Lemma chunks_of_sections_ids (sections : list MenuSection.t) :
  NoDup (map MenuSection.key sections) ->
  NoDup (map Chunk.id
           (flat_map (fun section =>
                        chunkSection (MenuSection.key section)
                                     (MenuSection.text section))
                     sections)).
Proof.
  induction sections as [|s rest IH]; intros Hkeys; [constructor|].
  cbn [flat_map map] in *. apply NoDup_cons in Hkeys as [Hs Hrest].
  rewrite map_app. apply NoDup_app. split; [apply chunkSection_ids|].
  split; [|apply IH; exact Hrest].
  intros x Hx Hx'.
  apply list_elem_of_fmap in Hx as (ch & -> & Hch).
  apply list_elem_of_fmap in Hx' as (ch' & Hid & Hch').
  apply list_elem_of_In, in_flat_map in Hch' as (s' & Hs' & Hch').
  apply list_elem_of_In in Hs', Hch'.
  apply chunkSection_elem in Hch as (i & Hi & _).
  apply chunkSection_elem in Hch' as (i' & Hi' & _).
  rewrite Hi, Hi' in Hid. apply chunk_id_inj in Hid as [Hkey _].
  apply Hs. rewrite Hkey. apply list_elem_of_fmap. exists s'. split; [reflexivity|].
  exact Hs'.
Qed.

Lemma menu_chunk_ids (indexOfRegex : list N -> Rx -> option nat)
    (restaurantInfo : list N) :
  NoDup (map Chunk.id (chunkMenuForEmbedding indexOfRegex restaurantInfo)).
Proof.
  unfold chunkMenuForEmbedding. apply chunks_of_sections_ids.
  apply sections_distinct_nonempty_keys.
Qed.

(** X14. The chunks of a menu text, whatever the text and wherever the markers
    are found: their ids are pairwise different, so the label of a chunk in
    the context names one chunk; each chunk carries the key of a section of
    the text; and each chunk text is trimmed. *)
Theorem menu_chunk_ids_distinct (indexOfRegex : list N -> Rx -> option nat)
    (restaurantInfo : list N) :
  let chunks := chunkMenuForEmbedding indexOfRegex restaurantInfo in
  NoDup (map Chunk.id chunks) /\
  Forall (fun ch =>
            Chunk.key ch
              ∈ map MenuSection.key (splitSections indexOfRegex restaurantInfo) /\
            Js.trim (Chunk.text ch) = Chunk.text ch)
         chunks.
Proof.
  cbv zeta. split; [apply menu_chunk_ids|].
  unfold chunkMenuForEmbedding. apply Forall_forall. intros ch Hch.
  apply list_elem_of_In, in_flat_map in Hch as (section & Hsection & Hch).
  apply list_elem_of_In in Hsection, Hch. split.
  - destruct (chunkSection_elem _ _ _ Hch) as (i & _ & -> & _).
    apply list_elem_of_fmap. exists section. split; [reflexivity | exact Hsection].
  - pose proof (packLines_trimmed (splitLines (MenuSection.text section))) as H.
    rewrite <- (chunkSection_texts (MenuSection.key section)) in H.
    rewrite Forall_forall in H. apply H.
    apply list_elem_of_fmap. exists ch. split; [reflexivity | exact Hch].
Qed.

(** ** Nothing of the menu is lost *)

Lemma squeeze_concat (ls : list (list N)) :
  squeeze (concat ls) = concat (map squeeze ls).
Proof.
  induction ls as [|l ls IH]; [reflexivity|]. cbn [concat map].
  rewrite squeeze_app, IH. reflexivity.
Qed.

(** The text of a list of sections with all white space removed. *)
Lemma squeeze_sections (l : list MenuSection.t) :
  squeeze (concat (map MenuSection.text l))
  = concat (map (fun s => squeeze (MenuSection.text s)) l).
Proof. rewrite squeeze_concat, map_map. reflexivity. Qed.

Lemma squeeze_filter_nonempty (p : MenuSection.t -> bool) (l : list MenuSection.t) :
  concat (map (fun s => squeeze (MenuSection.text s))
              (List.filter p
                 (List.filter (fun s => Js.truthy (MenuSection.text s)) l)))
  = concat (map (fun s => squeeze (MenuSection.text s)) (List.filter p l)).
Proof.
  induction l as [|x l IH]; [reflexivity|]. cbn [List.filter].
  destruct (Js.truthy (MenuSection.text x)) eqn:E.
  - cbn [List.filter]. destruct (p x); cbn [map concat]; rewrite IH; reflexivity.
  - destruct (MenuSection.text x) eqn:Ex; [|discriminate E].
    destruct (p x); cbn [map concat]; rewrite IH, ?Ex; reflexivity.
Qed.

Lemma squeeze_optional (k text : list N) :
  concat (map (fun s => squeeze (MenuSection.text s))
              (if Js.truthy (Js.trim text)
               then [MenuSection.mk k (Js.trim text)] else []))
  = squeeze text.
Proof.
  destruct (Js.truthy (Js.trim text)) eqn:E; cbn.
  - rewrite app_nil_r. apply squeeze_trim.
  - destruct (Js.trim text) eqn:Et; [|discriminate E].
    symmetry. apply squeeze_empty_trim. exact Et.
Qed.

(** The sections of the markers, laid end to end, are the text from the
    first marker on, up to white space. *)
Lemma markerSections_cover (t : list N) (positions : list Position) :
  StronglySorted (fun a b => (pos a <= pos b)%nat) positions ->
  forall first rest, positions = first :: rest ->
  concat (map (fun s => squeeze (MenuSection.text s))
              (markerSections t positions))
  = squeeze (drop (pos first) t).
Proof.
  induction positions as [|p ps IH]; intros Hsorted first rest Heq;
    [discriminate Heq|].
  injection Heq as -> ->. apply StronglySorted_inv in Hsorted as [Hsorted Hle].
  cbn [markerSections]. cbv zeta. rewrite map_app, concat_app, squeeze_optional.
  destruct rest as [|q rest].
  - cbn. rewrite app_nil_r. unfold slice. rewrite take_ge; [reflexivity|].
    rewrite length_drop. lia.
  - rewrite (IH Hsorted q rest eq_refl), <- squeeze_app. f_equal.
    apply Forall_cons in Hle as [Hle _]. unfold slice.
    replace (drop (pos q) t) with (drop (pos q - pos first) (drop (pos first) t)).
    + apply take_drop.
    + rewrite drop_drop. f_equal. lia.
Qed.

Lemma filter_keeps {A} (p : A -> bool) (l : list A) :
  Forall (fun x => p x = true) l -> List.filter p l = l.
Proof.
  induction 1 as [|x l Hx _ IH]; [reflexivity|]. cbn. rewrite Hx, IH. reflexivity.
Qed.

(** X15. The sections other than the footer, laid end to end, are the menu text
    up to white space -- nothing is lost and nothing is repeated -- when a
    marker is found, or when the trimmed text has at most [MAX_MENU_CHUNK]
    code units. (Without a marker the text is one section, cut at that
    length. The footer section repeats the end of the text.) *)
Theorem sections_cover_menu (indexOfRegex : list N -> Rx -> option nat)
    (restaurantInfo : list N) :
  (exists m, m ∈ markers /\ is_Some (indexOfRegex restaurantInfo (rx m))) \/
  (length (Js.trim restaurantInfo) <= MAX_MENU_CHUNK)%nat ->
  squeeze
    (concat
       (map MenuSection.text
          (List.filter
             (fun s => negb (bool_decide (MenuSection.key s = Js.lit "footer")))
             (splitSections indexOfRegex restaurantInfo))))
  = squeeze restaurantInfo.
Proof.
  intros Hcase. unfold splitSections. cbv zeta.
  rewrite squeeze_sections, squeeze_filter_nonempty.
  destruct (sorted_positions_keys (indexOfRegex restaurantInfo) restaurantInfo)
    as [_ Hin].
  cbv zeta in Hin.
  pose proof (sortByPos_sorted
                (omap (fun m => (fun p => {| posKey := markerKey m; pos := p |})
                                  <$> indexOfRegex restaurantInfo (rx m))
                      markers)) as Hsorted.
  assert (Hfound : (exists m, m ∈ markers /\
                              is_Some (indexOfRegex restaurantInfo (rx m))) ->
                   sortByPos
                     (omap (fun m => (fun p => {| posKey := markerKey m; pos := p |})
                                       <$> indexOfRegex restaurantInfo (rx m))
                           markers) <> []).
  { intros (m & Hm & [p Hp]) Hnil.
    apply (f_equal length) in Hnil. rewrite sortByPos_perm in Hnil.
    apply nil_length_inv in Hnil.
    assert (Hx : {| posKey := markerKey m; pos := p |}
                 ∈ omap (fun m => (fun p => {| posKey := markerKey m; pos := p |})
                                    <$> indexOfRegex restaurantInfo (rx m))
                        markers).
    { apply list_elem_of_omap. exists m. split; [exact Hm|]. rewrite Hp.
      reflexivity. }
    rewrite Hnil in Hx. inversion Hx. }
  set (positions := sortByPos _) in *.
  assert (Hf : Js.lit "footer" ∉ map markerKey markers) by by_compute.
  assert (Hkeep : List.filter
                    (fun s => negb (bool_decide (MenuSection.key s = Js.lit "footer")))
                    (markerSections restaurantInfo positions)
                  = markerSections restaurantInfo positions).
  { apply filter_keeps, Forall_forall. intros s Hs.
    apply negb_true_iff, bool_decide_eq_false. intros Hkey. apply Hf.
    apply Hin. apply list_elem_of_fmap. exists s. split; [auto|exact Hs]. }
  rewrite !List.filter_app, Hkeep.
  assert (Hdrop : List.filter
                    (fun s => negb (bool_decide (MenuSection.key s = Js.lit "footer")))
                    match indexOfRegex restaurantInfo RX_FOOTER with
                    | Some footerPos =>
                        if Js.truthy (Js.trim (drop footerPos restaurantInfo))
                        then [MenuSection.mk (Js.lit "footer")
                                (Js.trim (drop footerPos restaurantInfo))]
                        else []
                    | None => []
                    end = []).
  { destruct (indexOfRegex restaurantInfo RX_FOOTER) as [n|]; [|reflexivity].
    destruct (Js.truthy (Js.trim (drop n restaurantInfo))); reflexivity. }
  assert (Hintro : forall text,
            List.filter
              (fun s => negb (bool_decide (MenuSection.key s = Js.lit "footer")))
              [MenuSection.mk (Js.lit "intro") text]
            = [MenuSection.mk (Js.lit "intro") text])
    by (intros text; reflexivity).
  rewrite Hdrop, app_nil_r, map_app, concat_app.
  destruct positions as [|first rest] eqn:Hpos.
  - destruct Hcase as [Hm|Hlen]; [exfalso; exact (Hfound Hm eq_refl)|].
    cbn [markerSections map concat]. rewrite app_nil_r.
    rewrite take_ge by exact Hlen.
    destruct (Js.truthy (Js.trim restaurantInfo)) eqn:E.
    + rewrite Hintro. cbn [map concat MenuSection.text].
      rewrite app_nil_r. apply squeeze_trim.
    + destruct (Js.trim restaurantInfo) eqn:Et; [|discriminate E].
      symmetry. apply squeeze_empty_trim. exact Et.
  - rewrite (markerSections_cover restaurantInfo (first :: rest) Hsorted
               first rest eq_refl).
    rewrite <- (take_drop (pos first) restaurantInfo) at 3.
    rewrite squeeze_app. f_equal.
    destruct (0 <? pos first)%nat eqn:E.
    + rewrite Hintro. cbn [map concat MenuSection.text].
      rewrite app_nil_r, squeeze_trim. unfold slice.
      rewrite Nat.sub_0_r. reflexivity.
    + apply Nat.ltb_ge in E. replace (pos first) with 0%nat by lia. reflexivity.
Qed.

(** The sample search tells the truth about the sample menu: the text of
    each marker it reports stands at the index it reports, and the footer
    sentence is the one of the footer expression, code unit by code unit. *)
Example demoSearch_positions :
  take 12 (drop 13 demoMenu) = Js.lit "MEZE / MEZZE" /\
  take 15 (drop 38 demoMenu) = Js.lit "ITALOK / DRINKS" /\
  drop 68 demoMenu = footerSentence /\
  footerSentence
    = [65; 122; 32; 225; 114; 97; 107; 32; 102; 111; 114; 105; 110; 116; 98; 97;
       110; 32; 233; 114; 116; 101; 110; 100; 337; 101; 107]%N /\
  demoSearch demoMenu RX_MEZE = Some 13%nat /\
  demoSearch demoMenu RX_DRINKS = Some 38%nat /\
  demoSearch demoMenu RX_FOOTER = Some 68%nat.
Proof. repeat split; vm_compute; reflexivity. Qed.

(** The sample menu: a marker is found, and the sections are the intro, the
    two marked sections and the footer. *)
Lemma sections_cover_menu_witness :
  map MenuSection.key (splitSections demoSearch demoMenu)
    = [Js.lit "intro"; Js.lit "meze"; Js.lit "drinks"; Js.lit "footer"] /\
  squeeze
    (concat
       (map MenuSection.text
          (List.filter
             (fun s => negb (bool_decide (MenuSection.key s = Js.lit "footer")))
             (splitSections demoSearch demoMenu))))
  = squeeze demoMenu.
Proof.
  split; [vm_compute; reflexivity|].
  apply sections_cover_menu. left.
  exists {| markerKey := Js.lit "meze"; rx := RX_MEZE |}.
  split; [constructor | eexists; reflexivity].
Defined.

(** * The embedding index *)

(** The loop over the chunks: one call per chunk, in order, on the text of
    the chunk cut at the cap; it stops at the first failure. *)
Lemma embedChunks_run (embed : nat -> list N -> Outcome (list float))
    (chunks : list Chunk.t) :
  forall (embeddings : list (list float)) (calls : list (list N)),
    match embedChunks embed chunks embeddings calls with
    | (Ret result, sent) =>
        length result = (length embeddings + length chunks)%nat /\
        sent = calls ++ map embedInput chunks
    | (Throw err, sent) =>
        exists n, (n < length chunks)%nat /\
                  sent = calls ++ map embedInput (take (S n) chunks)
    end.
Proof.
  induction chunks as [|chunk rest IH]; intros embeddings calls.
  - cbn. rewrite app_nil_r. split; [lia | reflexivity].
  - cbn [embedChunks]. cbv zeta. fold (embedInput chunk).
    destruct (embed (length calls) (embedInput chunk)) as [embedding|err].
    + specialize (IH (embeddings ++ [embedding]) (calls ++ [embedInput chunk])).
      destruct (embedChunks embed rest _ _) as [[result|err] sent].
      * destruct IH as [Hlen ->]. rewrite length_app in Hlen. cbn in *.
        split; [lia|]. rewrite <- app_assoc. reflexivity.
      * destruct IH as (n & Hn & ->). exists (S n). cbn. split; [lia|].
        rewrite <- app_assoc. reflexivity.
    + exists 0%nat. cbn. split; [lia | reflexivity].
Qed.

(** X16. Building the index, from a cache that is empty or well formed: on
    success the index holds one embedding per chunk and chunk ids that are
    pairwise different, every input sent to the provider has at most
    [MAX_EMBED_CHUNK_CHARS] code units, and the index is cached: every later
    call answers with the same index without calling the provider, also for
    another menu text. On a failure of the provider nothing is cached. The
    cache stays well formed either way. *)
Theorem menu_index_built_once (indexOfRegex : list N -> Rx -> option nat)
    (embed : nat -> list N -> Outcome (list float)) (restaurantInfo : list N)
    (st : IndexCache) :
  indexAligned st ->
  let run := getMenuEmbeddings indexOfRegex embed restaurantInfo st in
  indexAligned run.1.2 /\
  Forall (fun input => (length input <= MAX_EMBED_CHUNK_CHARS)%nat) run.2 /\
  match run.1.1 with
  | Ret (chunks, embeddings) =>
      length embeddings = length chunks /\
      NoDup (map Chunk.id chunks) /\
      (run.2 = [] \/ run.2 = map embedInput chunks) /\
      forall indexOfRegex' embed' restaurantInfo',
        getMenuEmbeddings indexOfRegex' embed' restaurantInfo' run.1.2
        = (Ret (chunks, embeddings), run.1.2, [])
  | Throw err => run.1.2 = st
  end.
Proof.
  intros Hst. cbv zeta. unfold getMenuEmbeddings.
  assert (Hinputs : forall l : list Chunk.t,
            Forall (fun input => (length input <= MAX_EMBED_CHUNK_CHARS)%nat)
                   (map embedInput l)).
  { intros l. apply Forall_forall. intros input Hin.
    apply list_elem_of_fmap in Hin as (ch & -> & _).
    unfold embedInput. rewrite length_take. lia. }
  destruct (cachedMenuChunks st) as [chunks|] eqn:Hc;
    [destruct (cachedMenuEmbeddings st) as [embeddings|] eqn:He|].
  - cbn [fst snd]. destruct (Hst chunks embeddings Hc He) as [Hlen Hids].
    split; [exact Hst|]. split; [constructor|]. split; [exact Hlen|].
    split; [exact Hids|]. split; [left; reflexivity|].
    intros f' e' t'. rewrite Hc, He. reflexivity.
  - cbv zeta.
    pose proof (menu_chunk_ids indexOfRegex restaurantInfo) as Hids.
    set (built := chunkMenuForEmbedding indexOfRegex restaurantInfo) in *.
    clearbody built.
    pose proof (embedChunks_run embed built [] []) as Hrun.
    destruct (embedChunks embed built [] []) as [[result|err] sent]; cbn [fst snd].
    + destruct Hrun as [Hlen ->]. cbn [length Nat.add] in Hlen.
      split.
      { intros c e Hc' He'. cbn [cachedMenuChunks cachedMenuEmbeddings] in Hc', He'.
        injection Hc' as <-. injection He' as <-. split; assumption. }
      split; [apply Hinputs|]. split; [exact Hlen|]. split; [exact Hids|].
      split; [right; reflexivity|]. intros; reflexivity.
    + destruct Hrun as (n & _ & ->).
      split; [exact Hst|]. split; [apply Hinputs|]. reflexivity.
  - cbv zeta.
    pose proof (menu_chunk_ids indexOfRegex restaurantInfo) as Hids.
    set (built := chunkMenuForEmbedding indexOfRegex restaurantInfo) in *.
    clearbody built.
    pose proof (embedChunks_run embed built [] []) as Hrun.
    destruct (embedChunks embed built [] []) as [[result|err] sent]; cbn [fst snd].
    + destruct Hrun as [Hlen ->]. cbn [length Nat.add] in Hlen.
      split.
      { intros c e Hc' He'. cbn [cachedMenuChunks cachedMenuEmbeddings] in Hc', He'.
        injection Hc' as <-. injection He' as <-. split; assumption. }
      split; [apply Hinputs|]. split; [exact Hlen|]. split; [exact Hids|].
      split; [right; reflexivity|]. intros; reflexivity.
    + destruct Hrun as (n & _ & ->).
      split; [exact Hst|]. split; [apply Hinputs|]. reflexivity.
Qed.

(** The sample menu gives four chunks and four embeddings. *)
Lemma menu_index_built_once_witness :
  length (replicate 4 [1; 0]%float)
  = length (chunkMenuForEmbedding demoSearch demoMenu).
Proof.
  assert (Hempty : indexAligned emptyIndexCache)
    by (intros chunks embeddings H; discriminate H).
  pose proof (menu_index_built_once demoSearch demoEmbed demoMenu emptyIndexCache
                Hempty) as (_ & _ & H).
  assert (Hrun : (getMenuEmbeddings demoSearch demoEmbed demoMenu
                    emptyIndexCache).1.1
                 = Ret (chunkMenuForEmbedding demoSearch demoMenu,
                        replicate 4 [1; 0]%float))
    by (vm_compute; reflexivity).
  rewrite Hrun in H. destruct H as [Hlen _]. exact Hlen.
Defined.

(** ** From the index to the context *)

Lemma detectIntent_key (queryEmbedding : list float)
    (intentEmbeddings : list (list float)) :
  (detectIntent queryEmbedding intentEmbeddings).1 ∈ intents.
Proof.
  unfold detectIntent.
  assert (Hstart : (Js.lit "general", (-1)%float).1 ∈ intents) by by_compute.
  assert (Hzip : Forall (fun p : list N * list float => p.1 ∈ intents)
                        (zip intents intentEmbeddings)).
  { apply Forall_forall. intros [k v] Hin. cbn.
    apply elem_of_zip_l in Hin. exact Hin. }
  revert Hstart. generalize (Js.lit "general", (-1)%float).
  induction Hzip as [|p ps Hp _ IH]; intros best Hbest; [exact Hbest|].
  cbn [fold_left]. apply IH.
  destruct (best.2 <? cosineSimilarity queryEmbedding p.2)%float; assumption.
Qed.

(** X17. The index that [getMenuEmbeddings] answers with, from a cache that is
    empty or well formed, is one the context can be assembled from: no read
    goes past the end of the chunks, so there is a context, of at most
    [MAX_MENU_CHUNK] code units, and an intent, which is one of the four
    intent keys. *)
Theorem built_index_yields_context (indexOfRegex : list N -> Rx -> option nat)
    (embed : nat -> list N -> Outcome (list float)) (restaurantInfo : list N)
    (st : IndexCache) (chunks : list Chunk.t) (embeddings : list (list float))
    (queryEmbedding : list float) (intentEmbeddings : list (list float)) :
  indexAligned st ->
  (getMenuEmbeddings indexOfRegex embed restaurantInfo st).1.1
    = Ret (chunks, embeddings) ->
  exists context intent,
    buildMenuContextForQuery chunks embeddings queryEmbedding intentEmbeddings
      = Some (context, intent) /\
    (length context <= MAX_MENU_CHUNK)%nat /\
    intent ∈ intents.
Proof.
  intros Hst Hrun.
  assert (Haligned : length embeddings = length chunks).
  { unfold getMenuEmbeddings in Hrun.
    destruct (cachedMenuChunks st) as [c|] eqn:Hc;
      [destruct (cachedMenuEmbeddings st) as [e|] eqn:He|]; cbv zeta in Hrun.
    - cbn [fst snd] in Hrun. injection Hrun as <- <-. apply (Hst c e Hc He).
    - set (built := chunkMenuForEmbedding indexOfRegex restaurantInfo) in *.
      clearbody built.
      pose proof (embedChunks_run embed built [] []) as H.
      destruct (embedChunks embed built [] []) as [[result|err] sent];
        cbn [fst snd] in Hrun; [|discriminate Hrun].
      injection Hrun as <- <-. destruct H as [H _]. exact H.
    - set (built := chunkMenuForEmbedding indexOfRegex restaurantInfo) in *.
      clearbody built.
      pose proof (embedChunks_run embed built [] []) as H.
      destruct (embedChunks embed built [] []) as [[result|err] sent];
        cbn [fst snd] in Hrun; [|discriminate Hrun].
      injection Hrun as <- <-. destruct H as [H _]. exact H. }
  unfold buildMenuContextForQuery. cbv zeta.
  set (intent := detectIntent queryEmbedding intentEmbeddings).
  destruct (ranked_indices queryEmbedding embeddings (topKFor intent.1))
    as [_ Hrange].
  assert (Hsel : is_Some (mapM (fun s => chunks !! idx s)
                            (take (topKFor intent.1)
                               (sortByScore (scoreAll queryEmbedding embeddings))))).
  { apply mapM_is_Some. eapply Forall_impl; [exact Hrange|].
    intros s Hs. cbv beta in Hs. unfold compose.
    apply lookup_lt_is_Some. rewrite <- Haligned. exact Hs. }
  destruct Hsel as [selected Hsel]. rewrite Hsel. cbn [mbind option_bind].
  eexists _, _. split; [reflexivity|]. split.
  - rewrite length_take. lia.
  - apply detectIntent_key.
Qed.

(** The index of the sample menu and the sample query. *)
Lemma built_index_yields_context_witness :
  exists context intent,
    buildMenuContextForQuery (chunkMenuForEmbedding demoSearch demoMenu)
      (replicate 4 [1; 0]%float) demoQuery demoIntentEmbeddings
      = Some (context, intent) /\
    (length context <= MAX_MENU_CHUNK)%nat /\
    intent ∈ intents.
Proof.
  assert (Hempty : indexAligned emptyIndexCache)
    by (intros chunks embeddings H; discriminate H).
  assert (Hrun : (getMenuEmbeddings demoSearch demoEmbed demoMenu
                    emptyIndexCache).1.1
                 = Ret (chunkMenuForEmbedding demoSearch demoMenu,
                        replicate 4 [1; 0]%float))
    by (vm_compute; reflexivity).
  exact (built_index_yields_context demoSearch demoEmbed demoMenu emptyIndexCache
           _ _ demoQuery demoIntentEmbeddings Hempty Hrun).
Defined.

(** * The prompt *)

Lemma lastN_length {A} (n : nat) (l : list A) :
  length (Js.lastN n l) = Nat.min n (length l).
Proof. unfold Js.lastN. rewrite length_drop. lia. Qed.

Lemma list_sum_bound {A} (f : A -> nat) (b : nat) (l : list A) :
  Forall (fun x => (f x <= b)%nat) l -> (list_sum (map f l) <= length l * b)%nat.
Proof. induction 1 as [|x l Hx _ IH]; simpl; lia. Qed.

Lemma intents_short (intent : list N) :
  intent ∈ intents -> (length (Js.orElse intent (Js.lit "general")) <= 14)%nat.
Proof.
  intros Hin. unfold intents in Hin.
  repeat (apply elem_of_cons in Hin as [-> | Hin]; [vm_compute; lia|]).
  inversion Hin.
Qed.

(** X18. Whatever the client sends -- a message and a history of any length --
    the prompt has the two system messages, at most [HISTORY_MAX] turns of
    history and the user message, and, for a context of at most
    [MAX_MENU_CHUNK] code units and one of the four intent keys, at most
    24955 code units of content in total. *)
Theorem prompt_is_bounded (message : list N) (history : list Turn)
    (menuContext intent : list N) :
  (length menuContext <= MAX_MENU_CHUNK)%nat ->
  intent ∈ intents ->
  let messages := buildMessages message history menuContext intent in
  length messages = (3 + Nat.min HISTORY_MAX (length history))%nat /\
  (length messages <= 19)%nat /\
  Z.of_nat (promptSize messages) <= 24955.
Proof.
  intros Hcontext Hintent. cbv zeta. unfold buildMessages. cbv zeta.
  set (systemPrompt := Js.trim (systemPromptHead ++ _)).
  set (menuContextBlock := Js.trim (menuContextHead ++ _)).
  set (safeHist := map _ (Js.lastN HISTORY_MAX history)).
  assert (Hhist : length safeHist = Nat.min HISTORY_MAX (length history))
    by (subst safeHist; rewrite length_map; apply lastN_length).
  assert (Hcount : length ([ {| role := Js.lit "system"; content := systemPrompt |};
                             {| role := Js.lit "system"; content := menuContextBlock |} ]
                           ++ safeHist
                           ++ [ {| role := Js.lit "user";
                                   content := take USER_TRIM_LEN
                                                (Js.orElse message []) |} ])
                   = (3 + Nat.min HISTORY_MAX (length history))%nat).
  { rewrite !length_app, Hhist. cbn. lia. }
  split; [exact Hcount|]. split; [rewrite Hcount; unfold HISTORY_MAX; lia|].
  unfold promptSize. rewrite !map_app, !list_sum_app. cbn [map list_sum content].
  assert (Hsys : (length systemPrompt <= 883)%nat).
  { subst systemPrompt. etransitivity; [apply trim_length|].
    rewrite !length_app. pose proof (intents_short intent Hintent) as Hi.
    assert (Hhead : length systemPromptHead = 868%nat) by (vm_compute; reflexivity).
    rewrite Hhead. cbn [length]. lia. }
  assert (Hblock : (length menuContextBlock <= 72 + MAX_MENU_CHUNK)%nat).
  { subst menuContextBlock. etransitivity; [apply trim_length|].
    rewrite !length_app.
    assert (Hhead : length menuContextHead = 71%nat) by (vm_compute; reflexivity).
    rewrite Hhead. cbn [length]. lia. }
  assert (Hturns : (list_sum (map (fun m => length (content m)) safeHist)
                    <= 16 * 500)%nat).
  { etransitivity; [apply (list_sum_bound _ HISTORY_TRIM_LEN)|].
    - subst safeHist. apply Forall_forall. intros m Hm.
      apply list_elem_of_fmap in Hm as (h & -> & _). cbn [content].
      rewrite length_take. lia.
    - rewrite Hhist. unfold HISTORY_MAX, HISTORY_TRIM_LEN. nia. }
  assert (Huser : (length (take USER_TRIM_LEN (Js.orElse message [])) <= 1000)%nat)
    by (rewrite length_take; unfold USER_TRIM_LEN; lia).
  assert (Hmax : Z.of_nat MAX_MENU_CHUNK = 15000) by (vm_compute; reflexivity).
  set (turns := list_sum (map _ safeHist)) in *. clearbody turns.
  unfold list_sum. cbn [fold_right]. lia.
Qed.

(** A history longer than the cap and a message longer than its cut. *)
Lemma prompt_is_bounded_witness :
  length (buildMessages (longMessage "?") (historyB ++ historyB ++ historyB ++ historyB)
            (Js.lit "### MEZE (meze:1)") (Js.lit "cheapest")) = 19%nat /\
  Z.of_nat
    (promptSize
       (buildMessages (longMessage "?") (historyB ++ historyB ++ historyB ++ historyB)
          (Js.lit "### MEZE (meze:1)") (Js.lit "cheapest"))) <= 24955.
Proof.
  assert (Hcontext : (length (Js.lit "### MEZE (meze:1)") <= MAX_MENU_CHUNK)%nat)
    by (apply Nat.leb_le; vm_compute; reflexivity).
  assert (Hintent : Js.lit "cheapest" ∈ intents) by by_compute.
  destruct (prompt_is_bounded (longMessage "?")
              (historyB ++ historyB ++ historyB ++ historyB)
              (Js.lit "### MEZE (meze:1)") (Js.lit "cheapest") Hcontext Hintent)
    as (Hcount & _ & Hsize).
  split; [rewrite Hcount; reflexivity | exact Hsize].
Defined.

(** * Further properties of the cache key and the client key *)

(** X19. The category of a cache key is normalised: normalising is idempotent and
    lands in the set of valid categories, and a request with an unknown
    category shares its cache entries with the category [auto]. *)
Theorem unknown_category_is_auto (message : list N) (history : list Turn)
    (category : list N) :
  normalizeCategory category ∈ VALID_CATEGORIES /\
  normalizeCategory (normalizeCategory category) = normalizeCategory category /\
  makeCacheKey message history (normalizeCategory category)
    = makeCacheKey message history category /\
  (category ∉ VALID_CATEGORIES ->
   makeCacheKey message history category
     = makeCacheKey message history (Js.lit "auto")).
Proof.
  assert (Hauto : Js.lit "auto" ∈ VALID_CATEGORIES) by by_compute.
  assert (Hvalid : normalizeCategory category ∈ VALID_CATEGORIES).
  { unfold normalizeCategory. destruct (bool_decide _) eqn:E; [|exact Hauto].
    apply bool_decide_eq_true in E. exact E. }
  assert (Hidem : normalizeCategory (normalizeCategory category)
                  = normalizeCategory category).
  { unfold normalizeCategory at 1.
    rewrite (bool_decide_eq_true_2 _ Hvalid). reflexivity. }
  split; [exact Hvalid|]. split; [exact Hidem|]. split.
  - unfold makeCacheKey. cbv zeta. rewrite Hidem. reflexivity.
  - intros Hno. unfold makeCacheKey. cbv zeta. f_equal.
    unfold normalizeCategory.
    rewrite (bool_decide_eq_false_2 _ Hno), (bool_decide_eq_true_2 _ Hauto).
    reflexivity.
Qed.

(** X20. A client id of eight code units or more gives a key of its own: two
    such ids give the same key only when they are the same id, and never the
    key of a client known by its address. Two addresses that are not empty
    give the same key only when they are the same address; a shorter client
    id is ignored, and all clients without an address share one key. *)
Theorem client_keys_separate (cid1 cid2 ip1 ip2 : list N) :
  ((8 <= length cid1)%nat -> (8 <= length cid2)%nat ->
   getClientKey (Some cid1) ip1 = getClientKey (Some cid2) ip2 -> cid1 = cid2) /\
  ((8 <= length cid1)%nat ->
   getClientKey (Some cid1) ip1 <> getClientKey None ip2) /\
  ((length cid1 < 8)%nat ->
   getClientKey (Some cid1) ip1 = getClientKey None ip1) /\
  (ip1 <> [] -> ip2 <> [] ->
   getClientKey None ip1 = getClientKey None ip2 -> ip1 = ip2) /\
  getClientKey None [] = Js.lit "ip:unknown".
Proof.
  assert (Hcid : forall cid ip, (8 <= length cid)%nat ->
            getClientKey (Some cid) ip = Js.lit "cid:" ++ cid).
  { intros cid ip Hlen. unfold getClientKey.
    destruct cid as [|u cid]; [cbn in Hlen; lia|]. cbn [Js.truthy andb].
    destruct (8 <=? length (u :: cid))%nat eqn:E; [reflexivity|].
    apply Nat.leb_gt in E. lia. }
  split; [|split; [|split; [|split]]].
  - intros H1 H2. rewrite (Hcid cid1 ip1 H1), (Hcid cid2 ip2 H2).
    intros H. injection H as H. exact H.
  - intros H1. rewrite (Hcid cid1 ip1 H1). cbn. discriminate.
  - intros Hlen. unfold getClientKey.
    destruct (8 <=? length cid1)%nat eqn:E; [apply Nat.leb_le in E; lia|].
    rewrite andb_false_r. reflexivity.
  - intros H1 H2. unfold getClientKey, Js.orElse.
    destruct ip1 as [|u1 ip1]; [contradiction|].
    destruct ip2 as [|u2 ip2]; [contradiction|].
    cbn [Js.truthy]. intros H. injection H as H. congruence.
  - reflexivity.
Qed.

(** * The ranking keeps the order of the corpus *)

(** X21. A list in which no entry has to come after a later one -- equal scores,
    or scores already in descending order -- is ranked as it stands: ties
    keep the order of the corpus. Hence ranking twice is ranking once, where
    the comparator is consistent. *)
Theorem ranking_keeps_order (l : list Scored) :
  (StronglySorted (fun a b => after a b = false) l -> sortByScore l = l) /\
  (consistentOn l -> sortByScore (sortByScore l) = sortByScore l).
Proof.
  assert (Hfix : forall l', StronglySorted (fun a b => after a b = false) l' ->
                            sortByScore l' = l').
  { induction l' as [|x l' IH]; intros Hs; [reflexivity|].
    apply StronglySorted_inv in Hs as [Hs Hx].
    cbn [sortByScore foldr]. fold (sortByScore l'). rewrite (IH Hs).
    destruct l' as [|y l']; [reflexivity|].
    apply Forall_cons in Hx as [Hxy _]. cbn [insertSorted]. rewrite Hxy.
    reflexivity. }
  split; [apply Hfix|].
  intros Hcons. apply Hfix, sortByScore_sorted, Hcons.
Qed.

(** * From one mode to the other *)

Lemma generations_app (l1 l2 : list Effect) :
  generations (l1 ++ l2) = (generations l1 + generations l2)%nat.
Proof. unfold generations. rewrite List.filter_app, length_app. reflexivity. Qed.

(** X22. An answer generated in the streaming mode is served from the cache to a
    later buffered request of the same conversation, as long as the entry is
    fresh: the buffered handler answers with the fragments concatenated and
    trimmed, marked as cached, and the generation capability is not invoked
    again. *)
Theorem streamed_answer_is_served_buffered (env1 env2 : Env) (body : Body)
    (ip : list N) (c cg1 cg2 : Ctx) :
  bodyMessage body <> [] ->
  governance (tRate env1) (tSpam env1) (getClientKey (clientId body) ip) c
    = (Ret tt, cg1) ->
  servable (tLookup env1)
    (cache (cleanupCache (tCleanup env1) cg1).2
       !! makeCacheKey (bodyMessage body) (bodyHistory body)
            (normalizeCategory (bodyCategory body))) = None ->
  retrievalFailure env1 = None ->
  streamCreation env1 = None ->
  streamFailure env1 = None ->
  let streamed := (handleChatStream env1 body ip c).2 in
  governance (tRate env2) (tSpam env2) (getClientKey (clientId body) ip) streamed
    = (Ret tt, cg2) ->
  tCleanup env2 - tStore env1 <= CACHE_TTL ->
  tLookup env2 - tStore env1 < CACHE_TTL ->
  (handleChatBuffered env2 body ip streamed).1
    = Ret (Answer (Js.trim (concat (fragments env1))) true) /\
  generations (effects (handleChatBuffered env2 body ip streamed).2)
    = generations (effects streamed).
Proof.
  intros Hmsg Hg1 Hmiss Hr Hc Hf streamed Hg2 Hclean Hlookup.
  set (key := getClientKey (clientId body) ip) in *.
  set (cacheKey := makeCacheKey _ _ _) in *.
  set (entry := {| ts := tStore env1; reply := Js.trim (concat (fragments env1)) |}).
  assert (Hstored : cache streamed !! cacheKey = Some entry).
  { subst streamed.
    rewrite (handleChatStream_admitted env1 body ip c cg1 Hmsg Hg1). cbv zeta.
    fold cacheKey. rewrite Hmiss, Hr, Hc, Hf. cbn [snd].
    cbn [clearBusy modify snd emits emit setInFlight setCache cache].
    apply lookup_insert_eq. }
  pose proof (governance_cache (tRate env2) (tSpam env2) key streamed) as Hcache.
  rewrite Hg2 in Hcache. cbn [snd] in Hcache.
  assert (Hkept : cache (cleanupCache (tCleanup env2) cg2).2 !! cacheKey
                  = Some entry).
  { apply cleanupCache_lookup. rewrite Hcache. split; [exact Hstored|].
    exact Hclean. }
  rewrite (handleChatBuffered_admitted env2 body ip streamed cg2 Hmsg Hg2).
  cbv zeta. fold cacheKey. rewrite Hkept.
  rewrite (servable_fresh (tLookup env2) entry Hlookup). cbn [fst snd].
  split; [reflexivity|].
  apply governance_admitted in Hg2 as (_ & _ & _ & _ & Heff).
  cbn [clearBusy modify snd emit setInFlight cleanupCache setCache effects].
  rewrite Heff, !generations_app. cbn. lia.
Qed.

(** The sample request, streamed at time 1000 and asked again, buffered, at
    time 5000. *)
Lemma streamed_answer_is_served_buffered_witness :
  (handleChatBuffered (laterEnv 5000) demoBody demoIp
     (handleChatStream demoEnv demoBody demoIp emptyCtx).2).1
  = Ret (Answer (Js.lit "Hello") true).
Proof.
  assert (Hmsg : bodyMessage demoBody <> []) by (vm_compute; discriminate).
  assert (Hg1 : governance (tRate demoEnv) (tSpam demoEnv)
                  (getClientKey (clientId demoBody) demoIp) emptyCtx
                = (Ret tt,
                   (governance (tRate demoEnv) (tSpam demoEnv)
                      (getClientKey (clientId demoBody) demoIp) emptyCtx).2))
    by (vm_compute; reflexivity).
  assert (Hmiss : servable (tLookup demoEnv)
            (cache (cleanupCache (tCleanup demoEnv)
                      (governance (tRate demoEnv) (tSpam demoEnv)
                         (getClientKey (clientId demoBody) demoIp) emptyCtx).2).2
               !! makeCacheKey (bodyMessage demoBody) (bodyHistory demoBody)
                    (normalizeCategory (bodyCategory demoBody))) = None)
    by (vm_compute; reflexivity).
  assert (Hg2 : governance (tRate (laterEnv 5000)) (tSpam (laterEnv 5000))
                  (getClientKey (clientId demoBody) demoIp)
                  (handleChatStream demoEnv demoBody demoIp emptyCtx).2
                = (Ret tt,
                   (governance (tRate (laterEnv 5000)) (tSpam (laterEnv 5000))
                      (getClientKey (clientId demoBody) demoIp)
                      (handleChatStream demoEnv demoBody demoIp emptyCtx).2).2))
    by (vm_compute; reflexivity).
  assert (Hclean : tCleanup (laterEnv 5000) - tStore demoEnv <= CACHE_TTL)
    by (vm_compute; discriminate).
  assert (Hlookup : tLookup (laterEnv 5000) - tStore demoEnv < CACHE_TTL)
    by (vm_compute; reflexivity).
  destruct (streamed_answer_is_served_buffered demoEnv (laterEnv 5000) demoBody
              demoIp emptyCtx _ _ Hmsg Hg1 Hmiss eq_refl eq_refl eq_refl Hg2
              Hclean Hlookup) as [Hanswer _].
  rewrite Hanswer. reflexivity.
Defined.

(** * The rate limiter over a span of time *)

(** The calls of one window: no more are admitted than the cap leaves. *)
Lemma rateCalls_window (key : list N) (times : list Z) :
  forall (c : Ctx) (st : Rate.state),
    rateState c !! key = Some st ->
    Forall (fun t => t - Rate.windowStart st <= RL_WINDOW_MS) times ->
    Z.of_nat (admitted (rateCalls key times c).1)
      <= Z.max 0 (RL_LIMIT - Rate.count st).
Proof.
  induction times as [|t rest IH]; intros c st Hst Hall; [cbn; lia|].
  apply Forall_cons in Hall as [Ht Hrest].
  cbn [rateCalls]. rewrite (applyRateLimit_within t key c st Hst Ht).
  set (st' := Rate.mk _ _ _). set (c1 := setRateState _ c).
  assert (Hst' : rateState c1 !! key = Some st')
    by (subst c1; cbn; apply lookup_insert_eq).
  specialize (IH c1 st' Hst' Hrest).
  destruct (rateCalls key rest c1) as [os c2]. cbn [fst] in *.
  subst st'. cbn [Rate.count] in IH. unfold admitted in *. unfold RL_LIMIT in *.
  destruct (Rate.count st + 1 >? 12) eqn:E; zbool; cbn [List.filter length]; lia.
Qed.

Lemma rateCalls_span (key : list N) (times : list Z) (a : Z) :
  forall (c : Ctx) (st : Rate.state),
    rateState c !! key = Some st ->
    StronglySorted Z.le times ->
    Forall (fun t => a <= t <= a + RL_WINDOW_MS) times ->
    Z.of_nat (admitted (rateCalls key times c).1)
      <= Z.max 0 (RL_LIMIT - Rate.count st) + RL_LIMIT.
Proof.
  induction times as [|t rest IH]; intros c st Hst Hsorted Hall;
    [cbn; unfold RL_LIMIT; lia|].
  apply Forall_cons in Hall as [Ht Hrest].
  apply StronglySorted_inv in Hsorted as [Hsorted Hhead].
  destruct (Z_le_gt_dec (t - Rate.windowStart st) RL_WINDOW_MS) as [Hin|Hout].
  - cbn [rateCalls]. rewrite (applyRateLimit_within t key c st Hst Hin).
    set (st' := Rate.mk _ _ _). set (c1 := setRateState _ c).
    assert (Hst' : rateState c1 !! key = Some st')
      by (subst c1; cbn; apply lookup_insert_eq).
    specialize (IH c1 st' Hst' Hsorted Hrest).
    destruct (rateCalls key rest c1) as [os c2]. cbn [fst] in *.
    subst st'. cbn [Rate.count] in IH. unfold admitted in *. unfold RL_LIMIT in *.
    destruct (Rate.count st + 1 >? 12) eqn:E; zbool; cbn [List.filter length]; lia.
  - cbn [rateCalls]. unfold applyRateLimitOrThrow at 1. rewrite Hst.
    cbn [default from_option id].
    destruct (t - Rate.windowStart st >? RL_WINDOW_MS) eqn:E; zbool; [|lia].
    cbn [Rate.windowStart Rate.count Rate.resetAt].
    change (0 + 1 >? RL_LIMIT) with false. cbv iota.
    set (c1 := setRateState _ c).
    assert (Hst' : rateState c1 !! key = Some (Rate.mk t (0 + 1) (t + RL_WINDOW_MS)))
      by (subst c1; cbn; apply lookup_insert_eq).
    pose proof (rateCalls_window key rest c1 _ Hst') as Hwin.
    cbn [Rate.windowStart Rate.count] in Hwin.
    destruct (rateCalls key rest c1) as [os c2]. cbn [fst] in *.
    unfold admitted in *. cbn [List.filter length]. unfold RL_LIMIT in *.
    assert (Hall : Forall (fun t0 => t0 - t <= RL_WINDOW_MS) rest).
    { rewrite Forall_forall in Hrest |- *. intros t0 Hin.
      specialize (Hrest t0 Hin). lia. }
    specialize (Hwin Hall). lia.
Qed.

(** Every record the rate limiter stores has counted the call that stored
    it. *)
Lemma applyRateLimit_counted (now : Z) (key : list N) (c : Ctx) :
  (forall st, rateState c !! key = Some st -> 1 <= Rate.count st) ->
  forall st, rateState (applyRateLimitOrThrow now key c).2 !! key = Some st ->
             1 <= Rate.count st.
Proof.
  intros Hcount st. unfold applyRateLimitOrThrow. cbv zeta.
  destruct (rateState c !! key) as [st0|] eqn:Hst0; cbn [default from_option id].
  - specialize (Hcount st0 eq_refl).
    destruct (now - Rate.windowStart st0 >? RL_WINDOW_MS);
      cbn [Rate.windowStart Rate.count Rate.resetAt];
      match goal with |- context [if ?b then (Throw _, _) else _] => destruct b end;
      cbn [snd rateState setRateState]; rewrite lookup_insert_eq;
      intros [= <-]; cbn [Rate.count]; lia.
  - destruct (now - Rate.windowStart _ >? RL_WINDOW_MS);
      cbn [Rate.windowStart Rate.count Rate.resetAt];
      match goal with |- context [if ?b then (Throw _, _) else _] => destruct b end;
      cbn [snd rateState setRateState]; rewrite lookup_insert_eq;
      intros [= <-]; cbn [Rate.count]; lia.
Qed.

Lemma rateCalls_counted (key : list N) (times : list Z) :
  forall c : Ctx,
    (forall st, rateState c !! key = Some st -> 1 <= Rate.count st) ->
    forall st, rateState (rateCalls key times c).2 !! key = Some st ->
               1 <= Rate.count st.
Proof.
  induction times as [|t rest IH]; intros c Hcount; [exact Hcount|].
  cbn [rateCalls].
  pose proof (applyRateLimit_counted t key c Hcount) as Hstep.
  destruct (applyRateLimitOrThrow t key c) as [o c1]. cbn [snd] in Hstep.
  specialize (IH c1 Hstep).
  destruct (rateCalls key rest c1) as [os c2]. exact IH.
Qed.

(** X23. A client the rate limiter has no record of, after any calls it has
    made since ([before]): of its calls in any span of [RL_WINDOW_MS]
    milliseconds, ends included, on a clock that does not run backwards, at
    most [2 * RL_LIMIT - 1] are admitted. The window is fixed, so a span can
    touch the end of one window and the start of the next; but the call that
    opened the first of them lies more than a window before every call of
    the second, so no such span holds it together with one of those. *)
Theorem rate_limit_per_span (key : list N) (before times : list Z) (a : Z)
    (c : Ctx) :
  rateState c !! key = None ->
  StronglySorted Z.le times ->
  Forall (fun t => a <= t <= a + RL_WINDOW_MS) times ->
  Z.of_nat (admitted (rateCalls key times (rateCalls key before c).2).1)
    <= 2 * RL_LIMIT - 1.
Proof.
  intros Hfresh Hsorted Hall.
  assert (Hcount : forall st, rateState (rateCalls key before c).2 !! key = Some st ->
                              1 <= Rate.count st).
  { apply rateCalls_counted. intros st Hst. rewrite Hfresh in Hst. discriminate. }
  set (c0 := (rateCalls key before c).2) in *. clearbody c0.
  destruct (rateState c0 !! key) as [st|] eqn:Hst.
  - pose proof (rateCalls_span key times a c0 st Hst Hsorted Hall) as H.
    specialize (Hcount st eq_refl). unfold RL_LIMIT in *. lia.
  - destruct times as [|t rest]; [cbn; unfold RL_LIMIT; lia|].
    apply Forall_cons in Hall as [Ht Hrest].
    apply StronglySorted_inv in Hsorted as [Hsorted Hhead].
    cbn [rateCalls]. rewrite (applyRateLimit_first t key c0 Hst).
    set (c1 := setRateState _ c0).
    assert (Hst' : rateState c1 !! key = Some (Rate.mk t 1 (t + RL_WINDOW_MS)))
      by (subst c1; cbn; apply lookup_insert_eq).
    pose proof (rateCalls_window key rest c1 _ Hst') as Hwin.
    cbn [Rate.windowStart Rate.count] in Hwin.
    destruct (rateCalls key rest c1) as [os c2]. cbn [fst] in *.
    unfold admitted in *. cbn [List.filter length]. unfold RL_LIMIT in *.
    assert (Hwithin : Forall (fun t0 => t0 - t <= RL_WINDOW_MS) rest).
    { rewrite Forall_forall in Hrest |- *. intros t0 Hin.
      specialize (Hrest t0 Hin). lia. }
    specialize (Hwin Hwithin). lia.
Qed.

(** The bound is reached. A client opens its first window with a call at
    time 0, then sends eleven calls at 60000, which that window still
    admits, and twelve at 60001, which open the next window: the 23 calls
    of the span from 60000 to 60001 are all admitted. *)
Lemma rate_limit_per_span_witness :
  admitted
    (rateCalls demoKey (replicate 11 60000 ++ replicate 12 60001)
       (rateCalls demoKey [0] emptyCtx).2).1 = 23%nat /\
  Z.of_nat
    (admitted
       (rateCalls demoKey (replicate 11 60000 ++ replicate 12 60001)
          (rateCalls demoKey [0] emptyCtx).2).1)
    <= 2 * RL_LIMIT - 1.
Proof.
  split; [vm_compute; reflexivity|].
  apply (rate_limit_per_span demoKey [0] _ 60000 emptyCtx).
  - reflexivity.
  - cbn. repeat (apply SSorted_cons; [|repeat constructor; lia]). constructor.
  - cbn. unfold RL_WINDOW_MS. repeat constructor; lia.
Defined.

(** * The two entry points *)

Lemma routeBuffered_chat_route (env : Env) (req : Request) (base : list N) :
  reqMethod req = Js.lit "POST" ->
  reqPath req = base ++ Js.lit "/api/chat" \/
  reqPath req = base ++ Js.lit "/api/chat-stream" ->
  routeBuffered env req =
    (body ← readBodyAsJson req;
     out ← handleChatBuffered env body (reqIp req);
     ret (responseStatus out)).
Proof.
  intros Hmethod [Hpath|Hpath]; unfold routeBuffered; cbv zeta;
    rewrite Hmethod, Hpath; rewrite orElse_app by discriminate.
  - rewrite (endsWith_app base (Js.lit "/api/chat")), orb_true_r. reflexivity.
  - rewrite (endsWith_app base (Js.lit "/api/chat-stream")), orb_true_r.
    assert (Hnot : endsWith (base ++ Js.lit "/api/chat-stream") (Js.lit "/api/chat")
                   = false).
    { destruct (endsWith _ _) eqn:E; [|reflexivity].
      apply (endsWith_last _ _ 116%N) in E; [|reflexivity].
      rewrite last_app in E. discriminate E. }
    assert (Hne : bool_decide (base ++ Js.lit "/api/chat-stream" = Js.lit "/api/chat")
                  = false).
    { apply bool_decide_eq_false. intros E.
      apply (f_equal last) in E. rewrite last_app in E. discriminate E. }
    rewrite Hnot, Hne. reflexivity.
Qed.

(** X24. Where response streaming is not available the entry point is
    [routeBuffered]. On the chat route it computes what the streaming entry
    point computes: the status it returns is the status [handlerImpl] writes
    before it ends the stream, from the same state. It has no [catch]: an
    error that [handlerImpl] answers with a JSON error body -- a rejection by
    a guard, a body that is no JSON, a failed generation -- leaves
    [routeBuffered] as a thrown error. And it serves the streaming route by
    the buffered handler, exactly as the chat route. *)
Theorem entry_points_agree_on_chat (env : Env) (req : Request)
    (base base' : list N) (c : Ctx) :
  reqMethod req = Js.lit "POST" ->
  reqPath req = base ++ Js.lit "/api/chat" ->
  match routeBuffered env req c with
  | (Ret status, c') =>
      handlerImpl env req c
      = (Ret tt, emits [StreamWrite (BodyEvent status); StreamEnd] c')
  | (Throw e, c') =>
      handlerImpl env req c
      = (Ret tt,
         emits [StreamWrite (BodyEvent (errStatus (errorResponse e))); StreamEnd]
               c')
  end /\
  routeBuffered env
    {| reqMethod := reqMethod req; reqPath := base' ++ Js.lit "/api/chat-stream";
       reqBody := reqBody req; reqIp := reqIp req |} c
  = routeBuffered env req c.
Proof.
  intros Hmethod Hpath. split.
  - rewrite (routeBuffered_chat_route env req base Hmethod (or_introl Hpath)).
    rewrite (handlerImpl_chat_route env req base Hmethod Hpath).
    unfold tryCatch, readBodyAsJson, mbind, M_bind, bind.
    destruct (reqBody req) as [body|].
    + unfold mret, M_ret, ret. cbv beta iota.
      destruct (handleChatBuffered env body (reqIp req) c) as [[out|e] c'];
        cbv beta iota.
      * rewrite respond_run. reflexivity.
      * apply respond_run.
    + unfold throw. cbv beta iota. apply respond_run.
  - rewrite (routeBuffered_chat_route env req base Hmethod (or_introl Hpath)).
    rewrite (routeBuffered_chat_route env
               {| reqMethod := reqMethod req;
                  reqPath := base' ++ Js.lit "/api/chat-stream";
                  reqBody := reqBody req; reqIp := reqIp req |}
               base' Hmethod (or_intror eq_refl)).
    reflexivity.
Qed.

(** The sample request on the chat route: both entry points answer 200. *)
Lemma entry_points_agree_on_chat_witness :
  (routeBuffered demoEnv chatRequest emptyCtx).1 = Ret 200 /\
  wire (effects (handlerImpl demoEnv chatRequest emptyCtx).2) = [BodyEvent 200].
Proof.
  assert (Hmethod : reqMethod chatRequest = Js.lit "POST") by reflexivity.
  assert (Hpath : reqPath chatRequest = [] ++ Js.lit "/api/chat") by reflexivity.
  destruct (entry_points_agree_on_chat demoEnv chatRequest [] [] emptyCtx
              Hmethod Hpath) as [Hagree _].
  assert (Hrun : routeBuffered demoEnv chatRequest emptyCtx
                 = (Ret 200, (routeBuffered demoEnv chatRequest emptyCtx).2))
    by (vm_compute; reflexivity).
  rewrite Hrun in Hagree. rewrite Hagree, Hrun.
  split; [reflexivity | vm_compute; reflexivity].
Defined.

(** * A body that is no JSON *)

(** X25. A chat request whose body is no JSON, on either route: the entry point
    answers 400 with the error text "Invalid JSON body" and no retry-after,
    ends the stream, and leaves the cache and every record of the guards as
    they were: the request is not counted against any client. *)
Theorem malformed_body_is_answered_400 (env : Env) (req : Request)
    (base : list N) (c : Ctx) :
  reqMethod req = Js.lit "POST" ->
  reqPath req = base ++ Js.lit "/api/chat" \/
  reqPath req = base ++ Js.lit "/api/chat-stream" ->
  reqBody req = None ->
  handlerImpl env req c
    = (Ret tt, emits [StreamWrite (BodyEvent 400); StreamEnd] c) /\
  errorResponse invalidJson
    = {| errStatus := 400; errRetryAfterHeader := None;
         errError := Js.lit "Invalid JSON body"; errRetryAfterSec := None |}.
Proof.
  intros Hmethod Hpath Hbody. split; [|reflexivity].
  destruct Hpath as [Hpath|Hpath].
  - rewrite (handlerImpl_chat_route env req base Hmethod Hpath).
    unfold tryCatch, readBodyAsJson, mbind, M_bind, bind. rewrite Hbody.
    unfold throw. cbv beta iota. apply respond_run.
  - rewrite (handlerImpl_stream_route env req base Hmethod Hpath).
    unfold tryCatch, readBodyAsJson, mbind, M_bind, bind. rewrite Hbody.
    unfold throw. cbv beta iota. apply respond_run.
Qed.

(** A streaming request without a parsable body. *)
Lemma malformed_body_is_answered_400_witness :
  wire (effects
          (handlerImpl demoEnv
             {| reqMethod := Js.lit "POST"; reqPath := Js.lit "/api/chat-stream";
                reqBody := None; reqIp := demoIp |} atCap).2) = [BodyEvent 400] /\
  spamState
    (handlerImpl demoEnv
       {| reqMethod := Js.lit "POST"; reqPath := Js.lit "/api/chat-stream";
          reqBody := None; reqIp := demoIp |} atCap).2 = spamState atCap.
Proof.
  destruct (malformed_body_is_answered_400 demoEnv
              {| reqMethod := Js.lit "POST"; reqPath := Js.lit "/api/chat-stream";
                 reqBody := None; reqIp := demoIp |} [] atCap
              eq_refl (or_intror eq_refl) eq_refl) as [Hrun _].
  rewrite Hrun. split; reflexivity.
Defined.

(** * Categories and the cache *)

(** X26. Two requests in different valid categories never share a cache entry,
    whatever their messages and histories: their cache keys differ. *)
Theorem categories_do_not_share_entries (m1 m2 : list N) (h1 h2 : list Turn)
    (c1 c2 : list N) :
  c1 ∈ VALID_CATEGORIES -> c2 ∈ VALID_CATEGORIES -> c1 <> c2 ->
  makeCacheKey m1 h1 c1 <> makeCacheKey m2 h2 c2.
Proof.
  intros H1 H2 Hne. unfold makeCacheKey. cbv zeta.
  unfold normalizeCategory.
  rewrite (bool_decide_eq_true_2 _ H1), (bool_decide_eq_true_2 _ H2).
  generalize (take 600 (Js.orElse m1 []) ++ Js.lit "::"
                ++ Js.join (Js.lit "|")
                     (map (fun x => Js.orElse (role x) [] ++ Js.lit ":"
                                      ++ take 140 (Js.orElse (content x) []))
                          (Js.lastN 4 h1))).
  generalize (take 600 (Js.orElse m2 []) ++ Js.lit "::"
                ++ Js.join (Js.lit "|")
                     (map (fun x => Js.orElse (role x) [] ++ Js.lit ":"
                                      ++ take 140 (Js.orElse (content x) []))
                          (Js.lastN 4 h2))).
  intros r2 r1.
  unfold VALID_CATEGORIES in H1, H2. cbn [map] in H1, H2.
  repeat (apply elem_of_cons in H1 as [-> | H1]);
    try (inversion H1; fail);
    repeat (apply elem_of_cons in H2 as [-> | H2]);
    try (inversion H2; fail);
    try (exfalso; apply Hne; reflexivity);
    cbn; intros H; discriminate H.
Qed.

(** The same message asked in two categories. *)
Lemma categories_do_not_share_entries_witness :
  bool_decide
    (makeCacheKey (Js.lit "Mi a legolcsobb?") [] (Js.lit "drinks")
     = makeCacheKey (Js.lit "Mi a legolcsobb?") [] (Js.lit "desserts"))
  = false.
Proof.
  apply bool_decide_eq_false.
  apply categories_do_not_share_entries.
  - by_compute.
  - by_compute.
  - vm_compute. discriminate.
Defined.

(** * The spam guard over a span of time *)

(** One call of the spam guard on a stored record, seen from its window: a
    rejection by the first two rules leaves the window and the count alone;
    otherwise the call is counted, in the stored window or in a new one, and
    it is admitted exactly when the count stays within the cap. *)
Lemma applySpamGuard_counted (now : Z) (key : list N) (c : Ctx) (st : Spam.state) :
  spamState c !! key = Some st ->
  exists st',
    spamState (applySpamGuardOrThrow now key c).2 !! key = Some st' /\
    ((isAdmitted (applySpamGuardOrThrow now key c).1 = false /\
      Spam.windowStart st' = Spam.windowStart st /\
      Spam.count st' = Spam.count st) \/
     (now - Spam.windowStart st <= SPAM_WINDOW_MS /\
      Spam.windowStart st' = Spam.windowStart st /\
      Spam.count st' = Spam.count st + 1 /\
      isAdmitted (applySpamGuardOrThrow now key c).1
        = (Spam.count st + 1 <=? SPAM_LIMIT)) \/
     (SPAM_WINDOW_MS < now - Spam.windowStart st /\
      Spam.windowStart st' = now /\ Spam.count st' = 1 /\
      isAdmitted (applySpamGuardOrThrow now key c).1 = true)).
Proof.
  intros Hst. unfold applySpamGuardOrThrow. rewrite Hst.
  cbn [default from_option id].
  destruct (truthyZ (Spam.blockedUntil st) && (now <? Spam.blockedUntil st)).
  { exists st. cbn [fst snd]. split; [exact Hst|]. left. auto. }
  destruct (truthyZ (Spam.lastAt st) && (now - Spam.lastAt st <? MIN_INTERVAL_MS)).
  { eexists. cbn [fst snd]. split; [apply lookup_insert_eq|]. left. cbn. auto. }
  destruct (now - Spam.windowStart st >? SPAM_WINDOW_MS) eqn:Ew; zbool;
    cbn [Spam.windowStart Spam.count Spam.blockedUntil Spam.lastAt].
  - change (0 + 1 >? SPAM_LIMIT) with false. cbv iota.
    eexists. cbn [fst snd]. split; [apply lookup_insert_eq|].
    right; right. cbn. repeat split; lia.
  - destruct (Spam.count st + 1 >? SPAM_LIMIT) eqn:Ec; zbool;
      (eexists; cbn [fst snd]; split; [apply lookup_insert_eq|]);
      right; left; cbn; (split; [lia|]); (split; [reflexivity|]);
      (split; [reflexivity|]); symmetry.
    + apply Z.leb_gt. lia.
    + apply Z.leb_le. lia.
Qed.

Lemma spamCalls_window (key : list N) (times : list Z) :
  forall (c : Ctx) (st : Spam.state),
    spamState c !! key = Some st ->
    Forall (fun t => t - Spam.windowStart st <= SPAM_WINDOW_MS) times ->
    Z.of_nat (admitted (spamCalls key times c).1)
      <= Z.max 0 (SPAM_LIMIT - Spam.count st).
Proof.
  induction times as [|t rest IH]; intros c st Hst Hall; [cbn; lia|].
  apply Forall_cons in Hall as [Ht Hrest].
  cbn [spamCalls].
  destruct (applySpamGuard_counted t key c st Hst) as (st' & Hst' & Hcase).
  destruct (applySpamGuardOrThrow t key c) as [o c1]. cbn [fst snd] in *.
  specialize (IH c1 st' Hst').
  destruct (spamCalls key rest c1) as [os c2]. cbn [fst] in *.
  unfold admitted in *. cbn [List.filter]. fold (isAdmitted o).
  destruct Hcase as [(Ho & Hw & Hc) | [(_ & Hw & Hc & Ho) | (Hout & _)]];
    [| |lia]; rewrite Hw, Hc in IH; specialize (IH Hrest); rewrite Ho.
  - lia.
  - unfold SPAM_LIMIT in *.
    destruct (Spam.count st + 1 <=? 30) eqn:E; cbn [length];
      [apply Z.leb_le in E | apply Z.leb_gt in E]; lia.
Qed.

Lemma spamCalls_span (key : list N) (times : list Z) (a : Z) :
  forall (c : Ctx) (st : Spam.state),
    spamState c !! key = Some st ->
    StronglySorted Z.le times ->
    Forall (fun t => a <= t <= a + SPAM_WINDOW_MS) times ->
    Z.of_nat (admitted (spamCalls key times c).1)
      <= Z.max 0 (SPAM_LIMIT - Spam.count st) + SPAM_LIMIT.
Proof.
  induction times as [|t rest IH]; intros c st Hst Hsorted Hall;
    [cbn; unfold SPAM_LIMIT; lia|].
  apply Forall_cons in Hall as [Ht Hrest].
  apply StronglySorted_inv in Hsorted as [Hsorted Hhead].
  cbn [spamCalls].
  destruct (applySpamGuard_counted t key c st Hst) as (st' & Hst' & Hcase).
  pose proof (spamCalls_window key rest) as Hwin.
  destruct (applySpamGuardOrThrow t key c) as [o c1]. cbn [fst snd] in *.
  specialize (IH c1 st' Hst' Hsorted Hrest). specialize (Hwin c1 st' Hst').
  destruct (spamCalls key rest c1) as [os c2]. cbn [fst] in *.
  unfold admitted in *. cbn [List.filter]. fold (isAdmitted o).
  destruct Hcase as [(Ho & Hw & Hc) | [(_ & Hw & Hc & Ho) | (Hout & Hw & Hc & Ho)]];
    rewrite Ho.
  - rewrite Hc in IH. lia.
  - rewrite Hc in IH. unfold SPAM_LIMIT in *.
    destruct (Spam.count st + 1 <=? 30) eqn:E; cbn [length];
      [apply Z.leb_le in E | apply Z.leb_gt in E]; lia.
  - rewrite Hw, Hc in Hwin. cbn [length]. unfold SPAM_LIMIT in *.
    assert (Hall : Forall (fun t0 => t0 - t <= SPAM_WINDOW_MS) rest).
    { rewrite Forall_forall in Hrest |- *. intros t0 Hin.
      specialize (Hrest t0 Hin). lia. }
    specialize (Hwin Hall). lia.
Qed.

(** X27. With a clock that does not run backwards, the spam guard admits at most
    twice [SPAM_LIMIT] calls of one client in any span of [SPAM_WINDOW_MS]
    milliseconds, whatever cool-downs the client runs into. *)
Theorem spam_guard_per_span (key : list N) (times : list Z) (a : Z) (c : Ctx)
    (st : Spam.state) :
  spamState c !! key = Some st ->
  0 <= Spam.count st ->
  StronglySorted Z.le times ->
  Forall (fun t => a <= t <= a + SPAM_WINDOW_MS) times ->
  Z.of_nat (admitted (spamCalls key times c).1) <= 2 * SPAM_LIMIT.
Proof.
  intros Hst Hcount Hsorted Hall.
  pose proof (spamCalls_span key times a c st Hst Hsorted Hall) as H.
  unfold SPAM_LIMIT in *. lia.
Qed.

(** The client at the cap: one more call in its window is rejected, the
    first call of the next window is admitted. *)
Lemma spam_guard_per_span_witness :
  (spamCalls demoKey [6000; 301001] atCap).1
    = [Throw (spamError SPAM_WINDOW 180); Ret tt] /\
  Z.of_nat (admitted (spamCalls demoKey [6000; 301001] atCap).1) <= 2 * SPAM_LIMIT.
Proof.
  split; [vm_compute; reflexivity|].
  assert (Hst : spamState atCap !! demoKey = Some (Spam.mk 1000 30 0 5000))
    by reflexivity.
  assert (Hcount : 0 <= Spam.count (Spam.mk 1000 30 0 5000))
    by (vm_compute; discriminate).
  assert (Hsorted : StronglySorted Z.le [6000; 301001]).
  { repeat (apply SSorted_cons; [|repeat constructor; lia]). constructor. }
  assert (Hall : Forall (fun t => 6000 <= t <= 6000 + SPAM_WINDOW_MS) [6000; 301001])
    by (unfold SPAM_WINDOW_MS; repeat constructor; lia).
  exact (spam_guard_per_span demoKey _ 6000 atCap _ Hst Hcount Hsorted Hall).
Defined.
